(** * Burger: the coroutine Processor, the Scheduler and TcpConnection

    A shallow embedding of [burger/net/Processor.cc],
    [burger/net/Scheduler.cc] and [burger/net/TcpConnection.cc].  Each C++
    member function becomes a function on an explicit state record; a call
    that can abort the process returns a [Result].

    - Coroutine objects are shared through [Coroutine::ptr]: they live in
      a store indexed by pointers, and the queues hold pointers.  A
      pointer that refers to no object is left alone by the setters.
    - What a coroutine does while it is swapped in is not fixed by these
      files.  [run] therefore takes a script: for every swap-in, the
      calls the coroutine makes on its Processor and the state it comes
      back in.
    - Every Processor and every Scheduler carries a history of the events
      its member functions produce; it is not read by the functions.
    - A TcpConnection records the calls it makes on its event loop,
      channel, socket and buffers in a trace, and takes what they answer
      during a call as an argument.
    - The classes [Coroutine], [CoEpoll], [CoTimerQueue], [ProcessThread]
      and the logging macros are not among the sources.  Where a function
      needs one of them, the definition says so and follows the words of
      the specification. *)

From Stdlib Require Import ZArith Lia.
From stdpp Require Import base option list gmap strings.

Local Open Scope string_scope.
Local Open Scope list_scope.

(** ** Fatal errors *)

Inductive Result (A : Type) : Type :=
| Ok (a : A)
| Fatal (msg : string).

Arguments Ok {A} a.
Arguments Fatal {A} msg.

#[global] Instance Result_ret : MRet Result := fun A a => Ok a.

#[global] Instance Result_bind : MBind Result :=
  fun A B f m => match m with Ok a => f a | Fatal msg => Fatal msg end.

Definition is_Ok {A} (r : Result A) : bool :=
  match r with Ok _ => true | Fatal _ => false end.

(** Modelled from the spec: the [CRITICAL] macro of [burger/base/Log.h],
    which is not among the sources.  The error table of the spec gives
    misuse as "Fatal: abort with diagnostic"; the diagnostic is kept. *)
Definition CRITICAL {A} (msg : string) : Result A := Fatal msg.

(** [size_t] arithmetic wraps at 64 bits. *)
Definition size_max : Z := 2 ^ 64.
Definition wrap (z : Z) : Z := (z mod size_max)%Z.

(** ** Coroutines *)

Abbreviation Tid := nat.
Abbreviation CoPtr := nat.
Abbreviation ProcPtr := nat.

(** Modelled from the spec: [Coroutine::State] of [burger/base/Coroutine.h]
    (not among the sources); the spec lists the six states. *)
Inductive State := INIT | HOLD | EXEC | READY | TERM | EXCEPT.

#[global] Instance State_eq_dec : EqDecision State.
Proof. solve_decision. Defined.

(** The closures handed to coroutines.  The Processor creates three of its
    own: the two lambdas of its constructor and the bound [CoEpoll::poll]
    of [run]; every other callback is opaque user code. *)
Inductive Callback :=
| CbWake
| CbTimerQue
| CbEpollPoll (timeoutMs : Z)
| CbUser (k : nat).

#[global] Instance Callback_eq_dec : EqDecision Callback.
Proof. solve_decision. Defined.

Record Coroutine := mkCoroutine {
  co_state : State;
  co_name : string;
  co_cb : Callback
}.

(** [std::make_shared<Coroutine>(cb, name)]: the spec's [spawn] yields
    state INIT. *)
Definition newCoroutine (cb : Callback) (name : string) : Coroutine :=
  mkCoroutine INIT name cb.

Definition co_setState (s : State) (co : Coroutine) : Coroutine :=
  mkCoroutine s (co_name co) (co_cb co).

Definition co_setName (name : string) (co : Coroutine) : Coroutine :=
  mkCoroutine (co_state co) name (co_cb co).

(** Modelled from the spec: [Coroutine::reset] (not among the sources):
    "only legal in TERM or INIT; reuses the stack, clears context, returns
    to INIT". *)
Definition co_reset (cb : Callback) (co : Coroutine) : Result Coroutine :=
  match co_state co with
  | TERM | INIT => Ok (mkCoroutine INIT (co_name co) cb)
  | _ => Fatal "reset: state is neither TERM nor INIT"
  end.

(** ** CoEpoll *)

Definition EPOLLIN : Z := 1.
Definition EPOLLOUT : Z := 4.

Record FdEntry := mkFdEntry {
  fd_mask : Z;
  fd_reader : option CoPtr;
  fd_writer : option CoPtr
}.

Record CoEpoll := mkCoEpoll {
  epolling_ : bool;
  fdMap_ : gmap Z FdEntry
}.

Definition isEpolling (e : CoEpoll) : bool := epolling_ e.

Definition setEpolling (b : bool) (e : CoEpoll) : CoEpoll :=
  mkCoEpoll b (fdMap_ e).

Definition mask_of (r w : option CoPtr) : Z :=
  Z.lor (if r is Some _ then EPOLLIN else 0%Z)
        (if w is Some _ then EPOLLOUT else 0%Z).

(** Modelled from the spec: [CoEpoll::updateEvent] (not among the sources):
    the waiter is stored in the slot of each direction asked for and "the
    interest mask is always the union of the fd's current reader/writer
    slots".  The spec names no check of the calling thread here. *)
Definition epoll_updateEvent (fd events : Z) (co : option CoPtr)
    (e : CoEpoll) : CoEpoll :=
  let old := default (mkFdEntry 0 None None) (fdMap_ e !! fd) in
  let r := if Z.testbit events 0 then co else fd_reader old in
  let w := if Z.testbit events 2 then co else fd_writer old in
  mkCoEpoll (epolling_ e) (<[fd := mkFdEntry (mask_of r w) r w]> (fdMap_ e)).

(** Modelled from the spec: [CoEpoll::removeEvent]: "deletes the kernel
    registration and clears both slots". *)
Definition epoll_removeEvent (fd : Z) (e : CoEpoll) : CoEpoll :=
  mkCoEpoll (epolling_ e) (delete fd (fdMap_ e)).

(** ** Timers *)

Inductive TimerPayload :=
| TimerCo (c : CoPtr)
| TimerCb (cb : Callback) (name : string).

Record Timer := mkTimer {
  timer_payload : TimerPayload;
  timer_when : Z;
  timer_interval : Z
}.

(** ** The history of a Processor

    A ghost log of what the member functions did, in program order.  It
    takes no part in the behaviour; the theorems read it. *)
Inductive Event :=
| EvLock
| EvUnlock
| EvPendingAppend (cb : Callback) (name : string)
| EvPendingSwap
| EvWakeupWrite
| EvEnqueue (c : CoPtr)
| EvSwapIn (c : CoPtr)
| EvIdlePush (c : CoPtr)
| EvSetHookEnabled (b : bool).

#[global] Instance Event_eq_dec : EqDecision Event.
Proof. solve_decision. Defined.

(** ** Processor *)

Module Processor.

(** The members of [Processor] that its [.cc] file touches.  [coros] is
    the store of the coroutine objects the pointers refer to, [nextCo] the
    next address [make_shared] hands out, [history] the ghost log.
    [wakeupFd_] is the counter of the eventfd. *)
Record Processor := mkProcessor {
  stop_ : bool;
  load_ : Z;
  threadId_ : Tid;
  epoll_ : CoEpoll;
  timerQueue_ : list Timer;
  wakeupFd_ : Z;
  runnableCoQue_ : list CoPtr;
  idleCoQue_ : list CoPtr;
  pendingTasks_ : list (Callback * string);
  addingPendingTasks_ : bool;
  coros : gmap nat Coroutine;
  nextCo : CoPtr;
  history : list Event
}.

Definition set_stop (b : bool) (p : Processor) : Processor :=
  mkProcessor b (load_ p) (threadId_ p) (epoll_ p) (timerQueue_ p)
    (wakeupFd_ p) (runnableCoQue_ p) (idleCoQue_ p) (pendingTasks_ p)
    (addingPendingTasks_ p) (coros p) (nextCo p) (history p).

Definition set_load (n : Z) (p : Processor) : Processor :=
  mkProcessor (stop_ p) n (threadId_ p) (epoll_ p) (timerQueue_ p)
    (wakeupFd_ p) (runnableCoQue_ p) (idleCoQue_ p) (pendingTasks_ p)
    (addingPendingTasks_ p) (coros p) (nextCo p) (history p).

Definition set_epoll (e : CoEpoll) (p : Processor) : Processor :=
  mkProcessor (stop_ p) (load_ p) (threadId_ p) e (timerQueue_ p)
    (wakeupFd_ p) (runnableCoQue_ p) (idleCoQue_ p) (pendingTasks_ p)
    (addingPendingTasks_ p) (coros p) (nextCo p) (history p).

Definition set_timerQueue (q : list Timer) (p : Processor) : Processor :=
  mkProcessor (stop_ p) (load_ p) (threadId_ p) (epoll_ p) q
    (wakeupFd_ p) (runnableCoQue_ p) (idleCoQue_ p) (pendingTasks_ p)
    (addingPendingTasks_ p) (coros p) (nextCo p) (history p).

Definition set_wakeupFd (n : Z) (p : Processor) : Processor :=
  mkProcessor (stop_ p) (load_ p) (threadId_ p) (epoll_ p) (timerQueue_ p)
    n (runnableCoQue_ p) (idleCoQue_ p) (pendingTasks_ p)
    (addingPendingTasks_ p) (coros p) (nextCo p) (history p).

Definition set_runnable (q : list CoPtr) (p : Processor) : Processor :=
  mkProcessor (stop_ p) (load_ p) (threadId_ p) (epoll_ p) (timerQueue_ p)
    (wakeupFd_ p) q (idleCoQue_ p) (pendingTasks_ p)
    (addingPendingTasks_ p) (coros p) (nextCo p) (history p).

Definition set_idle (q : list CoPtr) (p : Processor) : Processor :=
  mkProcessor (stop_ p) (load_ p) (threadId_ p) (epoll_ p) (timerQueue_ p)
    (wakeupFd_ p) (runnableCoQue_ p) q (pendingTasks_ p)
    (addingPendingTasks_ p) (coros p) (nextCo p) (history p).

Definition set_pending (q : list (Callback * string)) (p : Processor)
    : Processor :=
  mkProcessor (stop_ p) (load_ p) (threadId_ p) (epoll_ p) (timerQueue_ p)
    (wakeupFd_ p) (runnableCoQue_ p) (idleCoQue_ p) q
    (addingPendingTasks_ p) (coros p) (nextCo p) (history p).

Definition set_adding (b : bool) (p : Processor) : Processor :=
  mkProcessor (stop_ p) (load_ p) (threadId_ p) (epoll_ p) (timerQueue_ p)
    (wakeupFd_ p) (runnableCoQue_ p) (idleCoQue_ p) (pendingTasks_ p)
    b (coros p) (nextCo p) (history p).

Definition set_coros (h : gmap nat Coroutine) (p : Processor) : Processor :=
  mkProcessor (stop_ p) (load_ p) (threadId_ p) (epoll_ p) (timerQueue_ p)
    (wakeupFd_ p) (runnableCoQue_ p) (idleCoQue_ p) (pendingTasks_ p)
    (addingPendingTasks_ p) h (nextCo p) (history p).

Definition set_nextCo (n : CoPtr) (p : Processor) : Processor :=
  mkProcessor (stop_ p) (load_ p) (threadId_ p) (epoll_ p) (timerQueue_ p)
    (wakeupFd_ p) (runnableCoQue_ p) (idleCoQue_ p) (pendingTasks_ p)
    (addingPendingTasks_ p) (coros p) n (history p).

Definition emit (ev : Event) (p : Processor) : Processor :=
  mkProcessor (stop_ p) (load_ p) (threadId_ p) (epoll_ p) (timerQueue_ p)
    (wakeupFd_ p) (runnableCoQue_ p) (idleCoQue_ p) (pendingTasks_ p)
    (addingPendingTasks_ p) (coros p) (nextCo p) (history p ++ [ev]).

(** *** Coroutine objects behind the pointers *)

(** [std::make_shared<Coroutine>(cb, name)]. *)
Definition makeCo (cb : Callback) (name : string) (p : Processor)
    : CoPtr * Processor :=
  let c := nextCo p in
  (c, set_nextCo (S c) (set_coros (<[c := newCoroutine cb name]> (coros p)) p)).

(** [co->getState()]; [None] for a pointer that refers to no coroutine. *)
Definition getState (c : CoPtr) (p : Processor) : option State :=
  co_state <$> coros p !! c.

(** [co->setState(s)]. *)
Definition setState (c : CoPtr) (s : State) (p : Processor) : Processor :=
  set_coros (alter (co_setState s) c (coros p)) p.

(** [co->setName(name)]. *)
Definition setName (c : CoPtr) (name : string) (p : Processor) : Processor :=
  set_coros (alter (co_setName name) c (coros p)) p.

(** [co->reset(cb)]. *)
Definition reset (c : CoPtr) (cb : Callback) (p : Processor)
    : Result Processor :=
  match coros p !! c with
  | None => Fatal "reset: null coroutine"
  | Some co =>
      co' ← co_reset cb co;
      Ok (set_coros (<[c := co']> (coros p)) p)
  end.

(** *** The wakeup channel *)

(** [Processor::wakeupEpollCo]: one 8-byte write adds 1 to the eventfd. *)
Definition wakeupEpollCo (p : Processor) : Processor :=
  emit EvWakeupWrite (set_wakeupFd (wakeupFd_ p + 1)%Z p).

(** *** Submitting tasks *)

(** [Processor::addTask(Coroutine::ptr co)]. *)
Definition addTaskCo (c : CoPtr) (p : Processor) : Processor :=
  let p := setState c EXEC p in
  let p := emit (EvEnqueue c) (set_runnable (runnableCoQue_ p ++ [c]) p) in
  let p := set_load (wrap (load_ p + 1)) p in
  if isEpolling (epoll_ p) then wakeupEpollCo p else p.

(** [Processor::resetAndGetCo]. *)
Definition resetAndGetCo (cb : Callback) (name : string) (p : Processor)
    : Result (CoPtr * Processor) :=
  match idleCoQue_ p with
  | [] => Ok (makeCo cb name p)
  | c :: rest =>
      let p := set_idle rest p in
      p ← reset c cb p;
      Ok (c, setName c name p)
  end.

(** [Processor::addTask(const Coroutine::Callback& cb, name)]. *)
Definition addTask (cb : Callback) (name : string) (p : Processor)
    : Result Processor :=
  r ← resetAndGetCo cb name p;
  Ok (addTaskCo r.1 r.2).

(** [Processor::addPendingTask]. *)
Definition addPendingTask (cb : Callback) (name : string) (p : Processor)
    : Processor :=
  let p := emit (EvPendingAppend cb name)
             (set_pending (pendingTasks_ p ++ [(cb, name)]) p) in
  wakeupEpollCo p.

(** The [for] loop of [addPendingTasksIntoQueue]. *)
Fixpoint addTasks (tasks : list (Callback * string)) (p : Processor)
    : Result Processor :=
  match tasks with
  | [] => Ok p
  | t :: rest => p ← addTask t.1 t.2 p; addTasks rest p
  end.

(** [Processor::addPendingTasksIntoQueue]. *)
Definition addPendingTasksIntoQueue (p : Processor) : Result Processor :=
  let p := set_adding true p in
  let p := emit EvLock p in
  let tasks := pendingTasks_ p in
  let p := emit EvPendingSwap (set_pending [] p) in
  let p := emit EvUnlock p in
  p ← addTasks tasks p;
  Ok (set_adding false p).

(** *** Events and the owning thread *)

(** [Processor::updateEvent], called on thread [caller]. *)
Definition updateEvent (caller : Tid) (fd events : Z) (co : option CoPtr)
    (p : Processor) : Result Processor :=
  Ok (set_epoll (epoll_updateEvent fd events co (epoll_ p)) p).

(** [Processor::removeEvent], called on thread [caller]. *)
Definition removeEvent (caller : Tid) (fd : Z) (p : Processor)
    : Result Processor :=
  Ok (set_epoll (epoll_removeEvent fd (epoll_ p)) p).

(** [Processor::isInProcThread], asked on thread [caller]. *)
Definition isInProcThread (caller : Tid) (p : Processor) : bool :=
  bool_decide (threadId_ p = caller).

(** [Processor::abortNotInProcThread]. *)
Definition abortNotInProcThread {A} : Result A :=
  CRITICAL "Processor::abortNotInLoopThread".

(** [Processor::assertInProcThread]. *)
Definition assertInProcThread (caller : Tid) (p : Processor) : Result unit :=
  if negb (isInProcThread caller p) then abortNotInProcThread else Ok tt.

(** [Processor::stop]. *)
Definition stop (p : Processor) : Processor :=
  let p := set_stop true p in
  if isEpolling (epoll_ p) then wakeupEpollCo p else p.

(** Modelled from the spec: [CoTimerQueue::addTimer] (not among the
    sources): the queue is ordered by deadline and "timers with equal
    deadlines fire in insertion order". *)
Fixpoint insertTimer (t : Timer) (q : list Timer) : list Timer :=
  match q with
  | [] => [t]
  | u :: rest =>
      if (timer_when t <? timer_when u)%Z then t :: q
      else u :: insertTimer t rest
  end.

Definition addTimer (t : Timer) (p : Processor) : Processor :=
  set_timerQueue (insertTimer t (timerQueue_ p)) p.

(** *** What a coroutine does while it is swapped in

    The body of a coroutine is user code (or [CoEpoll::poll], or one of the
    constructor's lambdas).  All it can do to the Processor goes through
    the member functions, so one stay on the CPU is described by the calls
    it makes, in order, and by the state it is left in when control comes
    back to [run].  [ActAddPendingTask] and [ActStop] also stand for calls
    made by other threads during that stay. *)
Inductive Action :=
| ActNewCoroutine (cb : Callback) (name : string)
| ActAddTaskCo (c : CoPtr)
| ActAddTask (cb : Callback) (name : string)
| ActAddPendingTask (cb : Callback) (name : string)
| ActStop
| ActUpdateEvent (fd events : Z) (co : option CoPtr)
| ActRemoveEvent (fd : Z)
| ActSetEpolling (b : bool)
| ActAddTimer (t : Timer).

Record SwapResult := mkSwapResult {
  sr_actions : list Action;
  sr_state : State
}.

Definition do_action (a : Action) (p : Processor) : Result Processor :=
  match a with
  | ActNewCoroutine cb name => Ok (makeCo cb name p).2
  | ActAddTaskCo c => Ok (addTaskCo c p)
  | ActAddTask cb name => addTask cb name p
  | ActAddPendingTask cb name => Ok (addPendingTask cb name p)
  | ActStop => Ok (stop p)
  | ActUpdateEvent fd events co => updateEvent (threadId_ p) fd events co p
  | ActRemoveEvent fd => removeEvent (threadId_ p) fd p
  | ActSetEpolling b => Ok (set_epoll (setEpolling b (epoll_ p)) p)
  | ActAddTimer t => Ok (addTimer t p)
  end.

Fixpoint do_actions (acts : list Action) (p : Processor) : Result Processor :=
  match acts with
  | [] => Ok p
  | a :: rest => p ← do_action a p; do_actions rest p
  end.

(** Modelled from the spec: [Coroutine::swapIn] (not among the sources):
    it "transitions the target to EXEC", the body runs until it swaps out
    or returns, and "swapping into a TERM/EXCEPT coroutine is a fatal
    programming error". *)
Definition swapIn (c : CoPtr) (r : SwapResult) (p : Processor)
    : Result Processor :=
  match getState c p with
  | None => Fatal "swapIn: null coroutine"
  | Some TERM | Some EXCEPT => Fatal "swapIn: the coroutine has finished"
  | Some _ =>
      let p := emit (EvSwapIn c) (setState c EXEC p) in
      p ← do_actions (sr_actions r) p;
      Ok (setState c (sr_state r) p)
  end.

(** *** run *)

Definition kEpollTimeMs : Z := 10000.

(** The loop test [!stop_ || !runnableCoQue_.empty()]. *)
Definition loopCond (p : Processor) : bool :=
  negb (stop_ p) || negb (bool_decide (runnableCoQue_ p = [])).

(** The choice of [cur] at the top of the loop body. *)
Definition pickNext (epollCo : CoPtr) (p : Processor) : CoPtr * Processor :=
  match runnableCoQue_ p with
  | [] => (epollCo, set_epoll (setEpolling true (epoll_ p)) p)
  | c :: rest => (c, set_runnable rest p)
  end.

(** The test after [cur->swapIn()] comes back. *)
Definition afterSwap (cur : CoPtr) (p : Processor) : Processor :=
  if bool_decide (getState cur p = Some TERM) then
    let p := set_load (wrap (load_ p - 1)) p in
    emit (EvIdlePush cur) (set_idle (idleCoQue_ p ++ [cur]) p)
  else p.

(** One pass through the loop body. *)
Definition iteration (epollCo : CoPtr) (r : SwapResult) (p : Processor)
    : Result Processor :=
  let pk := pickNext epollCo p in
  p ← swapIn pk.1 r pk.2;
  addPendingTasksIntoQueue (afterSwap pk.1 p).

(** The [while] loop of [run] and the last [epollCo->swapIn()].  Each
    swap-in takes the next entry of [script]; [None] says that the script
    ends while [run] is still going. *)
Fixpoint runLoop (script : list SwapResult) (epollCo : CoPtr) (p : Processor)
    : option (Result Processor) :=
  match script with
  | [] => None
  | r :: script' =>
      if loopCond p then
        match iteration epollCo r p with
        | Fatal msg => Some (Fatal msg)
        | Ok p' => runLoop script' epollCo p'
        end
      else Some (swapIn epollCo r p)
  end.

(** What [run] does before the loop; the pointer is [epollCo]. *)
Definition runEnter (p : Processor) : CoPtr * Processor :=
  let p := set_stop false p in
  let p := emit (EvSetHookEnabled true) p in
  let mk := makeCo (CbEpollPoll kEpollTimeMs) "Epoll" p in
  (mk.1, setState mk.1 EXEC mk.2).

(** [Processor::run], called on thread [caller]. *)
Definition run (caller : Tid) (script : list SwapResult) (p : Processor)
    : option (Result Processor) :=
  match assertInProcThread caller p with
  | Fatal msg => Some (Fatal msg)
  | Ok _ => let en := runEnter p in runLoop script en.1 en.2
  end.

(** *** Construction *)

(** A Processor whose members hold their initial values. *)
Definition blank (tid : Tid) : Processor :=
  mkProcessor false 0 tid (mkCoEpoll false ∅) [] 0 [] [] [] false ∅ 0 [].

(** [Processor::Processor], run on thread [caller] whose thread-local
    [t_proc] is the argument; gives the object and the new [t_proc]. *)
Definition new (caller : Tid) (t_proc : option ProcPtr) (this : ProcPtr)
    : Result (Processor * option ProcPtr) :=
  let p := blank caller in
  t ← (if t_proc is Some _
       then CRITICAL "Another Processor exists in this Thread"
       else Ok (Some this));
  p ← addTask CbWake "Wake" p;
  p ← addTask CbTimerQue "timerQue" p;
  Ok (p, t).

(** *** The two lambdas of the constructor *)

Inductive Outcome := Returned | Looping.

(** [Processor::consumeWakeUp]: the value of [::read] is returned as is. *)
Definition consumeWakeUp (n : Z) : Z := n.

(** The body of "Wake".  Each turn of its loop reads [stop_] and then, if
    it is unset, calls [consumeWakeUp]; [obs] gives what the turns see. *)
Fixpoint wakeBody (obs : list (bool * Z)) : Outcome :=
  match obs with
  | [] => Looping
  | (stop, n) :: rest =>
      if stop then Returned
      else if (consumeWakeUp n <? 0)%Z then Returned
      else wakeBody rest
  end.

(** The body of "timerQue"; [obs] gives [stop_] as each turn reads it. *)
Fixpoint timerQueBody (obs : list bool) : Outcome :=
  match obs with
  | [] => Looping
  | stop :: rest => if stop then Returned else timerQueBody rest
  end.

(** The state the trampoline leaves a coroutine in: "on normal return the
    state becomes TERM"; a body still in its loop has only swapped out. *)
Definition stateAfter (o : Outcome) : State :=
  match o with Returned => TERM | Looping => HOLD end.

End Processor.

(** ** Scheduler *)

Module Scheduler.

(** The ghost log of a Scheduler: stop requests, thread joins (with the
    thread that performs them) and the release of [wait]. *)
Inductive SEvent :=
| SevStop (proc : ProcPtr)
| SevSpawnDetached (who helper : Tid)
| SevJoin (who target : Tid)
| SevQuit (who : Tid).

#[global] Instance SEvent_eq_dec : EqDecision SEvent.
Proof. solve_decision. Defined.

(** The members of [Scheduler] and the part of the process it acts on:
    [index] is the function-local [static] of [pickOneProcesser], [procs]
    the Processor objects behind the pointers, [t_proc] the thread-local
    of [Processor.cc] for every thread.  A [ProcessThread] is known by the
    id of its thread. *)
Record Scheduler := mkScheduler {
  running_ : bool;
  quit_ : bool;
  threadNum_ : Z;
  mainProc_ : option ProcPtr;
  workProcVec_ : list ProcPtr;
  workThreadVec_ : list Tid;
  thread_ : option Tid;
  index : nat;
  procs : gmap nat Processor.Processor;
  t_proc : gmap nat nat;
  nextProc : ProcPtr;
  nextTid : Tid;
  shistory : list SEvent
}.

Definition set_running (b : bool) (s : Scheduler) : Scheduler :=
  mkScheduler b (quit_ s) (threadNum_ s) (mainProc_ s) (workProcVec_ s)
    (workThreadVec_ s) (thread_ s) (index s) (procs s) (t_proc s)
    (nextProc s) (nextTid s) (shistory s).

Definition set_quit (b : bool) (s : Scheduler) : Scheduler :=
  mkScheduler (running_ s) b (threadNum_ s) (mainProc_ s) (workProcVec_ s)
    (workThreadVec_ s) (thread_ s) (index s) (procs s) (t_proc s)
    (nextProc s) (nextTid s) (shistory s).

Definition set_threadNum (n : Z) (s : Scheduler) : Scheduler :=
  mkScheduler (running_ s) (quit_ s) n (mainProc_ s) (workProcVec_ s)
    (workThreadVec_ s) (thread_ s) (index s) (procs s) (t_proc s)
    (nextProc s) (nextTid s) (shistory s).

Definition set_mainProc (m : option ProcPtr) (s : Scheduler) : Scheduler :=
  mkScheduler (running_ s) (quit_ s) (threadNum_ s) m (workProcVec_ s)
    (workThreadVec_ s) (thread_ s) (index s) (procs s) (t_proc s)
    (nextProc s) (nextTid s) (shistory s).

Definition set_workProcVec (v : list ProcPtr) (s : Scheduler) : Scheduler :=
  mkScheduler (running_ s) (quit_ s) (threadNum_ s) (mainProc_ s) v
    (workThreadVec_ s) (thread_ s) (index s) (procs s) (t_proc s)
    (nextProc s) (nextTid s) (shistory s).

Definition set_workThreadVec (v : list Tid) (s : Scheduler) : Scheduler :=
  mkScheduler (running_ s) (quit_ s) (threadNum_ s) (mainProc_ s)
    (workProcVec_ s) v (thread_ s) (index s) (procs s) (t_proc s)
    (nextProc s) (nextTid s) (shistory s).

Definition set_thread (t : option Tid) (s : Scheduler) : Scheduler :=
  mkScheduler (running_ s) (quit_ s) (threadNum_ s) (mainProc_ s)
    (workProcVec_ s) (workThreadVec_ s) t (index s) (procs s) (t_proc s)
    (nextProc s) (nextTid s) (shistory s).

Definition set_index (i : nat) (s : Scheduler) : Scheduler :=
  mkScheduler (running_ s) (quit_ s) (threadNum_ s) (mainProc_ s)
    (workProcVec_ s) (workThreadVec_ s) (thread_ s) i (procs s) (t_proc s)
    (nextProc s) (nextTid s) (shistory s).

Definition set_procs (h : gmap nat Processor.Processor) (s : Scheduler)
    : Scheduler :=
  mkScheduler (running_ s) (quit_ s) (threadNum_ s) (mainProc_ s)
    (workProcVec_ s) (workThreadVec_ s) (thread_ s) (index s) h (t_proc s)
    (nextProc s) (nextTid s) (shistory s).

Definition set_t_proc (h : gmap nat nat) (s : Scheduler) : Scheduler :=
  mkScheduler (running_ s) (quit_ s) (threadNum_ s) (mainProc_ s)
    (workProcVec_ s) (workThreadVec_ s) (thread_ s) (index s) (procs s) h
    (nextProc s) (nextTid s) (shistory s).

Definition set_nextProc (n : ProcPtr) (s : Scheduler) : Scheduler :=
  mkScheduler (running_ s) (quit_ s) (threadNum_ s) (mainProc_ s)
    (workProcVec_ s) (workThreadVec_ s) (thread_ s) (index s) (procs s)
    (t_proc s) n (nextTid s) (shistory s).

Definition set_nextTid (n : Tid) (s : Scheduler) : Scheduler :=
  mkScheduler (running_ s) (quit_ s) (threadNum_ s) (mainProc_ s)
    (workProcVec_ s) (workThreadVec_ s) (thread_ s) (index s) (procs s)
    (t_proc s) (nextProc s) n (shistory s).

Definition emit (ev : SEvent) (s : Scheduler) : Scheduler :=
  mkScheduler (running_ s) (quit_ s) (threadNum_ s) (mainProc_ s)
    (workProcVec_ s) (workThreadVec_ s) (thread_ s) (index s) (procs s)
    (t_proc s) (nextProc s) (nextTid s) (shistory s ++ [ev]).

(** A member call [proc->f(...)] through a [Processor*]. *)
Definition onProc (w : ProcPtr) (f : Processor.Processor -> Processor.Processor)
    (s : Scheduler) : Result Scheduler :=
  match procs s !! w with
  | None => Fatal "call through a dangling Processor pointer"
  | Some p => Ok (set_procs (<[w := f p]> (procs s)) s)
  end.

(** [Scheduler::Scheduler], run on thread [caller] in a process whose
    thread-locals are [tp].  The initial value of [threadNum_] is set in
    [Scheduler.h], which is not among the sources; it is the argument. *)
Definition new (caller : Tid) (tp : gmap nat nat) (threadNum : Z)
    : Result Scheduler :=
  if tp !! caller is Some _
  then Fatal "assert(Processor::GetProcesserOfThisThread() == nullptr)"
  else Ok (mkScheduler false false threadNum None [] [] None 0 ∅ tp 0
             (S caller) []).

(** [Scheduler::setThreadNum]. *)
Definition setThreadNum (threadNum : Z) (s : Scheduler) : Scheduler :=
  set_threadNum threadNum s.

(** [new Processor(this)] on thread [tid]: the object is stored at a fresh
    address and [tid]'s [t_proc] is set by the constructor. *)
Definition makeProcessor (tid : Tid) (s : Scheduler)
    : Result (ProcPtr * Scheduler) :=
  let this := nextProc s in
  r ← Processor.new tid (t_proc s !! tid) this;
  let s := set_nextProc (S this) (set_procs (<[this := r.1]> (procs s)) s) in
  let s := if r.2 is Some q then set_t_proc (<[tid := q]> (t_proc s)) s
           else s in
  Ok (this, s).

(** Modelled from the spec: [ProcessThread] and its [startProcess] (not
    among the sources): start "spawns n-1 worker threads each running its
    own Processor".  The new thread gets a fresh id and constructs its
    Processor. *)
Definition startProcess (s : Scheduler) : Result (Tid * ProcPtr * Scheduler) :=
  let tid := nextTid s in
  r ← makeProcessor tid (set_nextTid (S tid) s);
  Ok (tid, r.1, r.2).

(** The [for] loop of [start], [n] turns. *)
Fixpoint spawnWorkers (n : nat) (s : Scheduler) : Result Scheduler :=
  match n with
  | O => Ok s
  | S n' =>
      r ← startProcess s;
      let s := r.2 in
      let s := set_workThreadVec (workThreadVec_ s ++ [r.1.1]) s in
      let s := set_workProcVec (workProcVec_ s ++ [r.1.2]) s in
      spawnWorkers n' s
  end.

(** [Scheduler::start], called on thread [caller], up to the point where
    it enters [mainProc->run()], which is [Processor.run]. *)
Definition start (caller : Tid) (s : Scheduler) : Result Scheduler :=
  if running_ s then Ok s
  else
    r ← makeProcessor caller s;
    let s := set_mainProc (Some r.1) r.2 in
    s ← spawnWorkers (Z.to_nat (wrap (threadNum_ s - 1))) s;
    Ok (set_running true s).

(** [Scheduler::startAsync]: [start] runs on a new thread, which becomes
    [thread_]. *)
Definition startAsync (s : Scheduler) : Result Scheduler :=
  if running_ s then Ok s
  else
    let tid := nextTid s in
    start tid (set_thread (Some tid) (set_nextTid (S tid) s)).


(** [Scheduler::joinThread], run by thread [who]. *)
Definition joinThread (who : Tid) (s : Scheduler) : Scheduler :=
  let s := if thread_ s is Some t
           then emit (SevJoin who t) (set_thread None s) else s in
  let s := foldl (fun s t => emit (SevJoin who t) s) s (workThreadVec_ s) in
  emit (SevQuit who) (set_quit true s).

(** [proc->stop()] on one Processor. *)
Definition procStop (w : ProcPtr) (s : Scheduler) : Result Scheduler :=
  s ← onProc w Processor.stop s;
  Ok (emit (SevStop w) s).

(** The [for] loop of [stop]. *)
Fixpoint stopProcs (ws : list ProcPtr) (s : Scheduler) : Result Scheduler :=
  match ws with
  | [] => Ok s
  | w :: rest => s ← procStop w s; stopProcs rest s
  end.

(** [Scheduler::stop], called on thread [caller] whose [isHookEnable()]
    is [hook]; [helper] is the id the detached thread gets.  In the
    detached case the helper's [joinThread] runs after [stop] returns. *)
Definition stop (caller : Tid) (hook : bool) (helper : Tid) (s : Scheduler)
    : Result Scheduler :=
  if negb (running_ s) then Ok s
  else
    let s := set_running false s in
    match mainProc_ s with
    | None => Fatal "mainProc_ is null"
    | Some m =>
        s ← procStop m s;
        let s := set_mainProc None s in
        s ← stopProcs (workProcVec_ s) s;
        if hook then Ok (emit (SevSpawnDetached caller helper) s)
        else Ok (joinThread caller s)
    end.

(** [Scheduler::pickOneProcesser]; the [assert] aborts when it fails. *)
Definition pickOneProcesser (s : Scheduler)
    : Result (option ProcPtr * Scheduler) :=
  let proc := mainProc_ s in
  _ ← (if bool_decide (workProcVec_ s = []) && bool_decide (mainProc_ s = None)
       then CRITICAL "start scheduler first" else Ok tt);
  if negb (bool_decide (workProcVec_ s = [])) then
    match workProcVec_ s !! index s with
    | None => Fatal "assert(index < workProcVec_.size())"
    | Some w =>
        Ok (Some w, set_index (S (index s) mod length (workProcVec_ s)) s)
    end
  else Ok (proc, s).

(** [Scheduler::addTask]. *)
Definition addTask (task : Callback) (name : string) (s : Scheduler)
    : Result Scheduler :=
  r ← pickOneProcesser s;
  match r.1 with
  | None => Fatal "assert(proc != nullptr)"
  | Some w => onProc w (Processor.addPendingTask task name) r.2
  end.

(** [proc->getTimerQueue()->addTimer(...)] on the picked Processor. *)
Definition addTimerOn (proc : option ProcPtr) (t : Timer) (s : Scheduler)
    : Result Scheduler :=
  match proc with
  | None => Fatal "call through a null Processor pointer"
  | Some w => onProc w (Processor.addTimer t) s
  end.

(** [Scheduler::runAt], both overloads: the payload is the coroutine or
    the callback with its name. *)
Definition runAt (when : Z) (payload : TimerPayload) (s : Scheduler)
    : Result Scheduler :=
  r ← pickOneProcesser s;
  addTimerOn r.1 (mkTimer payload when 0) r.2.

(** [Scheduler::runAfter]; [now] is [Timestamp::now()]. *)
Definition runAfter (now delay : Z) (payload : TimerPayload) (s : Scheduler)
    : Result Scheduler :=
  let when := (now + delay)%Z in
  runAt when payload s.

(** [Scheduler::runEvery]. *)
Definition runEvery (now interval : Z) (payload : TimerPayload)
    (s : Scheduler) : Result Scheduler :=
  r ← pickOneProcesser s;
  let when := (now + interval)%Z in
  addTimerOn r.1 (mkTimer payload when interval) r.2.

(** [Processor::GetProcesserOfThisThread], asked on thread [caller]. *)
Definition GetProcesserOfThisThread (caller : Tid) (s : Scheduler)
    : option ProcPtr :=
  t_proc s !! caller.



(** [Scheduler::~Scheduler]. *)
Definition destroy (caller : Tid) (hook : bool) (helper : Tid) (s : Scheduler)
    : Result Scheduler :=
  stop caller hook helper s.

End Scheduler.

(** ** TcpConnection

    [burger/net/TcpConnection.cc].  The objects around a connection
    ([EventLoop], [Channel], [Socket], [Buffer]) and the user's callbacks
    are not among the sources.  A member function therefore records the
    calls it makes on them, in program order, and takes what they answer
    as an argument.  Log output is left out. *)

Module TcpConnection.

Abbreviation Bytes := (list Byte.byte).

(** [TcpConnection::Status]; the four names are those of [statusToStr]. *)
Inductive Status := kDisconnected | kConnecting | kConnected | kDisconnecting.

#[global] Instance Status_eq_dec : EqDecision Status.
Proof. solve_decision. Defined.

(** The calls made on the collaborators.  [EffSocketWrite data n] is a
    [sockets::write] of [data] that returned [n]; [EffReadFd n] is
    [inputBuffer_.readFd] returning [n]; [EffOutputAppend] and
    [EffOutputRetrieve] are [append] and [retrieve] on [outputBuffer_];
    [EffArgRetrieveAll] and [EffArgRetrieveAllAsString] act on the buffer
    handed to [send(Buffer&)]; [EffConnectionCallback] carries the status
    the user's callback finds. *)
Inductive Effect :=
| EffSetReadCallback
| EffSetCloseCallback
| EffSetErrorCallback
| EffSetKeepAlive (on : bool)
| EffAssertInLoopThread
| EffRunInLoopSend (message : Bytes)
| EffRunInLoopShutdown
| EffQueueWriteComplete
| EffQueueHighWaterMark (n : Z)
| EffTie
| EffEnableReading
| EffEnableWriting
| EffDisableWriting
| EffDisableAll
| EffRemove
| EffConnectionCallback (seen : Status)
| EffMessageCallback
| EffCloseCallback
| EffReadFd (n : Z)
| EffSocketWrite (data : Bytes) (n : Z)
| EffOutputRetrieve (n : Z)
| EffOutputAppend (data : Bytes)
| EffArgRetrieveAll
| EffArgRetrieveAllAsString
| EffShutdownWrite
| EffGetSocketError.

(** The members the [.cc] file reads or writes: the status, the
    high-water mark, whether the two optional callbacks are set, and the
    calls made so far. *)
Record TcpConnection := mkTcpConnection {
  status_ : Status;
  highWaterMark_ : Z;
  writeCompleteCallback_ : bool;
  highWaterMarkCallback_ : bool;
  trace : list Effect
}.

Definition setStatus (s : Status) (c : TcpConnection) : TcpConnection :=
  mkTcpConnection s (highWaterMark_ c) (writeCompleteCallback_ c)
    (highWaterMarkCallback_ c) (trace c).

Definition emit (e : Effect) (c : TcpConnection) : TcpConnection :=
  mkTcpConnection (status_ c) (highWaterMark_ c) (writeCompleteCallback_ c)
    (highWaterMarkCallback_ c) (trace c ++ [e]).

(** What the collaborators answer during one call: [isInLoopThread()];
    [channel_->isWriting()] and the readable bytes of [outputBuffer_]
    ([peek] and [getReadableBytes]) on entry; the value of
    [sockets::write] or [readFd] and [errno] after it; in [handleWrite],
    [getReadableBytes()] after [retrieve] and [isWriting()] after
    [disableWriting]. *)
Record Answers := mkAnswers {
  isInLoopThread : bool;
  isWriting : bool;
  readable : Bytes;
  ioResult : Z;
  errno : Z;
  readableAfter : Z;
  isWritingAfter : bool
}.

Definition EWOULDBLOCK : Z := 11.
Definition EPIPE : Z := 32.
Definition ECONNRESET : Z := 104.

(** [TcpConnection::TcpConnection]; the initial high-water mark is set in
    [TcpConnection.h], which is not among the sources, and is the
    argument.  Callbacks are registered with the channel for read, close
    and error events. *)
Definition new (highWaterMark : Z) : TcpConnection :=
  let c := mkTcpConnection kConnecting highWaterMark false false [] in
  let c := emit EffSetReadCallback c in
  let c := emit EffSetCloseCallback c in
  let c := emit EffSetErrorCallback c in
  emit (EffSetKeepAlive true) c.

(** [TcpConnection::shutdownInLoop]; [writing] is [channel_->isWriting()]. *)
Definition shutdownInLoop (writing : bool) (c : TcpConnection)
    : TcpConnection :=
  let c := emit EffAssertInLoopThread c in
  if negb writing then emit EffShutdownWrite c else c.

(** The locals of [sendInLoop] after its first [if]. *)
Record Wrote := mkWrote {
  w_conn : TcpConnection;
  w_nwrote : Z;
  w_remaining : Z;
  w_faultError : bool
}.

(** The first [if] of [sendInLoop]: the direct write. *)
Definition firstWrite (data : Bytes) (a : Answers) (c : TcpConnection)
    : Wrote :=
  let len := Z.of_nat (length data) in
  if negb (isWriting a) && bool_decide (Z.of_nat (length (readable a)) = 0%Z)
  then
    let nwrote := ioResult a in
    let c := emit (EffSocketWrite data nwrote) c in
    if bool_decide (0 <= nwrote)%Z then
      let remaining := wrap (len - nwrote) in
      let c := if bool_decide (remaining = 0%Z) && writeCompleteCallback_ c
               then emit EffQueueWriteComplete c else c in
      mkWrote c nwrote remaining false
    else
      mkWrote c 0 len
        (if negb (bool_decide (errno a = EWOULDBLOCK))
         then bool_decide (errno a = EPIPE)
              || bool_decide (errno a = ECONNRESET)
         else false)
  else mkWrote c 0 len false.

(** [TcpConnection::sendInLoop(const void* data, size_t len)]; both
    callers pass the length of [data] for [len].  The [assert] aborts
    when it fails. *)
Definition sendInLoop (data : Bytes) (a : Answers) (c : TcpConnection)
    : Result TcpConnection :=
  let len := Z.of_nat (length data) in
  let c := emit EffAssertInLoopThread c in
  if bool_decide (status_ c = kDisconnected) then Ok c
  else
    let w := firstWrite data a c in
    let c := w_conn w in
    let remaining := w_remaining w in
    if negb (bool_decide (remaining <= len)%Z)
    then Fatal "assert(remaining <= len)"
    else if negb (w_faultError w) && bool_decide (0 < remaining)%Z then
      let oldLen := Z.of_nat (length (readable a)) in
      let c :=
        if bool_decide (highWaterMark_ c <= wrap (oldLen + remaining))%Z
           && bool_decide (oldLen < highWaterMark_ c)%Z
           && highWaterMarkCallback_ c
        then emit (EffQueueHighWaterMark (wrap (oldLen + remaining))) c
        else c in
      let c := emit (EffOutputAppend
                       (take (Z.to_nat remaining)
                          (drop (Z.to_nat (w_nwrote w)) data))) c in
      Ok (if negb (isWriting a) then emit EffEnableWriting c else c)
    else Ok c.

(** [TcpConnection::send(const std::string&)]. *)
Definition send (message : Bytes) (a : Answers) (c : TcpConnection)
    : Result TcpConnection :=
  if bool_decide (status_ c = kConnected) then
    if isInLoopThread a then sendInLoop message a c
    else Ok (emit (EffRunInLoopSend message) c)
  else Ok c.

(** [TcpConnection::send(Buffer&)]; [buf] holds the readable bytes of the
    argument. *)
Definition sendBuffer (buf : Bytes) (a : Answers) (c : TcpConnection)
    : Result TcpConnection :=
  if bool_decide (status_ c = kConnected) then
    if isInLoopThread a then
      c ← sendInLoop buf a c;
      Ok (emit EffArgRetrieveAll c)
    else
      let c := emit EffArgRetrieveAllAsString c in
      Ok (emit (EffRunInLoopSend buf) c)
  else Ok c.

(** [TcpConnection::shutdown]. *)
Definition shutdown (c : TcpConnection) : TcpConnection :=
  if bool_decide (status_ c = kConnected) then
    let c := setStatus kConnecting c in
    emit EffRunInLoopShutdown c
  else c.

(** [TcpConnection::connectEstablished]; the [assert] aborts when it
    fails. *)
Definition connectEstablished (c : TcpConnection) : Result TcpConnection :=
  let c := emit EffAssertInLoopThread c in
  if negb (bool_decide (status_ c = kConnecting))
  then Fatal "assert(status_ == Status::kConnecting)"
  else
    let c := setStatus kConnected c in
    let c := emit EffTie c in
    let c := emit EffEnableReading c in
    Ok (emit (EffConnectionCallback (status_ c)) c).

(** [TcpConnection::connectDestroyed]. *)
Definition connectDestroyed (c : TcpConnection) : TcpConnection :=
  let c := emit EffAssertInLoopThread c in
  let c :=
    if bool_decide (status_ c = kConnected) then
      let c := setStatus kDisconnected c in
      let c := emit EffDisableAll c in
      emit (EffConnectionCallback (status_ c)) c
    else c in
  emit EffRemove c.

(** [TcpConnection::statusToStr]. *)
Definition statusToStr (c : TcpConnection) : string :=
  match status_ c with
  | kDisconnected => "kDisconnected"
  | kConnecting => "kConnecting"
  | kConnected => "kConnected"
  | kDisconnecting => "kDisconnecting"
  end.

(** [TcpConnection::handleError]. *)
Definition handleError (c : TcpConnection) : TcpConnection :=
  emit EffGetSocketError c.

(** [TcpConnection::handleClose]; the [assert] aborts when it fails. *)
Definition handleClose (c : TcpConnection) : Result TcpConnection :=
  let c := emit EffAssertInLoopThread c in
  if negb (bool_decide (status_ c = kConnected)
           || bool_decide (status_ c = kDisconnecting))
  then Fatal "assert(status_ == kConnected || status_ == kDisconnecting)"
  else
    let c := setStatus kDisconnected c in
    let c := emit EffDisableAll c in
    let c := emit (EffConnectionCallback (status_ c)) c in
    Ok (emit EffCloseCallback c).

(** [TcpConnection::handleRead]. *)
Definition handleRead (a : Answers) (c : TcpConnection)
    : Result TcpConnection :=
  let c := emit EffAssertInLoopThread c in
  let n := ioResult a in
  let c := emit (EffReadFd n) c in
  if bool_decide (0 < n)%Z then Ok (emit EffMessageCallback c)
  else if bool_decide (n = 0%Z) then handleClose c
  else Ok (handleError c).

(** [TcpConnection::handleWrite]. *)
Definition handleWrite (a : Answers) (c : TcpConnection) : TcpConnection :=
  let c := emit EffAssertInLoopThread c in
  if isWriting a then
    let n := ioResult a in
    let c := emit (EffSocketWrite (readable a) n) c in
    if bool_decide (0 < n)%Z then
      let c := emit (EffOutputRetrieve n) c in
      if bool_decide (readableAfter a = 0%Z) then
        let c := emit EffDisableWriting c in
        let c := if writeCompleteCallback_ c
                 then emit EffQueueWriteComplete c else c in
        if bool_decide (status_ c = kDisconnecting)
        then shutdownInLoop (isWritingAfter a) c
        else c
      else c
    else c
  else c.

(** The member functions as calls, with the two closures that [send] and
    [shutdown] hand to [runInLoop]. *)
Inductive Call :=
| CallSend (message : Bytes)
| CallSendBuffer (buf : Bytes)
| CallShutdown
| CallConnectEstablished
| CallConnectDestroyed
| CallHandleRead
| CallHandleWrite
| CallHandleClose
| CallHandleError
| CallSendInLoop (message : Bytes)
| CallShutdownInLoop.

Definition call (k : Call) (a : Answers) (c : TcpConnection)
    : Result TcpConnection :=
  match k with
  | CallSend message => send message a c
  | CallSendBuffer buf => sendBuffer buf a c
  | CallShutdown => Ok (shutdown c)
  | CallConnectEstablished => connectEstablished c
  | CallConnectDestroyed => Ok (connectDestroyed c)
  | CallHandleRead => handleRead a c
  | CallHandleWrite => Ok (handleWrite a c)
  | CallHandleClose => handleClose c
  | CallHandleError => Ok (handleError c)
  | CallSendInLoop message => sendInLoop message a c
  | CallShutdownInLoop => Ok (shutdownInLoop (isWriting a) c)
  end.

(** A sequence of calls, each with the answers it gets. *)
Fixpoint calls (ks : list (Call * Answers)) (c : TcpConnection)
    : Result TcpConnection :=
  match ks with
  | [] => Ok c
  | k :: rest => c ← call k.1 k.2 c; calls rest c
  end.

End TcpConnection.

(** * Notions the properties are stated with *)

Section ProcessorNotions.
Import Processor.

(** ** States of coroutines *)




(** Addresses in use lie below the next one [make_shared] hands out. *)
Definition heapOk (p : Processor) : Prop :=
  forall c, is_Some (coros p !! c) -> c < nextCo p.




(** ** The life of a Processor *)

(** Every state a Processor is in between two steps of its member
    functions, from construction on: calls made on it, the parts of a pass
    of [run]'s loop taken one by one, and whole runs.  The swap-ins and
    the calls are arbitrary, so the real executions are among these. *)
Inductive lifetime : Processor -> Prop :=
| life_new caller this p t :
    new caller None this = Ok (p, t) -> lifetime p
| life_action a p p' :
    lifetime p -> do_action a p = Ok p' -> lifetime p'
| life_drain p p' :
    lifetime p -> addPendingTasksIntoQueue p = Ok p' -> lifetime p'
| life_runEnter p :
    lifetime p -> lifetime (runEnter p).2
| life_pickNext e p :
    lifetime p -> lifetime (pickNext e p).2
| life_swapIn c r p p' :
    lifetime p -> swapIn c r p = Ok p' -> lifetime p'
| life_afterSwap cur p :
    lifetime p -> lifetime (afterSwap cur p)
| life_run caller script p p' :
    lifetime p -> run caller script p = Some (Ok p') -> lifetime p'.

(** The state after the first passes of the loop of [run], one per entry
    of the script, for as long as the loop goes on. *)
Fixpoint passes (script : list SwapResult) (epollCo : CoPtr) (p : Processor)
    : Result Processor :=
  match script with
  | [] => Ok p
  | r :: script' =>
      if loopCond p then p ← iteration epollCo r p; passes script' epollCo p
      else Ok p
  end.

(** A swap-in during which the coroutine calls nothing. *)
Definition quiet (s : State) : SwapResult := mkSwapResult [] s.

(** ** Reading a history *)

(** The swap-ins recorded in a history, in order. *)
Definition swapInOf (ev : Event) : option CoPtr :=
  match ev with EvSwapIn c => Some c | _ => None end.

Definition swapIns (h : list Event) : list CoPtr := omap swapInOf h.


(** Counts of enqueues and of pushes on the idle list in a history. *)
Definition isEnqueue (ev : Event) : bool :=
  match ev with EvEnqueue _ => true | _ => false end.

Definition isIdlePush (ev : Event) : bool :=
  match ev with EvIdlePush _ => true | _ => false end.

Definition enqueues (h : list Event) : Z :=
  Z.of_nat (length (filter (fun ev => isEnqueue ev = true) h)).

Definition idlePushes (h : list Event) : Z :=
  Z.of_nat (length (filter (fun ev => isIdlePush ev = true) h)).

(** The load counter is the number of enqueues minus the number of TERM
    returns seen by [run], in [size_t] arithmetic. *)
Definition loadOk (p : Processor) : Prop :=
  load_ p = wrap (enqueues (history p) - idlePushes (history p)).

(** The coroutines of the runnable queue, and the running one if there is
    one, that are not in state TERM. *)
Definition liveCount (running : option CoPtr) (p : Processor) : Z :=
  Z.of_nat (length (filter (fun c => getState c p <> Some TERM)
                      (runnableCoQue_ p ++ option_list running))).

(** Lock discipline of [pendingTasks_]: every access recorded in the
    history happens between a lock and the matching unlock of [mutex_]. *)
Fixpoint guarded (held : bool) (h : list Event) : bool :=
  match h with
  | [] => true
  | EvLock :: rest => guarded true rest
  | EvUnlock :: rest => guarded false rest
  | EvPendingAppend _ _ :: rest => held && guarded held rest
  | EvPendingSwap :: rest => held && guarded held rest
  | _ :: rest => guarded held rest
  end.

(** Events that neither touch [pendingTasks_] nor the mutex. *)
Definition neutral (ev : Event) : bool :=
  match ev with
  | EvLock | EvUnlock | EvPendingAppend _ _ | EvPendingSwap => false
  | _ => true
  end.

(** A step that adds only neutral events to the history. *)
Definition neutralStep (p p' : Processor) : Prop :=
  exists evs, history p' = history p ++ evs /\
    Forall (fun ev => neutral ev = true) evs.

(** ** The idle list *)

(** The idle list holds distinct coroutines, all in state TERM. *)
Definition idleOk (p : Processor) : Prop :=
  NoDup (idleCoQue_ p) /\
  Forall (fun c => getState c p = Some TERM) (idleCoQue_ p).

Definition idleInv (p : Processor) : Prop := heapOk p /\ idleOk p.

(** A call that keeps coroutines of the idle list out of the runnable
    queue: [addTask(Coroutine::ptr)] is not given one of them. *)
Definition polite (a : Action) (p : Processor) : bool :=
  match a with
  | ActAddTaskCo c => negb (bool_decide (c ∈ idleCoQue_ p))
  | _ => true
  end.

(** The calls of one swap-in are polite, each in the state it is made
    in. *)
Fixpoint actsPolite (acts : list Action) (p : Processor) : bool :=
  match acts with
  | [] => true
  | a :: rest =>
      polite a p &&
      match do_action a p with
      | Ok p' => actsPolite rest p'
      | Fatal _ => true
      end
  end.

Definition swapPolite (c : CoPtr) (r : SwapResult) (p : Processor) : bool :=
  actsPolite (sr_actions r) (Processor.emit (EvSwapIn c) (setState c EXEC p)).

(** All calls made during the loop of [run] are polite. *)
Fixpoint scriptPolite (script : list SwapResult) (epollCo : CoPtr)
    (p : Processor) : bool :=
  match script with
  | [] => true
  | r :: script' =>
      if loopCond p then
        swapPolite (pickNext epollCo p).1 r (pickNext epollCo p).2 &&
        match iteration epollCo r p with
        | Ok p' => scriptPolite script' epollCo p'
        | Fatal _ => true
        end
      else swapPolite epollCo r p
  end.

(** The diagnostic of a [reset] in a wrong state, and the two ways a call
    of [reset] can fail. *)
Definition resetFailure : string := "reset: state is neither TERM nor INIT".

Definition resetFailures : list string :=
  [resetFailure; "reset: null coroutine"].

(** ** Concrete Processors and runs *)

(** A Processor built on thread 7, its state when [run] reaches the loop
    (the epoll coroutine is at address 2), and that state after a call of
    [stop]. *)
Definition p_new : Processor :=
  match new 7 None 0 with Ok r => r.1 | Fatal _ => blank 7 end.

Definition p_loop : Processor := (runEnter p_new).2.

Definition p_stopping : Processor := stop p_loop.

(** Both helpers suspend; the epoll coroutine resumes "Wake" twice. *)
Definition script_wakeups : list SwapResult :=
  [ quiet HOLD;
    quiet HOLD;
    mkSwapResult [ActSetEpolling false; ActAddTaskCo 0] HOLD;
    quiet HOLD;
    mkSwapResult [ActSetEpolling false; ActAddTaskCo 0] HOLD ].

(** The Processor after its user has made a coroutine "tick", at address
    2, to be run by a periodic timer; [run] then puts the epoll coroutine
    at address 3. *)
Definition p_tick : Processor := (makeCo (CbUser 0) "tick" p_new).2.

(** "Wake" suspends; "timerQue" fires the timer and enqueues "tick";
    "tick" runs to its end; the epoll coroutine resumes "timerQue"; the
    timer fires again, "tick" is enqueued again, and a task "job" is
    added. *)
Definition script_resubmit : list SwapResult :=
  [ quiet HOLD;
    mkSwapResult [ActAddTaskCo 2] HOLD;
    quiet TERM;
    mkSwapResult [ActSetEpolling false; ActAddTaskCo 1] HOLD;
    mkSwapResult [ActAddTaskCo 2; ActAddTask (CbUser 1) "job"] HOLD ].

(** The same run with a one-shot timer: "tick" is not enqueued again, the
    task "job" reuses its shell, and the Processor is stopped. *)
Definition script_reuse : list SwapResult :=
  [ quiet HOLD;
    mkSwapResult [ActAddTaskCo 2] HOLD;
    quiet TERM;
    mkSwapResult [ActSetEpolling false; ActAddTaskCo 1] HOLD;
    mkSwapResult [ActAddTask (CbUser 1) "job"; ActStop] TERM;
    quiet TERM;
    quiet HOLD ].

(** ** Draining *)

(** The coroutines that [n] calls of [resetAndGetCo] hand out: the shells
    of the idle list from its head, then new addresses. *)
Definition shells (n : nat) (p : Processor) : list CoPtr :=
  take n (idleCoQue_ p) ++ seq (nextCo p) (n - length (idleCoQue_ p)).

(** The tasks that the calls of one swap-in append to the pending buffer,
    and the number of coroutines they enqueue. *)
Definition appendedBy (a : Action) : option (Callback * string) :=
  match a with ActAddPendingTask cb name => Some (cb, name) | _ => None end.

Definition appended (acts : list Action) : list (Callback * string) :=
  omap appendedBy acts.

Definition isSubmit (a : Action) : bool :=
  match a with ActAddTaskCo _ | ActAddTask _ _ => true | _ => false end.

Definition submits (acts : list Action) : nat :=
  length (filter (fun a => isSubmit a = true) acts).

(** Two queued coroutines run after [stop]; during the last swap-in of the
    epoll coroutine a task arrives from another thread and a coroutine is
    resumed. *)
Definition script_late : list SwapResult :=
  [ quiet TERM;
    quiet HOLD;
    mkSwapResult [ActAddPendingTask (CbUser 9) "late";
                  ActAddTask (CbUser 8) "resumed"] HOLD ].

(** The Processor of [p_tick] in the middle of its run, after "tick" has
    run to its end, with three tasks submitted from other threads. *)
Definition p_mid : Processor :=
  match passes (take 3 script_reuse) (runEnter p_tick).1 (runEnter p_tick).2
  with Ok p => p | Fatal _ => blank 7 end.

Definition p_backlog : Processor :=
  addPendingTask (CbUser 5) "z"
    (addPendingTask (CbUser 4) "y" (addPendingTask (CbUser 3) "x" p_mid)).

(** ** Wake-ups *)





End ProcessorNotions.

Section SchedulerNotions.
Import Scheduler.

(** ** Well-formed Schedulers *)

(** A Scheduler whose pointers make sense: the workers are distinct live
    Processors, the round-robin index is in range (the [assert] of
    [pickOneProcesser]), the main Processor is live and is not a worker,
    and a running Scheduler has a main Processor. *)
Record wf (s : Scheduler) : Prop := mkWf {
  wf_nodup : NoDup (workProcVec_ s);
  wf_live : forall w, w ∈ workProcVec_ s -> is_Some (procs s !! w);
  wf_bound : forall w, is_Some (procs s !! w) -> w < nextProc s;
  wf_index : index s < max 1 (length (workProcVec_ s));
  wf_main : forall m, mainProc_ s = Some m ->
              (m ∉ workProcVec_ s) /\ is_Some (procs s !! m);
  wf_running : running_ s = true -> is_Some (mainProc_ s)
}.

(** The part of well-formedness that does not speak of [mainProc_]. *)
Record wfWorkers (s : Scheduler) : Prop := mkWfWorkers {
  ww_nodup : NoDup (workProcVec_ s);
  ww_live : forall w, w ∈ workProcVec_ s -> is_Some (procs s !! w);
  ww_bound : forall w, is_Some (procs s !! w) -> w < nextProc s;
  ww_index : index s < max 1 (length (workProcVec_ s))
}.

(** The part of a state that [stop] leaves alone. *)
Definition sameShape (s s' : Scheduler) : Prop :=
  workProcVec_ s' = workProcVec_ s /\ workThreadVec_ s' = workThreadVec_ s /\
  thread_ s' = thread_ s /\ quit_ s' = quit_ s /\ index s' = index s /\
  nextProc s' = nextProc s /\ mainProc_ s' = mainProc_ s /\
  running_ s' = running_ s.

(** ** Round-robin *)

(** Submitting a list of tasks, one [addTask] each, in order. *)
Fixpoint submitAll (tasks : list (Callback * string)) (s : Scheduler)
    : Result Scheduler :=
  match tasks with
  | [] => Ok s
  | t :: rest => s ← addTask t.1 t.2 s; submitAll rest s
  end.

(** The tasks of [tasks] that round-robin over [k] workers, starting at
    index [i], hands to the worker at position [j]. *)
Fixpoint share (j i k : nat) (tasks : list (Callback * string))
    : list (Callback * string) :=
  match tasks with
  | [] => []
  | t :: rest =>
      (if bool_decide (i = j) then [t] else []) ++ share j (S i mod k) k rest
  end.


(** The pending-tasks buffer of the Processor behind a pointer. *)
Definition pendingOf (w : ProcPtr) (s : Scheduler) : list (Callback * string) :=
  from_option Processor.pendingTasks_ [] (procs s !! w).

(** ** Stopping *)

(** The threads [joinThread] joins. *)
Definition procThreads (s : Scheduler) : list Tid :=
  option_list (thread_ s) ++ workThreadVec_ s.

(** The Processor behind [w] has its stop flag set. *)
Definition stopped (w : ProcPtr) (s : Scheduler) : Prop :=
  exists p, procs s !! w = Some p /\ Processor.stop_ p = true.

(** Schedulers with no Processor to give work to: before [start], and
    after [stop] when there are no workers. *)
Inductive unstarted : Scheduler -> Prop :=
| un_new caller tp n s :
    new caller tp n = Ok s -> unstarted s
| un_setThreadNum n s :
    unstarted s -> unstarted (setThreadNum n s)
| un_stop caller hook helper s s' :
    running_ s = true -> workProcVec_ s = [] ->
    stop caller hook helper s = Ok s' -> unstarted s'
| un_joinThread who s :
    unstarted s -> unstarted (joinThread who s).

(** ** Concrete Schedulers *)

(** A Scheduler made on thread 0 for four threads, not started; the same
    after [start] on thread 0: the main Processor is at address 0, the
    workers at 1, 2 and 3 on the threads 1, 2 and 3. *)
Definition s_blank : Scheduler :=
  mkScheduler false false 0 None [] [] None 0 ∅ ∅ 0 0 [].

Definition s_fresh : Scheduler :=
  match new 0 ∅ 4 with Ok s => s | Fatal _ => s_blank end.

Definition s_started : Scheduler :=
  match start 0 s_fresh with Ok s => s | Fatal _ => s_fresh end.

Definition six_tasks : list (Callback * string) :=
  [(CbUser 0, "a"); (CbUser 1, "b"); (CbUser 2, "c");
   (CbUser 3, "d"); (CbUser 4, "e"); (CbUser 5, "f")].

(** ** Threads *)

(** The thread ids from [nextTid] on belong to no thread yet, so none of
    them has a Processor. *)
Definition tidsFresh (s : Scheduler) : Prop :=
  forall t, nextTid s <= t -> t_proc s !! t = None.

(** The number of worker threads [start] makes: [threadNum_ - 1] in
    [size_t] arithmetic. *)
Definition workerCount (s : Scheduler) : nat :=
  Z.to_nat (wrap (threadNum_ s - 1)).

(** The timer queue of the Processor behind a pointer. *)
Definition timersOf (w : ProcPtr) (s : Scheduler) : list Timer :=
  from_option Processor.timerQueue_ [] (procs s !! w).

(** ** Frames *)

(** [p'] is [p] with the stop flag set and, possibly, writes on the
    wakeup fd. *)
Definition stoppedFrom (p p' : Processor.Processor) : Prop :=
  Processor.stop_ p' = true /\
  Processor.pendingTasks_ p' = Processor.pendingTasks_ p /\
  Processor.timerQueue_ p' = Processor.timerQueue_ p /\
  Processor.threadId_ p' = Processor.threadId_ p.

(** [s'] is [s] up to the history, with some Processors stopped. *)
Definition stopFrame (s s' : Scheduler) : Prop :=
  running_ s' = running_ s /\ quit_ s' = quit_ s /\
  threadNum_ s' = threadNum_ s /\ mainProc_ s' = mainProc_ s /\
  workProcVec_ s' = workProcVec_ s /\ workThreadVec_ s' = workThreadVec_ s /\
  thread_ s' = thread_ s /\ index s' = index s /\ t_proc s' = t_proc s /\
  nextProc s' = nextProc s /\ nextTid s' = nextTid s /\
  forall w, procs s' !! w = procs s !! w \/
    exists p p', procs s !! w = Some p /\ procs s' !! w = Some p' /\
      stoppedFrom p p'.

(** ** The life of a Scheduler *)


(** ** More concrete Schedulers *)

(** The started Scheduler after [stop] from thread 8, which joins the
    workers itself, and after the return of [start] on thread 0; the same
    started once more on thread 0. *)
Definition s_stopped : Scheduler :=
  match stop 8 false 9 s_started with Ok s => s | Fatal _ => s_started end.


(** ** From submission to coroutine *)

(** Two Processors with the same coroutines, idle list and runnable
    queue: what [addPendingTask] leaves alone. *)
Definition samePool (p p' : Processor.Processor) : Prop :=
  Processor.coros p' = Processor.coros p /\
  Processor.nextCo p' = Processor.nextCo p /\
  Processor.idleCoQue_ p' = Processor.idleCoQue_ p /\
  Processor.runnableCoQue_ p' = Processor.runnableCoQue_ p.

(** The first worker of [s_started]. *)
Definition p_worker : Processor.Processor :=
  default p_new (procs s_started !! 1).

End SchedulerNotions.

Section TcpConnectionNotions.
Import TcpConnection.

(** ** Reading a trace *)

(** The number of times the user's connection callback has been told that
    the connection is down, and the number of [shutdownWrite] calls. *)
Definition isDownCallback (e : Effect) : bool :=
  match e with EffConnectionCallback kDisconnected => true | _ => false end.

Definition downCalls (tr : list Effect) : nat :=
  length (filter (fun e => isDownCallback e = true) tr).

Definition isShutdownWrite (e : Effect) : bool :=
  match e with EffShutdownWrite => true | _ => false end.

Definition shutdownWrites (tr : list Effect) : nat :=
  length (filter (fun e => isShutdownWrite e = true) tr).

(** The runs of the closure that [shutdown] queues, in a list of calls. *)
Definition isShutdownInLoop (k : Call * Answers) : bool :=
  match k.1 with CallShutdownInLoop => true | _ => false end.

Definition shutdownInLoops (ks : list (Call * Answers)) : nat :=
  length (filter (fun k => isShutdownInLoop k = true) ks).

(** What a trace does to a first-in first-out output buffer, to the write
    interest of the channel, and the bytes the socket has taken. *)
Definition outputAfter (buf : Bytes) (e : Effect) : Bytes :=
  match e with
  | EffOutputAppend d => buf ++ d
  | EffOutputRetrieve n => drop (Z.to_nat n) buf
  | _ => buf
  end.

Definition outputOf (tr : list Effect) : Bytes := foldl outputAfter [] tr.

Definition writingAfter (w : bool) (e : Effect) : bool :=
  match e with
  | EffEnableWriting => true
  | EffDisableWriting | EffDisableAll => false
  | _ => w
  end.

Definition writingOf (tr : list Effect) : bool := foldl writingAfter false tr.

Definition wireAfter (wire : Bytes) (e : Effect) : Bytes :=
  match e with
  | EffSocketWrite d n => wire ++ take (Z.to_nat n) d
  | _ => wire
  end.

Definition wireOf (tr : list Effect) : Bytes := foldl wireAfter [] tr.

(** ** Sending *)

(** The direct write of [sendInLoop] is tried, and fails for good. *)
Definition direct (a : Answers) : bool :=
  negb (isWriting a) && bool_decide (Z.of_nat (length (readable a)) = 0%Z).

Definition faulty (a : Answers) : bool :=
  direct a && bool_decide (ioResult a < 0)%Z &&
  (bool_decide (errno a = EPIPE) || bool_decide (errno a = ECONNRESET)).

(** What [sendInLoop] is left with after the direct write: the bytes still
    to be sent and the bytes the socket took. *)
Definition wroteDirectly (a : Answers) : bool :=
  direct a && bool_decide (0 <= ioResult a)%Z.

Definition remainingOf (data : Bytes) (a : Answers) : Z :=
  if wroteDirectly a then wrap (Z.of_nat (length data) - ioResult a)
  else Z.of_nat (length data).

Definition nwroteOf (a : Answers) : Z :=
  if wroteDirectly a then ioResult a else 0%Z.

(** The test for the high-water-mark callback. *)
Definition crossesMark (data : Bytes) (a : Answers) (c : TcpConnection)
    : bool :=
  bool_decide (highWaterMark_ c <=
               wrap (Z.of_nat (length (readable a)) + remainingOf data a))%Z
  && bool_decide (Z.of_nat (length (readable a)) < highWaterMark_ c)%Z
  && highWaterMarkCallback_ c.

(** The calls [sendInLoop] makes on a connection that is not
    disconnected. *)
Definition sendEffects (data : Bytes) (a : Answers) (c : TcpConnection)
    : list Effect :=
  [EffAssertInLoopThread] ++
  (if direct a then [EffSocketWrite data (ioResult a)] else []) ++
  (if wroteDirectly a && bool_decide (remainingOf data a = 0%Z)
      && writeCompleteCallback_ c
   then [EffQueueWriteComplete] else []) ++
  (if negb (faulty a) && bool_decide (0 < remainingOf data a)%Z then
     (if crossesMark data a c
      then [EffQueueHighWaterMark
              (wrap (Z.of_nat (length (readable a)) + remainingOf data a))]
      else []) ++
     [EffOutputAppend
        (take (Z.to_nat (remainingOf data a))
           (drop (Z.to_nat (nwroteOf a)) data))] ++
     (if negb (isWriting a) then [EffEnableWriting] else [])
   else []).

(** A connection with more calls recorded. *)
Definition record (effs : list Effect) (c : TcpConnection) : TcpConnection :=
  mkTcpConnection (status_ c) (highWaterMark_ c) (writeCompleteCallback_ c)
    (highWaterMarkCallback_ c) (trace c ++ effs).

(** The two calls of the output path, the bytes a call is to send and the
    bytes it hands to [sockets::write]. *)
Definition outputCall (k : Call) : bool :=
  match k with CallSendInLoop _ | CallHandleWrite => true | _ => false end.

Definition sentBy (k : Call) : Bytes :=
  match k with CallSendInLoop message => message | _ => [] end.

Definition sentAll (ks : list (Call * Answers)) : Bytes :=
  concat (map (fun k => sentBy k.1) ks).

Definition written (k : Call) (a : Answers) : Bytes :=
  match k with CallSendInLoop message => message | _ => readable a end.

(** The answers that a first-in first-out output buffer, a channel that
    remembers its interest, and a socket that takes a prefix of what it is
    given and reports no broken connection make to a call. *)
Definition honest (k : Call) (a : Answers) (c : TcpConnection) : Prop :=
  readable a = outputOf (trace c) /\
  isWriting a = writingOf (trace c) /\
  (ioResult a <= Z.of_nat (length (written k a)))%Z /\
  (Z.of_nat (length (written k a)) < size_max)%Z /\
  faulty a = false /\
  readableAfter a =
    Z.of_nat (length (drop (Z.to_nat (ioResult a)) (outputOf (trace c)))).

(** A list of calls of the output path, each with honest answers. *)
Fixpoint honestRun (ks : list (Call * Answers)) (c : TcpConnection) : Prop :=
  match ks with
  | [] => True
  | k :: rest =>
      outputCall k.1 = true /\ honest k.1 k.2 c /\
      match call k.1 k.2 c with
      | Ok c' => honestRun rest c'
      | Fatal _ => True
      end
  end.

(** ** Concrete connections *)

Definition hello : Bytes :=
  [Byte.x68; Byte.x65; Byte.x6c; Byte.x6c; Byte.x6f].

(** No answer matters, the channel is not writing. *)
Definition a_idle : Answers := mkAnswers true false [] 0 0 0 false.

(** A connection that is up, with high-water mark 8. *)
Definition c_up : TcpConnection :=
  match connectEstablished (new 8) with Ok c => c | Fatal _ => new 8 end.

(** A connection that is up, with high-water mark 8 and the
    high-water-mark callback set. *)
Definition c_marked : TcpConnection :=
  mkTcpConnection kConnected 8 false true (trace c_up).

(** The channel is writing and "abc" is in the output buffer; the socket
    is not tried. *)
Definition a_busy : Answers :=
  mkAnswers true true [Byte.x61; Byte.x62; Byte.x63] 0 0 3 false.

(** [send] in the loop thread on an idle connection whose socket takes
    two bytes; [shutdown]; its closure, run while the channel is writing;
    then [handleWrite] drains the output buffer. *)
Definition k_half_close : list (Call * Answers) :=
  [ (CallSend hello, mkAnswers true false [] 2 0 0 false);
    (CallShutdown, a_idle);
    (CallShutdownInLoop,
       mkAnswers true true [Byte.x6c; Byte.x6c; Byte.x6f] 0 0 0 false);
    (CallHandleWrite,
       mkAnswers true true [Byte.x6c; Byte.x6c; Byte.x6f] 3 0 0 false) ].

(** Two messages, "hello" and "abc": the socket takes "he", the second
    message is buffered behind "llo", and two calls of [handleWrite] take
    "lloa" and "bc". *)
Definition abc : Bytes := [Byte.x61; Byte.x62; Byte.x63].

Definition k_stream : list (Call * Answers) :=
  [ (CallSendInLoop hello, mkAnswers true false [] 2 0 0 false);
    (CallSendInLoop abc,
       mkAnswers true true [Byte.x6c; Byte.x6c; Byte.x6f] 0 0 3 false);
    (CallHandleWrite,
       mkAnswers true true
         [Byte.x6c; Byte.x6c; Byte.x6f; Byte.x61; Byte.x62; Byte.x63]
         4 0 2 false);
    (CallHandleWrite,
       mkAnswers true true [Byte.x62; Byte.x63] 2 0 0 false) ].

(** The same without the last [handleWrite]: "bc" is still buffered. *)
Definition k_partial : list (Call * Answers) := take 3 k_stream.

(** ** Steps *)

(** Events that leave the status and the two counts alone. *)
Definition plain (e : Effect) : Prop :=
  isDownCallback e = false /\ isShutdownWrite e = false.

(** The moves of the status: none, up, back by [shutdown], or down. *)
Definition statusMove (s s' : Status) : Prop :=
  s' = s \/ (s = kConnecting /\ s' = kConnected) \/
  (s = kConnected /\ s' = kConnecting) \/
  ((s = kConnected \/ s = kDisconnecting) /\ s' = kDisconnected).

(** The down-callbacks and the [shutdownWrite]s that a step may add. *)
Definition stepCounts (k : Call * Answers) (c c' : TcpConnection) : Prop :=
  statusMove (status_ c) (status_ c') /\
  downCalls (trace c') =
    downCalls (trace c) +
    (if bool_decide (status_ c <> kDisconnected /\ status_ c' = kDisconnected)
     then 1 else 0) /\
  shutdownWrites (trace c') <=
    shutdownWrites (trace c) +
    (if isShutdownInLoop k || bool_decide (status_ c = kDisconnecting)
     then 1 else 0).

End TcpConnectionNotions.

(** * Proofs *)

(** ** The error monad *)

Lemma bind_Ok {A B} (m : Result A) (f : A -> Result B) b :
  (m ≫= f) = Ok b -> exists a, m = Ok a /\ f a = Ok b.
Proof. destruct m as [a|msg]; simpl; [eauto | discriminate]. Qed.

(** Splits a hypothesis [(x ← m; k) = Ok _] into its two steps. *)
Ltac bind_inv H :=
  let a := fresh "r" in
  let H1 := fresh "Hstep" in
  apply bind_Ok in H; destruct H as (a & H1 & H).

(** Splits a conjunction into its parts, leaving equations alone. *)
Ltac conj_split := repeat match goal with |- _ /\ _ => split end.

(** Closes a closed goal by evaluation. *)
Ltac by_eval := conj_split; vm_compute; reflexivity.

Section ProcessorProofs.
Import Processor.

(** ** Arithmetic of [size_t] and counts over histories *)

Lemma wrap_succ a : wrap (wrap a + 1) = wrap (a + 1).
Proof. unfold wrap. apply Z.add_mod_idemp_l. unfold size_max. lia. Qed.

Lemma wrap_pred a : wrap (wrap a - 1) = wrap (a - 1).
Proof. unfold wrap. apply Zminus_mod_idemp_l. Qed.

Lemma enqueues_app h1 h2 : enqueues (h1 ++ h2) = (enqueues h1 + enqueues h2)%Z.
Proof. unfold enqueues. rewrite filter_app, length_app. lia. Qed.

Lemma idlePushes_app h1 h2 :
  idlePushes (h1 ++ h2) = (idlePushes h1 + idlePushes h2)%Z.
Proof. unfold idlePushes. rewrite filter_app, length_app. lia. Qed.


(** ** The load counter *)

(** [loadOk] only reads the counter and the history. *)
Lemma loadOk_same p p' :
  load_ p' = load_ p -> history p' = history p -> loadOk p -> loadOk p'.
Proof. unfold loadOk. intros -> ->. done. Qed.

(** A step that appends events which are neither enqueues nor pushes. *)
Lemma loadOk_silent p p' evs :
  load_ p' = load_ p -> history p' = history p ++ evs ->
  enqueues evs = 0%Z -> idlePushes evs = 0%Z -> loadOk p -> loadOk p'.
Proof.
  unfold loadOk. intros -> -> He Hi ->.
  rewrite enqueues_app, idlePushes_app, He, Hi. f_equal. lia.
Qed.

Lemma loadOk_addTaskCo c p : loadOk p -> loadOk (addTaskCo c p).
Proof.
  unfold loadOk, addTaskCo, wakeupEpollCo. intros H.
  destruct (isEpolling _); simpl; rewrite H, wrap_succ;
    rewrite ?enqueues_app, ?idlePushes_app; f_equal;
    unfold enqueues, idlePushes; simpl; lia.
Qed.

Lemma reset_load c cb p p' :
  reset c cb p = Ok p' -> load_ p' = load_ p /\ history p' = history p.
Proof.
  unfold reset. destruct (coros p !! c); [|discriminate].
  intros H. bind_inv H. injection H as <-. done.
Qed.

Lemma loadOk_resetAndGetCo cb name p r :
  resetAndGetCo cb name p = Ok r -> loadOk p -> loadOk r.2.
Proof.
  unfold resetAndGetCo. destruct (idleCoQue_ p) as [|c rest].
  - intros [= <-]. apply loadOk_same; done.
  - intros H. bind_inv H. injection H as <-.
    apply reset_load in Hstep as [Hl Hh]. apply loadOk_same; simpl; done.
Qed.

Lemma loadOk_addTask cb name p p' :
  addTask cb name p = Ok p' -> loadOk p -> loadOk p'.
Proof.
  unfold addTask. intros H Hp. bind_inv H. injection H as <-.
  eauto using loadOk_addTaskCo, loadOk_resetAndGetCo.
Qed.

Lemma loadOk_addPendingTask cb name p :
  loadOk p -> loadOk (addPendingTask cb name p).
Proof.
  apply (loadOk_silent _ _ [EvPendingAppend cb name; EvWakeupWrite]);
    try done.
  unfold addPendingTask, wakeupEpollCo. simpl. by rewrite <- app_assoc.
Qed.

Lemma loadOk_addTasks tasks p p' :
  addTasks tasks p = Ok p' -> loadOk p -> loadOk p'.
Proof.
  revert p. induction tasks as [|t tasks IH]; simpl; intros p H Hp.
  - by injection H as <-.
  - bind_inv H. eauto using loadOk_addTask.
Qed.

Lemma loadOk_drain p p' :
  addPendingTasksIntoQueue p = Ok p' -> loadOk p -> loadOk p'.
Proof.
  unfold addPendingTasksIntoQueue. intros H Hp. bind_inv H.
  injection H as <-. apply (loadOk_same r); try done.
  eapply loadOk_addTasks; [exact Hstep|].
  apply (loadOk_silent p _ [EvLock; EvPendingSwap; EvUnlock]); try done.
  simpl. by rewrite <- !app_assoc.
Qed.

Lemma loadOk_stop p : loadOk p -> loadOk (stop p).
Proof.
  unfold stop, wakeupEpollCo. destruct (isEpolling _).
  - by apply (loadOk_silent _ _ [EvWakeupWrite]).
  - by apply loadOk_same.
Qed.

Lemma loadOk_do_action a p p' :
  do_action a p = Ok p' -> loadOk p -> loadOk p'.
Proof.
  destruct a; simpl; intros H; try (injection H as <-);
    eauto using loadOk_addTaskCo, loadOk_addTask, loadOk_addPendingTask,
      loadOk_stop; by apply loadOk_same.
Qed.

Lemma loadOk_do_actions acts p p' :
  do_actions acts p = Ok p' -> loadOk p -> loadOk p'.
Proof.
  revert p. induction acts as [|a acts IH]; simpl; intros p H Hp.
  - by injection H as <-.
  - bind_inv H. eauto using loadOk_do_action.
Qed.

Lemma loadOk_swapIn c r p p' : swapIn c r p = Ok p' -> loadOk p -> loadOk p'.
Proof.
  unfold swapIn. intros H Hp.
  destruct (getState c p) as [[]|]; try discriminate;
    bind_inv H; injection H as <-;
    (apply (loadOk_same r0); [done..|]);
    (eapply loadOk_do_actions; [exact Hstep|]);
    by apply (loadOk_silent p _ [EvSwapIn c]).
Qed.

Lemma loadOk_afterSwap cur p : loadOk p -> loadOk (afterSwap cur p).
Proof.
  unfold afterSwap, loadOk. intros H. case_bool_decide; [|done].
  simpl. rewrite H, wrap_pred, enqueues_app, idlePushes_app. f_equal.
  unfold enqueues, idlePushes. simpl. lia.
Qed.

Lemma loadOk_pickNext e p : loadOk p -> loadOk (pickNext e p).2.
Proof. unfold pickNext. destruct (runnableCoQue_ p); by apply loadOk_same. Qed.

Lemma loadOk_iteration e r p p' :
  iteration e r p = Ok p' -> loadOk p -> loadOk p'.
Proof.
  unfold iteration. intros H Hp. bind_inv H.
  eauto using loadOk_drain, loadOk_afterSwap, loadOk_swapIn, loadOk_pickNext.
Qed.

Lemma loadOk_runLoop script e p p' :
  runLoop script e p = Some (Ok p') -> loadOk p -> loadOk p'.
Proof.
  revert p. induction script as [|r script IH]; simpl; intros p H Hp;
    [discriminate|].
  destruct (loopCond p).
  - destruct (iteration e r p) as [p1|] eqn:Hit; [|discriminate].
    eauto using loadOk_iteration.
  - injection H as H. eauto using loadOk_swapIn.
Qed.

Lemma loadOk_runEnter p : loadOk p -> loadOk (runEnter p).2.
Proof.
  apply (loadOk_silent _ _ [EvSetHookEnabled true]); done.
Qed.

Lemma loadOk_run caller script p p' :
  run caller script p = Some (Ok p') -> loadOk p -> loadOk p'.
Proof.
  unfold run. destruct (assertInProcThread caller p); [|discriminate].
  eauto using loadOk_runLoop, loadOk_runEnter.
Qed.

Lemma loadOk_blank tid : loadOk (blank tid).
Proof. reflexivity. Qed.

Lemma loadOk_new caller tp this p t :
  new caller tp this = Ok (p, t) -> loadOk p.
Proof.
  unfold new. intros H. bind_inv H. bind_inv H. bind_inv H.
  injection H as <- _.
  eauto using loadOk_addTask, loadOk_blank.
Qed.

(** ** States behind the pointers *)

Lemma getState_setState_ne c c' s p :
  c <> c' -> getState c' (setState c s p) = getState c' p.
Proof. intros Hne. unfold getState, setState. simpl. by rewrite lookup_alter_ne. Qed.


Lemma getState_setName c c' name p :
  getState c' (setName c name p) = getState c' p.
Proof.
  unfold getState, setName. simpl. rewrite lookup_alter.
  case_decide; [subst|done]. by destruct (coros p !! c').
Qed.

Lemma getState_is_Some c p s : getState c p = Some s -> is_Some (coros p !! c).
Proof. unfold getState. destruct (coros p !! c); [eauto | discriminate]. Qed.

Lemma heapOk_setState c s p : heapOk p -> heapOk (setState c s p).
Proof.
  unfold heapOk, setState. simpl. intros H c' Hc'. apply H.
  rewrite lookup_alter in Hc'. case_decide; [subst|done].
  by apply fmap_is_Some in Hc'.
Qed.

Lemma heapOk_setName c name p : heapOk p -> heapOk (setName c name p).
Proof.
  unfold heapOk, setName. simpl. intros H c' Hc'. apply H.
  rewrite lookup_alter in Hc'. case_decide; [subst|done].
  by apply fmap_is_Some in Hc'.
Qed.

Lemma heapOk_makeCo cb name p : heapOk p -> heapOk (makeCo cb name p).2.
Proof.
  unfold heapOk, makeCo. simpl. intros H c Hc.
  rewrite lookup_insert in Hc. case_decide; [lia|].
  apply H in Hc. lia.
Qed.

Lemma heapOk_same p p' :
  coros p' = coros p -> nextCo p' = nextCo p -> heapOk p -> heapOk p'.
Proof. unfold heapOk. intros -> ->. done. Qed.

(** ** The idle list *)

Lemma idleOk_same p p' :
  coros p' = coros p -> idleCoQue_ p' = idleCoQue_ p -> idleOk p -> idleOk p'.
Proof. unfold idleOk, getState. intros -> ->. done. Qed.

Lemma idleInv_same p p' :
  coros p' = coros p -> nextCo p' = nextCo p ->
  idleCoQue_ p' = idleCoQue_ p -> idleInv p -> idleInv p'.
Proof. intros ??? [??]. split; eauto using heapOk_same, idleOk_same. Qed.

Lemma idleInv_setState c s p :
  c ∉ idleCoQue_ p -> idleInv p -> idleInv (setState c s p).
Proof.
  intros Hc [Hh [Hnd Hall]]. split; [by apply heapOk_setState|].
  split; [done|]. simpl. rewrite Forall_forall in *. intros c' Hc'.
  rewrite getState_setState_ne; [auto | set_solver].
Qed.

Lemma idleInv_makeCo cb name p : idleInv p -> idleInv (makeCo cb name p).2.
Proof.
  intros [Hh [Hnd Hall]]. split; [by apply heapOk_makeCo|].
  split; [done|]. simpl. rewrite Forall_forall in *. intros c Hc.
  specialize (Hall c Hc). unfold getState in *. simpl.
  rewrite lookup_insert_ne; [done|].
  intros <-. apply getState_is_Some, Hh in Hall. lia.
Qed.

Lemma makeCo_fresh cb name p :
  idleInv p -> (makeCo cb name p).1 ∉ idleCoQue_ (makeCo cb name p).2.
Proof.
  intros [Hh [_ Hall]]. simpl. intros Hin.
  rewrite Forall_forall in Hall. apply Hall, getState_is_Some, Hh in Hin. lia.
Qed.

Lemma idleInv_addTaskCo c p :
  c ∉ idleCoQue_ p -> idleInv p -> idleInv (addTaskCo c p).
Proof.
  intros Hc Hp. apply (idleInv_setState c EXEC) in Hp; [|done].
  unfold addTaskCo, wakeupEpollCo. destruct (isEpolling _);
    revert Hp; by apply idleInv_same.
Qed.

Lemma idle_addTaskCo c p : idleCoQue_ (addTaskCo c p) = idleCoQue_ p.
Proof. unfold addTaskCo, wakeupEpollCo. by destruct (isEpolling _). Qed.

(** Under the invariant [resetAndGetCo] succeeds; its coroutine is off the
    idle list, which has not grown. *)
Lemma idleInv_resetAndGetCo cb name p :
  idleInv p ->
  exists r, resetAndGetCo cb name p = Ok r /\ idleInv r.2 /\
    (r.1 ∉ idleCoQue_ r.2) /\ idleCoQue_ r.2 ⊆ idleCoQue_ p.
Proof.
  intros Hp. unfold resetAndGetCo.
  destruct (idleCoQue_ p) as [|c rest] eqn:Hidle.
  - eexists. split; [done|]. split; [by apply idleInv_makeCo|].
    split; [by apply makeCo_fresh|]. simpl. by rewrite Hidle.
  - destruct Hp as [Hh [Hnd Hall]]. rewrite Hidle in Hnd, Hall.
    apply NoDup_cons in Hnd as [Hc Hnd]. apply Forall_cons in Hall as [Hst Hall].
    unfold reset. simpl. unfold getState in Hst.
    destruct (coros p !! c) as [co|] eqn:Hco; [|discriminate].
    injection Hst as Hst. unfold co_reset. rewrite Hst. simpl.
    eexists. split; [done|]. simpl. split; [|split; [done|set_solver]].
    split.
    + apply heapOk_setName. intros c' Hc'. simpl in Hc'. apply Hh.
      rewrite lookup_insert in Hc'. case_decide; [subst; eauto | done].
    + split; [done|]. simpl. rewrite Forall_forall in *. intros c' Hc'.
      rewrite getState_setName. unfold getState. simpl.
      rewrite lookup_insert_ne; [by apply Hall | set_solver].
Qed.

Lemma idleInv_addTask cb name p :
  idleInv p ->
  exists p', addTask cb name p = Ok p' /\ idleInv p' /\
    idleCoQue_ p' ⊆ idleCoQue_ p.
Proof.
  intros Hp. destruct (idleInv_resetAndGetCo cb name p Hp)
    as (r & Hr & Hinv & Hnotin & Hsub).
  unfold addTask. rewrite Hr. simpl. eexists. split; [done|].
  split; [by apply idleInv_addTaskCo|]. by rewrite idle_addTaskCo.
Qed.

Lemma idleInv_addTasks tasks p :
  idleInv p ->
  exists p', addTasks tasks p = Ok p' /\ idleInv p' /\
    idleCoQue_ p' ⊆ idleCoQue_ p.
Proof.
  revert p. induction tasks as [|t tasks IH]; simpl; intros p Hp.
  - eauto.
  - destruct (idleInv_addTask t.1 t.2 p Hp) as (p1 & -> & Hp1 & Hsub1).
    simpl. destruct (IH p1 Hp1) as (p2 & -> & Hp2 & Hsub2).
    eexists. split; [done|]. split; [done|]. set_solver.
Qed.

Lemma idleInv_drain p :
  idleInv p ->
  exists p', addPendingTasksIntoQueue p = Ok p' /\ idleInv p' /\
    idleCoQue_ p' ⊆ idleCoQue_ p.
Proof.
  intros Hp. unfold addPendingTasksIntoQueue.
  edestruct (idleInv_addTasks (pendingTasks_ p)) as (p1 & -> & Hp1 & Hsub1).
  2: { simpl. eexists. split; [done|]. split; [|exact Hsub1].
       revert Hp1. by apply idleInv_same. }
  revert Hp. by apply idleInv_same.
Qed.

Lemma idleInv_stop p : idleInv p -> idleInv (stop p).
Proof.
  unfold stop, wakeupEpollCo. destruct (isEpolling _); by apply idleInv_same.
Qed.

Lemma idle_stop p : idleCoQue_ (stop p) = idleCoQue_ p.
Proof. unfold stop, wakeupEpollCo. by destruct (isEpolling _). Qed.

Lemma idleInv_do_action a p :
  idleInv p -> polite a p = true ->
  exists p', do_action a p = Ok p' /\ idleInv p' /\
    idleCoQue_ p' ⊆ idleCoQue_ p.
Proof.
  intros Hp Hpol. destruct a; simpl in *;
    try (eexists; split; [done|]; split; [|done]).
  - by apply idleInv_makeCo.
  - eexists. split; [done|]. rewrite idle_addTaskCo. split; [|done].
    apply idleInv_addTaskCo; [|done].
    apply negb_true_iff, bool_decide_eq_false in Hpol. done.
  - by apply idleInv_addTask.
  - revert Hp. by apply idleInv_same.
  - eexists. split; [done|]. rewrite idle_stop. split; [|done].
    by apply idleInv_stop.
  - revert Hp. by apply idleInv_same.
  - revert Hp. by apply idleInv_same.
  - revert Hp. by apply idleInv_same.
  - revert Hp. by apply idleInv_same.
Qed.

Lemma idleInv_do_actions acts p :
  idleInv p -> actsPolite acts p = true ->
  exists p', do_actions acts p = Ok p' /\ idleInv p' /\
    idleCoQue_ p' ⊆ idleCoQue_ p.
Proof.
  revert p. induction acts as [|a acts IH]; simpl; intros p Hp Hpol.
  - eauto.
  - apply andb_true_iff in Hpol as [Ha Hrest].
    destruct (idleInv_do_action a p Hp Ha) as (p1 & Hp1 & Hinv1 & Hsub1).
    rewrite Hp1 in *. simpl.
    destruct (IH p1 Hinv1 Hrest) as (p2 & -> & Hinv2 & Hsub2).
    eexists. split; [done|]. split; [done|]. set_solver.
Qed.

(** The failures of [swapIn] and of the thread check are not failures of
    [reset]. *)
Lemma other_failures :
  ("swapIn: null coroutine" ∉ resetFailures) /\
  ("swapIn: the coroutine has finished" ∉ resetFailures) /\
  ("Processor::abortNotInLoopThread" ∉ resetFailures).
Proof.
  unfold resetFailures, resetFailure.
  split; [|split]; intros Hin;
    repeat (apply elem_of_cons in Hin as [Hin|Hin]; [discriminate|]);
    by apply elem_of_nil in Hin.
Qed.

(** A swap-in fails only with a message of its own; when it succeeds the
    invariant holds again and the coroutine is off the idle list. *)
Lemma idleInv_swapIn c r p :
  idleInv p -> swapPolite c r p = true ->
  match swapIn c r p with
  | Ok p' => idleInv p' /\ c ∉ idleCoQue_ p'
  | Fatal msg => msg ∉ resetFailures
  end.
Proof.
  intros Hp Hpol. unfold swapIn.
  destruct (getState c p) as [st|] eqn:Hst; [|apply other_failures].
  assert (Hc : st <> TERM -> c ∉ idleCoQue_ p).
  { intros Hne Hin. destruct Hp as [_ [_ Hall]].
    rewrite Forall_forall in Hall. apply Hall in Hin. congruence. }
  assert (Hgo : st <> TERM ->
    match
      p0 ← do_actions (sr_actions r) (emit (EvSwapIn c) (setState c EXEC p));
      Ok (setState c (sr_state r) p0)
    with
    | Ok p' => idleInv p' /\ c ∉ idleCoQue_ p'
    | Fatal msg => msg ∉ resetFailures
    end).
  { intros Hne. specialize (Hc Hne).
    edestruct (idleInv_do_actions (sr_actions r)) as (p1 & -> & Hp1 & Hsub);
      [| exact Hpol |].
    - apply (idleInv_same (setState c EXEC p)); try done.
      by apply idleInv_setState.
    - simpl in *. assert (c ∉ idleCoQue_ p1) by set_solver.
      split; [by apply idleInv_setState | done]. }
  destruct st; try (by apply Hgo); apply other_failures.
Qed.

Lemma idleInv_afterSwap cur p :
  idleInv p -> cur ∉ idleCoQue_ p -> idleInv (afterSwap cur p).
Proof.
  intros [Hh [Hnd Hall]] Hcur. unfold afterSwap. case_bool_decide; [|done].
  split; [done|]. split; simpl.
  - apply NoDup_app. split; [done|]. split; [|apply NoDup_singleton].
    intros x Hx Hx'. apply list_elem_of_singleton in Hx' as ->. done.
  - apply Forall_app. split; [done|]. by apply Forall_singleton.
Qed.

Lemma idleInv_pickNext e p : idleInv p -> idleInv (pickNext e p).2.
Proof. unfold pickNext. destruct (runnableCoQue_ p); by apply idleInv_same. Qed.

Lemma idleInv_iteration e r p :
  idleInv p -> swapPolite (pickNext e p).1 r (pickNext e p).2 = true ->
  match iteration e r p with
  | Ok p' => idleInv p'
  | Fatal msg => msg ∉ resetFailures
  end.
Proof.
  intros Hp Hpol. unfold iteration.
  pose proof (idleInv_swapIn _ r _ (idleInv_pickNext e p Hp) Hpol) as Hsw.
  destruct (swapIn _ r _) as [p1|msg]; [|done]. simpl.
  destruct Hsw as [Hp1 Hcur].
  destruct (idleInv_drain (afterSwap (pickNext e p).1 p1)) as (p2 & -> & Hp2 & _);
    [by apply idleInv_afterSwap | done].
Qed.

Lemma idleInv_runLoop script e p :
  idleInv p -> scriptPolite script e p = true ->
  match runLoop script e p with
  | Some (Ok p') => idleInv p'
  | Some (Fatal msg) => msg ∉ resetFailures
  | None => True
  end.
Proof.
  revert p. induction script as [|r script IH]; simpl; intros p Hp Hpol;
    [done|].
  destruct (loopCond p).
  - apply andb_true_iff in Hpol as [Hsw Hrest].
    pose proof (idleInv_iteration e r p Hp Hsw) as Hit.
    destruct (iteration e r p) as [p1|msg]; [by apply IH | done].
  - pose proof (idleInv_swapIn e r p Hp Hpol) as Hsw.
    destruct (swapIn e r p); [by destruct Hsw | done].
Qed.

Lemma run_unfold caller script p :
  run caller script p =
    if isInProcThread caller p
    then runLoop script (runEnter p).1 (runEnter p).2
    else Some abortNotInProcThread.
Proof.
  unfold run, assertInProcThread. by destruct (isInProcThread caller p).
Qed.

Lemma idleInv_runEnter p : idleInv p -> idleInv (runEnter p).2.
Proof.
  intros Hp. unfold runEnter.
  set (p1 := emit _ (set_stop false p)).
  assert (Hp1 : idleInv p1) by (revert Hp; by apply idleInv_same).
  apply idleInv_setState; [by apply makeCo_fresh | by apply idleInv_makeCo].
Qed.

Lemma idleInv_blank tid : idleInv (blank tid).
Proof.
  split; [|split]; simpl.
  - intros c [co Hco]. unfold blank in Hco. simpl in Hco.
    by rewrite lookup_empty in Hco.
  - apply NoDup_nil_2.
  - apply Forall_nil_2.
Qed.

Lemma idleInv_new caller tp this p t :
  new caller tp this = Ok (p, t) -> idleInv p.
Proof.
  unfold new. intros H. bind_inv H.
  destruct (idleInv_addTask CbWake "Wake" (blank caller) (idleInv_blank _))
    as (p1 & Hp1 & Hinv1 & _).
  rewrite Hp1 in H. simpl in H.
  destruct (idleInv_addTask CbTimerQue "timerQue" p1 Hinv1)
    as (p2 & Hp2 & Hinv2 & _).
  rewrite Hp2 in H. simpl in H. by injection H as <- _.
Qed.

(** ** Coroutines of the runnable queue before [run] *)


Lemma runnable_addTaskCo c p :
  runnableCoQue_ (addTaskCo c p) = runnableCoQue_ p ++ [c].
Proof. unfold addTaskCo, wakeupEpollCo. by destruct (isEpolling _). Qed.















(** ** The runnable queue and the order of swap-ins *)





Lemma reset_frame c cb p p' :
  reset c cb p = Ok p' ->
  history p' = history p /\ runnableCoQue_ p' = runnableCoQue_ p /\
  stop_ p' = stop_ p /\ pendingTasks_ p' = pendingTasks_ p.
Proof.
  unfold reset. destruct (coros p !! c); [|discriminate].
  intros H. bind_inv H. by injection H as <-.
Qed.

Lemma resetAndGetCo_frame cb name p r :
  resetAndGetCo cb name p = Ok r ->
  history r.2 = history p /\ runnableCoQue_ r.2 = runnableCoQue_ p /\
  stop_ r.2 = stop_ p /\ pendingTasks_ r.2 = pendingTasks_ p.
Proof.
  unfold resetAndGetCo. destruct (idleCoQue_ p) as [|c rest].
  - by intros [= <-].
  - intros H. bind_inv H. injection H as <-.
    apply reset_frame in Hstep. simpl in *. done.
Qed.










Lemma loopCond_false p :
  loopCond p = false -> stop_ p = true /\ runnableCoQue_ p = [].
Proof.
  unfold loopCond. intros H. apply orb_false_iff in H as [H1 H2].
  apply negb_false_iff in H1, H2. by apply bool_decide_eq_true in H2.
Qed.


(** ** The stop flag *)

Lemma stop_addTaskCo c p : stop_ (addTaskCo c p) = stop_ p.
Proof. unfold addTaskCo, wakeupEpollCo. by destruct (isEpolling _). Qed.

Lemma stop_addTask cb name p p' :
  addTask cb name p = Ok p' -> stop_ p' = stop_ p.
Proof.
  unfold addTask. intros H. bind_inv H. injection H as <-.
  apply resetAndGetCo_frame in Hstep as (_ & _ & Hs & _).
  by rewrite stop_addTaskCo.
Qed.

Lemma stop_addTasks tasks p p' :
  addTasks tasks p = Ok p' -> stop_ p' = stop_ p.
Proof.
  revert p. induction tasks as [|t tasks IH]; simpl; intros p H.
  - by injection H as <-.
  - bind_inv H. apply stop_addTask in Hstep. apply IH in H. congruence.
Qed.

Lemma stop_drain p p' :
  addPendingTasksIntoQueue p = Ok p' -> stop_ p' = stop_ p.
Proof.
  unfold addPendingTasksIntoQueue. intros H. bind_inv H. injection H as <-.
  by apply stop_addTasks in Hstep.
Qed.

Lemma stop_do_action a p p' :
  a <> ActStop -> do_action a p = Ok p' -> stop_ p' = stop_ p.
Proof.
  destruct a; simpl; intros Hne H; try (injection H as <-);
    eauto using stop_addTaskCo, stop_addTask; done.
Qed.

Lemma stop_do_actions acts p p' :
  ActStop ∉ acts -> do_actions acts p = Ok p' -> stop_ p' = stop_ p.
Proof.
  revert p. induction acts as [|a acts IH]; simpl; intros p Hno H.
  - by injection H as <-.
  - bind_inv H. apply not_elem_of_cons in Hno as [Hne Hno].
    apply stop_do_action in Hstep; [|done]. apply IH in H; [|done].
    congruence.
Qed.

Lemma stop_swapIn c r p p' :
  ActStop ∉ sr_actions r -> swapIn c r p = Ok p' -> stop_ p' = stop_ p.
Proof.
  unfold swapIn. intros Hno H.
  destruct (getState c p) as [[]|]; try discriminate;
    bind_inv H; injection H as <-;
    by apply stop_do_actions in Hstep.
Qed.

Lemma stop_afterSwap cur p : stop_ (afterSwap cur p) = stop_ p.
Proof. unfold afterSwap. by case_bool_decide. Qed.

Lemma stop_pickNext e p : stop_ (pickNext e p).2 = stop_ p.
Proof. unfold pickNext. by destruct (runnableCoQue_ p). Qed.

Lemma stop_iteration e r p p' :
  ActStop ∉ sr_actions r -> iteration e r p = Ok p' -> stop_ p' = stop_ p.
Proof.
  unfold iteration. intros Hno H. bind_inv H.
  apply stop_swapIn in Hstep; [|done]. apply stop_drain in H.
  rewrite H, stop_afterSwap, Hstep. apply stop_pickNext.
Qed.

(** While nobody calls [stop], the loop does not end. *)
Lemma runLoop_goes_on script e p :
  stop_ p = false -> Forall (fun r => ActStop ∉ sr_actions r) script ->
  forall p', runLoop script e p <> Some (Ok p').
Proof.
  revert p. induction script as [|r script IH]; simpl; intros p Hs Hno p';
    [done|].
  apply Forall_cons in Hno as [Hr Hno].
  unfold loopCond. rewrite Hs. simpl.
  destruct (iteration e r p) as [p1|] eqn:Hit; [|done].
  apply IH; [|done]. apply stop_iteration in Hit; congruence.
Qed.

(** ** Runs in which the coroutines submit nothing *)




(** ** What one pass does after the swap-in *)


Lemma pending_addTaskCo c p : pendingTasks_ (addTaskCo c p) = pendingTasks_ p.
Proof. unfold addTaskCo, wakeupEpollCo. by destruct (isEpolling _). Qed.

Lemma addTask_queue cb name p p' :
  addTask cb name p = Ok p' ->
  pendingTasks_ p' = pendingTasks_ p /\
  exists c, runnableCoQue_ p' = runnableCoQue_ p ++ [c].
Proof.
  unfold addTask. intros H. bind_inv H. injection H as <-.
  apply resetAndGetCo_frame in Hstep as (_ & Hq & _ & Hp).
  rewrite pending_addTaskCo, runnable_addTaskCo, Hq. eauto.
Qed.

Lemma addTasks_queue tasks p p' :
  addTasks tasks p = Ok p' ->
  pendingTasks_ p' = pendingTasks_ p /\
  exists cs, runnableCoQue_ p' = runnableCoQue_ p ++ cs /\
    length cs = length tasks.
Proof.
  revert p. induction tasks as [|t tasks IH]; simpl; intros p H.
  - injection H as <-. split; [done|]. exists []. by rewrite app_nil_r.
  - bind_inv H. apply addTask_queue in Hstep as [Hp [c Hc]].
    apply IH in H as [Hp' (cs & Hcs & Hlen)]. split; [congruence|].
    exists (c :: cs). rewrite Hcs, Hc, <- app_assoc. simpl. auto.
Qed.

(** The drain empties the pending buffer and turns each of its tasks into
    one coroutine at the tail of the runnable queue. *)
Lemma drain_spec p p' :
  addPendingTasksIntoQueue p = Ok p' ->
  pendingTasks_ p' = [] /\
  exists cs, runnableCoQue_ p' = runnableCoQue_ p ++ cs /\
    length cs = length (pendingTasks_ p).
Proof.
  unfold addPendingTasksIntoQueue. intros H. bind_inv H. injection H as <-.
  apply addTasks_queue in Hstep as [Hp (cs & Hcs & Hlen)]. simpl in *. eauto.
Qed.


(** ** Which coroutines are in state EXEC *)

Lemma p_new_eq : new 7 None 0 = Ok (p_new, Some 0).
Proof. vm_compute. reflexivity. Qed.




(** ** What the load counter counts *)

(** C5, counterexample.  After the first pass of the loop, in which "Wake"
    is swapped in and suspends, nothing runs and one coroutine is queued,
    yet the load counter is still 2.  After both helpers have suspended
    and the epoll coroutine has resumed "Wake" twice with [addTask(co)],
    again nothing runs and one coroutine is queued, three coroutines exist
    in all, and the load counter is 4. *)
Lemma load_exceeds_live_count :
  new 7 None 0 = Ok (p_new, Some 0) /\
  (exists p,
     passes [quiet HOLD] 2 p_loop = Ok p /\
     load_ p = 2%Z /\ liveCount None p = 1%Z) /\
  (exists p,
     passes script_wakeups 2 p_loop = Ok p /\
     load_ p = 4%Z /\ liveCount None p = 1%Z /\ size (coros p) = 3).
Proof.
  split; [by_eval|]. split.
  - eexists. split; [vm_compute; reflexivity|]. by_eval.
  - eexists. split; [vm_compute; reflexivity|]. by_eval.
Qed.

Lemma lifetime_loadOk p : lifetime p -> loadOk p.
Proof.
  induction 1; eauto using loadOk_do_action, loadOk_drain, loadOk_runEnter,
    loadOk_pickNext, loadOk_swapIn, loadOk_afterSwap, loadOk_run.
  apply (loadOk_new _ _ _ _ _ H).
Qed.

Lemma load_addTaskCo c p : load_ (addTaskCo c p) = wrap (load_ p + 1).
Proof. unfold addTaskCo, wakeupEpollCo. by destruct (isEpolling _). Qed.

Lemma load_afterSwap cur p :
  load_ (afterSwap cur p) =
    if bool_decide (getState cur p = Some TERM) then wrap (load_ p - 1)
    else load_ p.
Proof. unfold afterSwap. by case_bool_decide. Qed.

(** C5, as amended.  At every point of a Processor's life the load counter
    is, in [size_t] arithmetic, the number of coroutines [addTask] has
    enqueued so far minus the number of swap-ins of [run]'s loop that came
    back in state TERM: [addTask] adds one as it enqueues and the loop
    takes one off exactly in the TERM branch.  A coroutine that comes back
    in another state stays counted, and is counted again when it is
    enqueued again. *)
Theorem load_accounting p :
  lifetime p ->
  load_ p = wrap (enqueues (history p) - idlePushes (history p)) /\
  (forall c, load_ (addTaskCo c p) = wrap (load_ p + 1) /\
             runnableCoQue_ (addTaskCo c p) = runnableCoQue_ p ++ [c]) /\
  (forall cur, load_ (afterSwap cur p) =
     if bool_decide (getState cur p = Some TERM) then wrap (load_ p - 1)
     else load_ p).
Proof.
  intros Hp. split; [by apply lifetime_loadOk|].
  split; [|intros cur; apply load_afterSwap].
  intros c. split; [apply load_addTaskCo | apply runnable_addTaskCo].
Qed.

(** C5, witness: the freshly built Processor. *)
Lemma load_accounting_witness :
  lifetime p_new /\
  load_ p_new = wrap (enqueues (history p_new) - idlePushes (history p_new)).
Proof.
  assert (H : lifetime p_new).
  { apply (life_new 7 0 p_new (Some 0)). vm_compute. reflexivity. }
  split; [exact H | exact (proj1 (load_accounting p_new H))].
Defined.

(** ** The precondition of [reset] *)

(** C7, counterexample.  The coroutine "tick" runs to its end and is put
    on the idle list; it is then handed to [addTask(co)] again, which sets
    it EXEC; the next [addTask(cb, name)] takes it from the idle list and
    resets it in state EXEC. *)
Lemma reset_on_resubmitted_coroutine :
  new 7 None 0 = Ok (p_new, Some 0) /\
  run 7 script_resubmit p_tick = Some (Fatal resetFailure).
Proof. by_eval. Qed.

(** C7, as amended.  Coroutines get on the idle list only in the TERM
    branch of [run], and they stay in state TERM there as long as no
    coroutine of the idle list is handed to [addTask(Coroutine::ptr)].  So
    from any state whose idle list holds distinct TERM coroutines,
    [resetAndGetCo] succeeds, and a run whose calls keep to that proviso
    never fails in a call of [reset] and ends in such a state again. *)
Theorem reset_precondition caller script p :
  heapOk p -> idleOk p ->
  scriptPolite script (runEnter p).1 (runEnter p).2 = true ->
  (forall cb name, exists r, resetAndGetCo cb name p = Ok r) /\
  (forall msg, run caller script p = Some (Fatal msg) ->
     msg ∉ resetFailures) /\
  (forall p', run caller script p = Some (Ok p') -> heapOk p' /\ idleOk p').
Proof.
  intros Hh Hi Hpol. assert (Hp : idleInv p) by done. split; [|split].
  - intros cb name.
    destruct (idleInv_resetAndGetCo cb name p Hp) as (r & Hr & _). eauto.
  - intros msg. rewrite run_unfold.
    destruct (isInProcThread caller p).
    + pose proof (idleInv_runLoop script _ _ (idleInv_runEnter p Hp) Hpol)
        as H.
      intros Hrun. by rewrite Hrun in H.
    + intros [= <-]. apply other_failures.
  - intros p'. rewrite run_unfold.
    destruct (isInProcThread caller p); [|done].
    pose proof (idleInv_runLoop script _ _ (idleInv_runEnter p Hp) Hpol) as H.
    intros Hrun. by rewrite Hrun in H.
Qed.

Lemma idleInv_p_tick : heapOk p_tick /\ idleOk p_tick.
Proof.
  exact (idleInv_makeCo (CbUser 0) "tick" p_new
           (idleInv_new 7 None 0 p_new (Some 0) p_new_eq)).
Qed.

(** C7, witness: "tick" runs to its end and its shell is reused for the
    task "job". *)
Lemma reset_precondition_witness :
  scriptPolite script_reuse (runEnter p_tick).1 (runEnter p_tick).2 = true /\
  (forall msg, run 7 script_reuse p_tick = Some (Fatal msg) ->
     msg ∉ resetFailures) /\
  exists p', run 7 script_reuse p_tick = Some (Ok p') /\
    idleCoQue_ p' = [1; 2].
Proof.
  assert (Hpol : scriptPolite script_reuse (runEnter p_tick).1
                   (runEnter p_tick).2 = true) by (vm_compute; reflexivity).
  split; [exact Hpol|]. split.
  - exact (proj1 (proj2 (reset_precondition 7 script_reuse p_tick
             (proj1 idleInv_p_tick) (proj2 idleInv_p_tick) Hpol))).
  - eexists. split; vm_compute; reflexivity.
Defined.

(** ** The loop of [run] *)




(** Two queued tasks are still run after [stop], then the epoll
    coroutine. *)
Example run_loop_stopping :
  exists p', runLoop [quiet TERM; quiet HOLD; quiet HOLD] 2 p_stopping
             = Some (Ok p') /\
    swapIns (history p') = [0; 1; 2].
Proof. eexists. split; vm_compute; reflexivity. Qed.

(** ** The mutex of the pending-tasks buffer *)

Lemma guarded_neutral held evs :
  Forall (fun ev => neutral ev = true) evs -> guarded held evs = true.
Proof.
  induction 1 as [|ev evs Hev _ IH]; [done|]. by destruct ev.
Qed.

Lemma neutralStep_trans p1 p2 p3 :
  neutralStep p1 p2 -> neutralStep p2 p3 -> neutralStep p1 p3.
Proof.
  intros (e1 & H1 & F1) (e2 & H2 & F2). exists (e1 ++ e2).
  split; [by rewrite H2, H1, app_assoc | by apply Forall_app].
Qed.

Lemma neutralStep_addTaskCo c p : neutralStep p (addTaskCo c p).
Proof.
  unfold addTaskCo, wakeupEpollCo. destruct (isEpolling _); simpl.
  - exists [EvEnqueue c; EvWakeupWrite].
    split; [simpl; by rewrite <- app_assoc | by repeat constructor].
  - exists [EvEnqueue c]. split; [done | by repeat constructor].
Qed.

Lemma neutralStep_addTask cb name p p' :
  addTask cb name p = Ok p' -> neutralStep p p'.
Proof.
  unfold addTask. intros H. bind_inv H. injection H as <-.
  apply resetAndGetCo_frame in Hstep as (Hh & _).
  destruct (neutralStep_addTaskCo r.1 r.2) as (evs & Hevs & Fevs).
  exists evs. by rewrite Hevs, Hh.
Qed.

Lemma neutralStep_addTasks tasks p p' :
  addTasks tasks p = Ok p' -> neutralStep p p'.
Proof.
  revert p. induction tasks as [|t tasks IH]; simpl; intros p H.
  - injection H as <-. exists []. by rewrite app_nil_r.
  - bind_inv H. eauto using neutralStep_trans, neutralStep_addTask.
Qed.

(** The drain takes the mutex around its swap of the buffer. *)
Lemma drain_guarded p p' :
  addPendingTasksIntoQueue p = Ok p' ->
  exists evs, history p' = history p ++ evs /\ guarded false evs = true.
Proof.
  unfold addPendingTasksIntoQueue. intros H. bind_inv H. injection H as <-.
  apply neutralStep_addTasks in Hstep as (evs & Hevs & Fevs). simpl in *.
  exists ([EvLock; EvPendingSwap; EvUnlock] ++ evs).
  split; [rewrite Hevs; by rewrite <- !app_assoc|].
  simpl. by apply guarded_neutral.
Qed.

(** C4, the code at the failing input.  [addPendingTask] appends to the
    pending buffer and writes to the wakeup fd; its events contain no lock,
    so the append is outside the mutex, whereas the drain does take the
    mutex around its swap of the same buffer. *)
Theorem addPendingTask_appends_unlocked :
  (forall cb name p,
     history (addPendingTask cb name p) =
       history p ++ [EvPendingAppend cb name; EvWakeupWrite]) /\
  (forall cb name, guarded false [EvPendingAppend cb name; EvWakeupWrite]
                   = false) /\
  guarded false (history (addPendingTask (CbUser 0) "task" p_new)) = false /\
  guarded false (history p_new) = true /\
  (forall p p', addPendingTasksIntoQueue p = Ok p' ->
     exists evs, history p' = history p ++ evs /\ guarded false evs = true).
Proof.
  split; [|split; [|split; [|split]]].
  - intros cb name p. unfold addPendingTask, wakeupEpollCo. simpl.
    by rewrite <- app_assoc.
  - reflexivity.
  - vm_compute. reflexivity.
  - vm_compute. reflexivity.
  - apply drain_guarded.
Qed.

(** ** Calls from other threads *)



(** ** The helper coroutines of the constructor *)

(** C9, counterexample.  The stop flag is unset, the read of the eventfd
    fails, and the body of "Wake" returns: the coroutine ends in TERM. *)
Lemma wake_returns_on_read_error :
  Forall (fun o : bool * Z => o.1 = false) [(false, (-1)%Z)] /\
  wakeBody [(false, (-1)%Z)] = Returned /\
  stateAfter (wakeBody [(false, (-1)%Z)]) = TERM.
Proof.
  split; [|by_eval]. apply Forall_singleton. reflexivity.
Qed.

Lemma timerQueBody_looping obs :
  Forall (fun s => s = false) obs -> timerQueBody obs = Looping.
Proof. induction 1 as [|s obs -> _ IH]; simpl; done. Qed.

Lemma wakeBody_looping obs :
  Forall (fun o : bool * Z => o.1 = false /\ (0 <= o.2)%Z) obs ->
  wakeBody obs = Looping.
Proof.
  induction 1 as [|[s n] obs [Hs Hn] _ IH]; simpl in *; [done|].
  subst s. unfold consumeWakeUp.
  destruct (Z.ltb_spec n 0); [lia | done].
Qed.

(** C9, as amended.  The constructor leaves exactly two coroutines in the
    runnable queue, "Wake" and "timerQue", both EXEC, and a load of 2.
    While the stop flag is unset "timerQue" does not reach TERM, and
    "Wake" does not reach TERM as long as [consumeWakeUp] returns no
    negative value. *)
Theorem constructor_helpers caller this :
  (exists p,
     new caller None this = Ok (p, Some this) /\
     runnableCoQue_ p = [0; 1] /\
     coros p !! 0 = Some (mkCoroutine EXEC "Wake" CbWake) /\
     coros p !! 1 = Some (mkCoroutine EXEC "timerQue" CbTimerQue) /\
     load_ p = 2%Z /\ stop_ p = false) /\
  (forall obs, Forall (fun s => s = false) obs ->
     stateAfter (timerQueBody obs) <> TERM) /\
  (forall obs,
     Forall (fun o : bool * Z => o.1 = false /\ (0 <= o.2)%Z) obs ->
     stateAfter (wakeBody obs) <> TERM).
Proof.
  split; [|split].
  - eexists. split; [reflexivity|]. by_eval.
  - intros obs H. by rewrite timerQueBody_looping.
  - intros obs H. by rewrite wakeBody_looping.
Qed.

End ProcessorProofs.

Section SchedulerProofs.
Import Scheduler.

(** ** Scheduler: frames *)

Lemma onProc_Ok w f s s' :
  onProc w f s = Ok s' ->
  exists p, procs s !! w = Some p /\ s' = set_procs (<[w := f p]> (procs s)) s.
Proof.
  unfold onProc. destruct (procs s !! w) as [p|]; [|discriminate].
  intros [= <-]. eauto.
Qed.

Lemma onProc_live w f s :
  is_Some (procs s !! w) -> exists s', onProc w f s = Ok s'.
Proof. intros [p Hp]. unfold onProc. rewrite Hp. eauto. Qed.

(** ** Round-robin *)

Lemma pick_workers s w :
  workProcVec_ s !! index s = Some w ->
  pickOneProcesser s =
    Ok (Some w, set_index (S (index s) mod length (workProcVec_ s)) s).
Proof.
  intros Hw. unfold pickOneProcesser.
  assert (Hne : workProcVec_ s <> []) by (intros Hnil; by rewrite Hnil in Hw).
  rewrite (bool_decide_eq_false_2 _ Hne). simpl. by rewrite Hw.
Qed.


Lemma pick_none s :
  workProcVec_ s = [] -> mainProc_ s = None ->
  pickOneProcesser s = Fatal "start scheduler first".
Proof.
  intros Hnil Hm. unfold pickOneProcesser. rewrite Hnil, Hm.
  by rewrite !bool_decide_eq_true_2.
Qed.

Lemma wf_set_index i s :
  wf s -> i < max 1 (length (workProcVec_ s)) -> wf (set_index i s).
Proof. intros [] Hi. by constructor. Qed.

Lemma length_nonempty {A} (l : list A) : l <> [] -> 0 < length l.
Proof. destruct l; simpl; [done | lia]. Qed.

Lemma wf_onProc w f s s' : onProc w f s = Ok s' -> wf s -> wf s'.
Proof.
  intros H [Hnd Hlive Hb Hidx Hmain Hrun].
  apply onProc_Ok in H as (p & Hp & ->). constructor; simpl; try done.
  - intros w' Hw'. rewrite lookup_insert. case_decide; [eauto | by apply Hlive].
  - intros w' Hw'. apply Hb. rewrite lookup_insert in Hw'.
    case_decide; [subst; eauto | done].
  - intros m Hm. destruct (Hmain m Hm) as [? ?]. split; [done|].
    rewrite lookup_insert. case_decide; [eauto | done].
Qed.

Lemma mod_lt_length (k i : nat) : k <> 0 -> S i mod k < k.
Proof. intros Hk. apply Nat.mod_upper_bound. done. Qed.

(** One submission: the task goes to the worker at the index, which then
    moves on cyclically. *)
Lemma addTask_step task name s :
  wf s -> workProcVec_ s <> [] ->
  exists w s',
    workProcVec_ s !! index s = Some w /\
    addTask task name s = Ok s' /\ wf s' /\
    workProcVec_ s' = workProcVec_ s /\
    index s' = S (index s) mod length (workProcVec_ s) /\
    forall w', pendingOf w' s' =
      pendingOf w' s ++ (if bool_decide (w' = w) then [(task, name)] else []).
Proof.
  intros Hwf Hne. pose proof (wf_index s Hwf) as Hlt.
  apply length_nonempty in Hne.
  destruct (lookup_lt_is_Some_2 (workProcVec_ s) (index s)) as [w Hw]; [lia|].
  pose proof (pick_workers s w Hw) as Hpick.
  assert (Hlive : is_Some (procs s !! w)).
  { apply (wf_live s Hwf). eapply list_elem_of_lookup_2. exact Hw. }
  destruct Hlive as [p Hp].
  exists w. eexists. split; [done|]. unfold addTask. rewrite Hpick. simpl.
  unfold onProc. simpl. rewrite Hp. split; [done|].
  split; [|split; [done|split; [done|]]].
  - eapply (wf_onProc w (Processor.addPendingTask task name)
              (set_index (S (index s) mod length (workProcVec_ s)) s)).
    + unfold onProc. simpl. by rewrite Hp.
    + apply wf_set_index; [done|].
      pose proof (mod_lt_length (length (workProcVec_ s)) (index s)). lia.
  - intros w'. unfold pendingOf. simpl. rewrite lookup_insert.
    case_decide as Hd.
    + subst w'. rewrite Hp, bool_decide_eq_true_2 by done. simpl.
      unfold Processor.addPendingTask, Processor.wakeupEpollCo. done.
    + rewrite bool_decide_eq_false_2 by congruence. by rewrite app_nil_r.
Qed.





Lemma submitAll_shares tasks s :
  wf s -> workProcVec_ s <> [] ->
  exists s',
    submitAll tasks s = Ok s' /\ wf s' /\
    workProcVec_ s' = workProcVec_ s /\
    forall j w, workProcVec_ s !! j = Some w ->
      pendingOf w s' =
        pendingOf w s ++ share j (index s) (length (workProcVec_ s)) tasks.
Proof.
  revert s. induction tasks as [|t tasks IH]; intros s Hwf Hne; simpl.
  - exists s. split; [done|]. split; [done|]. split; [done|].
    intros j w _. by rewrite app_nil_r.
  - destruct (addTask_step t.1 t.2 s Hwf Hne)
      as (wi & s1 & Hwi & -> & Hwf1 & Hvec1 & Hidx1 & Hpend1).
    simpl. destruct (IH s1 Hwf1) as (s' & -> & Hwf' & Hvec' & Hpend');
      [by rewrite Hvec1|].
    exists s'. split; [done|]. split; [done|]. split; [congruence|].
    intros j w Hw. rewrite (Hpend' j w) by (by rewrite Hvec1).
    rewrite Hpend1, Hvec1, Hidx1, <- app_assoc. f_equal. f_equal.
    destruct t as [task name]. simpl.
    destruct (decide (index s = j)) as [<-|Hij].
    + assert (w = wi) by congruence. subst.
      by rewrite !bool_decide_eq_true_2.
    + rewrite !bool_decide_eq_false_2; [done..|].
      intros ->. apply Hij.
      eapply (NoDup_lookup (workProcVec_ s)); eauto using wf_nodup.
Qed.


(** ** [start] builds a well-formed Scheduler *)

Lemma makeProcessor_Ok tid s this s' :
  makeProcessor tid s = Ok (this, s') ->
  this = nextProc s /\ nextProc s' = S this /\
  (exists p, procs s' = <[this := p]> (procs s)) /\
  mainProc_ s' = mainProc_ s /\ workProcVec_ s' = workProcVec_ s /\
  workThreadVec_ s' = workThreadVec_ s /\ index s' = index s /\
  running_ s' = running_ s /\ threadNum_ s' = threadNum_ s.
Proof.
  unfold makeProcessor. intros H. bind_inv H. injection H as <- <-.
  destruct r.2; simpl; repeat split; eauto.
Qed.

Lemma wf_new caller tp n s : new caller tp n = Ok s -> wf s.
Proof.
  unfold new. destruct (tp !! caller); [discriminate|]. intros [= <-].
  constructor; simpl; try done.
  - apply NoDup_nil_2.
  - intros w Hw. by apply elem_of_nil in Hw.
  - intros w [p Hp]. by rewrite lookup_empty in Hp.
  - lia.
Qed.

Lemma wfWorkers_makeProcessor tid s this s' :
  makeProcessor tid s = Ok (this, s') -> wfWorkers s ->
  wfWorkers s' /\ is_Some (procs s' !! this) /\ this ∉ workProcVec_ s'.
Proof.
  intros H [Hnd Hlive Hb Hidx].
  apply makeProcessor_Ok in H
    as (-> & Hnext & [p Hprocs] & _ & Hvec & _ & Hi & _).
  split; [constructor|split].
  - by rewrite Hvec.
  - intros w Hw. rewrite Hvec in Hw. rewrite Hprocs, lookup_insert.
    case_decide; [eauto | by apply Hlive].
  - intros w Hw. rewrite Hprocs, lookup_insert in Hw. rewrite Hnext.
    case_decide; [lia|]. apply Hb in Hw. lia.
  - by rewrite Hvec, Hi.
  - rewrite Hprocs, lookup_insert_eq. eauto.
  - rewrite Hvec. intros Hin. apply Hlive, Hb in Hin. lia.
Qed.

Lemma spawnWorkers_wf n s s' :
  spawnWorkers n s = Ok s' -> wfWorkers s ->
  wfWorkers s' /\ mainProc_ s' = mainProc_ s /\ running_ s' = running_ s /\
  nextProc s <= nextProc s' /\
  (forall w, is_Some (procs s !! w) -> is_Some (procs s' !! w)) /\
  (forall w, w ∈ workProcVec_ s' -> w ∈ workProcVec_ s \/ nextProc s <= w).
Proof.
  revert s. induction n as [|n IH]; simpl; intros s H Hwf.
  - injection H as <-. conj_split; auto.
  - bind_inv H. unfold startProcess in Hstep. bind_inv Hstep.
    injection Hstep as <-. destruct r0 as [this s1]. simpl in *.
    pose proof Hstep0 as Hmk.
    apply wfWorkers_makeProcessor in Hmk as (Hwf1 & Hlive1 & Hfresh1).
    2: { destruct Hwf. by constructor. }
    apply makeProcessor_Ok in Hstep0
      as (-> & Hnext & [p Hprocs] & Hmain & Hvec & _ & Hi & Hrun & _).
    simpl in *.
    apply IH in H as (Hwf' & Hmain' & Hrun' & Hnext' & Hmono & Hnew).
    2: { destruct Hwf1 as [Hnd Hlive Hb Hidx]. constructor; simpl.
         - apply NoDup_app. split; [done|]. split; [|apply NoDup_singleton].
           intros w Hw Hw'. apply list_elem_of_singleton in Hw' as ->. done.
         - intros w Hw. apply elem_of_app in Hw as [Hw|Hw]; [by apply Hlive|].
           apply list_elem_of_singleton in Hw as ->. done.
         - done.
         - rewrite length_app. simpl. lia. }
    simpl in *. split; [done|]. split; [congruence|]. split; [congruence|].
    split; [lia|]. split.
    + intros w Hw. apply Hmono. rewrite Hprocs, lookup_insert.
      case_decide; [eauto | done].
    + intros w Hw. apply Hnew in Hw as [Hw|Hw]; [|right; lia].
      apply elem_of_app in Hw as [Hw|Hw]; [left; by rewrite <- Hvec|].
      apply list_elem_of_singleton in Hw as ->. right. lia.
Qed.

Lemma wf_workers s : wf s -> wfWorkers s.
Proof. intros []. by constructor. Qed.

Lemma wf_start caller s s' : start caller s = Ok s' -> wf s -> wf s'.
Proof.
  unfold start. destruct (running_ s) eqn:Hrun; [by intros [= <-]|].
  intros H Hwf. bind_inv H. bind_inv H. injection H as <-.
  destruct r as [this s1]. simpl in *. pose proof Hstep as Hmk.
  apply wfWorkers_makeProcessor in Hmk as (Hwf1 & Hlive1 & Hfresh1);
    [|by apply wf_workers].
  apply makeProcessor_Ok in Hstep as (-> & Hnext & _).
  apply spawnWorkers_wf in Hstep0
    as ([Hnd Hlive Hb Hidx] & Hmain & _ & _ & Hmono & Hnew).
  2: { destruct Hwf1. by constructor. }
  simpl in *. constructor; simpl; try done.
  intros m Hm. rewrite Hmain in Hm. injection Hm as <-. split; [|auto].
  intros Hin. apply Hnew in Hin as [Hin|Hin]; [done | lia].
Qed.

(** ** Stopping and joining *)

Lemma stop_sets_flag p : Processor.stop_ (Processor.stop p) = true.
Proof.
  unfold Processor.stop, Processor.wakeupEpollCo. by destruct (isEpolling _).
Qed.



Lemma foldl_join who ts s :
  let s' := foldl (fun s t => emit (SevJoin who t) s) s ts in
  shistory s' = shistory s ++ map (SevJoin who) ts /\
  quit_ s' = quit_ s /\ procs s' = procs s /\ running_ s' = running_ s /\
  mainProc_ s' = mainProc_ s /\ workProcVec_ s' = workProcVec_ s /\
  index s' = index s /\ nextProc s' = nextProc s.
Proof.
  revert s. induction ts as [|t ts IH]; intros s; simpl.
  - by rewrite app_nil_r.
  - destruct (IH (emit (SevJoin who t) s)) as (Hh & Hrest). simpl in *.
    split; [|done]. by rewrite Hh, <- app_assoc.
Qed.

Lemma joinThread_spec who s :
  shistory (joinThread who s) =
    shistory s ++ map (SevJoin who) (procThreads s) ++ [SevQuit who] /\
  quit_ (joinThread who s) = true /\
  procs (joinThread who s) = procs s /\
  running_ (joinThread who s) = running_ s /\
  mainProc_ (joinThread who s) = mainProc_ s /\
  workProcVec_ (joinThread who s) = workProcVec_ s /\
  index (joinThread who s) = index s /\
  nextProc (joinThread who s) = nextProc s.
Proof.
  unfold joinThread, procThreads.
  destruct (thread_ s) as [t|]; simpl;
    match goal with
    | |- context [foldl ?f ?s0 ?ts] =>
        destruct (foldl_join who ts s0) as (Hh & Hq & Hp & Hr & Hm & Hv & Hi & Hn)
    end; simpl in *; rewrite Hh; simpl;
    rewrite <- ?app_assoc; simpl; done.
Qed.



(** ** Well-formedness is kept *)

Lemma wf_fields s s' :
  workProcVec_ s' = workProcVec_ s -> procs s' = procs s ->
  nextProc s' = nextProc s -> index s' = index s ->
  mainProc_ s' = mainProc_ s -> running_ s' = running_ s ->
  wf s -> wf s'.
Proof.
  intros Hv Hp Hn Hi Hm Hr [Hnd Hlive Hb Hidx Hmain Hrun].
  constructor; rewrite ?Hv, ?Hp, ?Hn, ?Hi, ?Hm, ?Hr; done.
Qed.






Lemma procStop_shape w s s' :
  procStop w s = Ok s' -> sameShape s s' /\ (wf s -> wf s').
Proof.
  unfold procStop. intros H. bind_inv H. injection H as <-.
  pose proof Hstep as Hwf. apply onProc_Ok in Hstep as (p & Hp & ->).
  split; [done|]. intros Hs. eapply wf_onProc in Hwf; [|done].
  subst. revert Hwf. by apply wf_fields.
Qed.

Lemma sameShape_trans s1 s2 s3 :
  sameShape s1 s2 -> sameShape s2 s3 -> sameShape s1 s3.
Proof. unfold sameShape. intuition congruence. Qed.

Lemma stopProcs_shape ws s s' :
  stopProcs ws s = Ok s' -> sameShape s s' /\ (wf s -> wf s').
Proof.
  revert s. induction ws as [|w ws IH]; simpl; intros s H.
  - injection H as <-. done.
  - bind_inv H. apply procStop_shape in Hstep as [Hsh1 Hwf1].
    apply IH in H as [Hsh2 Hwf2]. split; [|auto].
    eauto using sameShape_trans.
Qed.

Lemma stop_shape caller hook helper s s' :
  stop caller hook helper s = Ok s' -> running_ s = true ->
  mainProc_ s' = None /\ workProcVec_ s' = workProcVec_ s.
Proof.
  unfold stop. intros H Hrun. rewrite Hrun in H. simpl in H.
  destruct (mainProc_ s) as [m|]; [|discriminate].
  bind_inv H. bind_inv H.
  apply procStop_shape in Hstep as [(Hv1 & _) _].
  apply stopProcs_shape in Hstep0 as [(Hv2 & _ & _ & _ & _ & _ & Hm2 & _) _].
  simpl in *. destruct hook; injection H as <-.
  - simpl. split; [done | congruence].
  - destruct (joinThread_spec caller r0) as (_ & _ & _ & _ & -> & -> & _).
    split; [done | congruence].
Qed.


(** ** Submitting without a Processor *)

Lemma unstarted_no_processor s :
  unstarted s -> mainProc_ s = None /\ workProcVec_ s = [].
Proof.
  induction 1 as [caller tp n s H | n s _ IH
                 | caller hook helper s s' Hrun Hnil H | who s _ IH].
  - unfold new in H. destruct (tp !! caller); [discriminate|].
    by injection H as <-.
  - done.
  - apply stop_shape in H as [? ?]; [|done]. split; congruence.
  - destruct (joinThread_spec who s) as (_ & _ & _ & _ & -> & -> & _). done.
Qed.

(** C10.  Before [start], and after [stop] when there are no workers,
    [pickOneProcesser] ends in the fatal error "start scheduler first";
    so do [addTask], [runAt], [runAfter] and [runEvery], which queue
    nothing. *)
Theorem submit_without_processor s task name when now delay interval payload :
  unstarted s ->
  pickOneProcesser s = Fatal "start scheduler first" /\
  addTask task name s = Fatal "start scheduler first" /\
  runAt when payload s = Fatal "start scheduler first" /\
  runAfter now delay payload s = Fatal "start scheduler first" /\
  runEvery now interval payload s = Fatal "start scheduler first".
Proof.
  intros Hs. apply unstarted_no_processor in Hs as [Hm Hv].
  pose proof (pick_none s Hv Hm) as Hpick.
  unfold addTask, runAfter, runAt, runEvery. rewrite Hpick. done.
Qed.

Lemma s_fresh_eq : new 0 ∅ 4 = Ok s_fresh.
Proof. vm_compute. reflexivity. Qed.

Lemma s_started_eq : start 0 s_fresh = Ok s_started.
Proof. vm_compute. reflexivity. Qed.

(** C10, witness: a Scheduler that was made and not started. *)
Lemma submit_without_processor_witness :
  unstarted s_fresh /\
  addTask (CbUser 0) "a" s_fresh = Fatal "start scheduler first".
Proof.
  assert (H : unstarted s_fresh) by exact (un_new 0 ∅ 4 s_fresh s_fresh_eq).
  split; [exact H|].
  exact (proj1 (proj2 (submit_without_processor s_fresh (CbUser 0) "a"
                         0%Z 0%Z 0%Z 0%Z (TimerCo 0) H))).
Defined.

(** ** A started Scheduler *)

Lemma wf_s_started : wf s_started.
Proof.
  exact (wf_start 0 s_fresh s_started s_started_eq
           (wf_new 0 ∅ 4 s_fresh s_fresh_eq)).
Qed.



End SchedulerProofs.

Section ProcessorMore.
Import Processor.

(** ** Which coroutine a task gets *)

(** One [addTask(cb, name)] under the invariant of the idle list: the task
    gets the head of the idle list, or a new coroutine when the list is
    empty; that coroutine is overwritten with the task and enqueued. *)
Lemma addTask_shell cb name p :
  idleInv p ->
  exists p', addTask cb name p = Ok p' /\ idleInv p' /\
    runnableCoQue_ p' = runnableCoQue_ p ++ [hd (nextCo p) (idleCoQue_ p)] /\
    idleCoQue_ p' = tail (idleCoQue_ p) /\
    nextCo p' = nextCo p + (1 - length (idleCoQue_ p)) /\
    coros p' = <[hd (nextCo p) (idleCoQue_ p) := mkCoroutine EXEC name cb]>
                 (coros p) /\
    load_ p' = wrap (load_ p + 1) /\
    pendingTasks_ p' = pendingTasks_ p /\ stop_ p' = stop_ p /\
    addingPendingTasks_ p' = addingPendingTasks_ p.
Proof.
  intros Hp.
  destruct (idleInv_addTask cb name p Hp) as (p' & Hadd & Hp' & _).
  exists p'. split; [done|]. split; [done|].
  revert Hadd. unfold addTask, resetAndGetCo.
  destruct (idleCoQue_ p) as [|c rest] eqn:Hidle; simpl.
  - intros [= <-]. unfold addTaskCo, wakeupEpollCo.
    destruct (isEpolling _); simpl; rewrite ?Hidle;
      (split; [done|]); (split; [done|]); (split; [lia|]);
      (split; [by rewrite alter_insert_eq|]);
      done.
  - unfold reset. change (coros (set_idle rest p)) with (coros p).
    destruct (coros p !! c) as [co|] eqn:Hco; [|discriminate].
    simpl. unfold co_reset. destruct (co_state co); simpl; try discriminate;
      intros [= <-]; unfold addTaskCo, wakeupEpollCo;
      destruct (isEpolling _); simpl; rewrite ?Hidle;
      (split; [done|]); (split; [done|]); (split; [lia|]);
      (split; [by rewrite !alter_insert_eq|]); done.
Qed.

Lemma shells_cons n p p1 :
  idleCoQue_ p1 = tail (idleCoQue_ p) ->
  nextCo p1 = nextCo p + (1 - length (idleCoQue_ p)) ->
  shells (S n) p = hd (nextCo p) (idleCoQue_ p) :: shells n p1.
Proof.
  unfold shells. intros -> ->. destruct (idleCoQue_ p) as [|c rest]; simpl.
  - rewrite take_nil, Nat.sub_0_r. simpl. do 2 f_equal. lia.
  - do 3 f_equal. lia.
Qed.

Lemma shells_bound n p c :
  c ∈ shells n p -> c ∈ idleCoQue_ p \/ nextCo p <= c.
Proof.
  intros Hc. unfold shells in Hc. apply elem_of_app in Hc as [Hc|Hc].
  - left. by apply (subseteq_take n).
  - right. apply elem_of_seq in Hc. lia.
Qed.

Lemma idle_below p c : idleInv p -> c ∈ idleCoQue_ p -> c < nextCo p.
Proof.
  intros [Hh [_ Hall]] Hc. rewrite Forall_forall in Hall.
  apply Hall, getState_is_Some, Hh in Hc. done.
Qed.

Lemma wrap_add_l a b : wrap (wrap a + b) = wrap (a + b).
Proof. unfold wrap. apply Zplus_mod_idemp_l. Qed.

(** The first shell is none of the later ones. *)
Lemma shells_head_fresh n p p1 :
  idleInv p ->
  idleCoQue_ p1 = tail (idleCoQue_ p) ->
  nextCo p1 = nextCo p + (1 - length (idleCoQue_ p)) ->
  hd (nextCo p) (idleCoQue_ p) ∉ shells n p1.
Proof.
  intros Hp Hidle Hnext Hin. apply shells_bound in Hin.
  rewrite Hidle, Hnext in Hin.
  destruct (idleCoQue_ p) as [|c rest] eqn:Hq; simpl in *.
  - destruct Hin as [Hin|Hin]; [by apply elem_of_nil in Hin | lia].
  - destruct Hin as [Hin|Hin].
    + destruct Hp as [_ [Hnd _]]. rewrite Hq in Hnd.
      apply NoDup_cons in Hnd as [Hc _]. done.
    + assert (c < nextCo p) by (apply idle_below; [done | rewrite Hq; left]).
      lia.
Qed.

(** A list of tasks added one after the other. *)
Lemma addTasks_shells tasks p :
  idleInv p ->
  exists p', addTasks tasks p = Ok p' /\ idleInv p' /\
    runnableCoQue_ p' = runnableCoQue_ p ++ shells (length tasks) p /\
    idleCoQue_ p' = drop (length tasks) (idleCoQue_ p) /\
    nextCo p' = nextCo p + (length tasks - length (idleCoQue_ p)) /\
    NoDup (shells (length tasks) p) /\
    (forall i c t, shells (length tasks) p !! i = Some c ->
       tasks !! i = Some t ->
       coros p' !! c = Some (mkCoroutine EXEC t.2 t.1)) /\
    (forall c, c ∉ shells (length tasks) p -> coros p' !! c = coros p !! c) /\
    wrap (load_ p') = wrap (load_ p + Z.of_nat (length tasks)) /\
    pendingTasks_ p' = pendingTasks_ p /\ stop_ p' = stop_ p /\
    addingPendingTasks_ p' = addingPendingTasks_ p.
Proof.
  revert p. induction tasks as [|t tasks IH]; intros p Hp.
  - exists p. simpl. unfold shells. simpl. rewrite ?take_0, ?drop_0, ?app_nil_r.
    split; [done|]. split; [done|]. split; [done|]. split; [done|].
    split; [lia|]. split; [apply NoDup_nil_2|]. split; [done|].
    split; [done|]. split; [by rewrite Z.add_0_r | done].
  - destruct (addTask_shell t.1 t.2 p Hp)
      as (p1 & Hadd & Hp1 & Hq1 & Hidle1 & Hnext1 & Hco1 & Hl1 & Hpe1 & Hs1
          & Ha1).
    destruct (IH p1 Hp1)
      as (p' & Hadds & Hp' & Hq & Hidle & Hnext & Hnd & Hin & Hout & Hl
          & Hpe & Hs & Ha).
    pose proof (shells_head_fresh (length tasks) p p1 Hp Hidle1 Hnext1)
      as Hfresh.
    exists p'. simpl. rewrite Hadd. simpl. split; [done|]. split; [done|].
    rewrite (shells_cons _ p p1 Hidle1 Hnext1).
    split; [rewrite Hq, Hq1, <- app_assoc; reflexivity|].
    split.
    { rewrite Hidle, Hidle1. destruct (idleCoQue_ p); simpl;
        by rewrite ?drop_nil. }
    split.
    { rewrite Hnext, Hnext1, Hidle1. destruct (idleCoQue_ p); simpl; lia. }
    split; [by apply NoDup_cons|].
    split; [|split; [|split; [|split; [|split]]]].
    + intros [|i] c t'; simpl.
      * intros [= <-] [= <-]. rewrite (Hout _ Hfresh), Hco1.
        by rewrite lookup_insert_eq.
      * apply Hin.
    + intros c Hc. apply not_elem_of_cons in Hc as [Hne Hc].
      rewrite (Hout c Hc), Hco1. by rewrite lookup_insert_ne.
    + rewrite Hl, Hl1, wrap_add_l. f_equal. lia.
    + congruence.
    + congruence.
    + congruence.
Qed.

Lemma length_shells n p : length (shells n p) = n.
Proof. unfold shells. rewrite length_app, length_take, length_seq. lia. Qed.

(** The drain under the invariant of the idle list. *)
Lemma drain_shells p :
  idleInv p ->
  exists p', addPendingTasksIntoQueue p = Ok p' /\ idleInv p' /\
    runnableCoQue_ p' =
      runnableCoQue_ p ++ shells (length (pendingTasks_ p)) p /\
    idleCoQue_ p' = drop (length (pendingTasks_ p)) (idleCoQue_ p) /\
    nextCo p' =
      nextCo p + (length (pendingTasks_ p) - length (idleCoQue_ p)) /\
    NoDup (shells (length (pendingTasks_ p)) p) /\
    (forall i c t, shells (length (pendingTasks_ p)) p !! i = Some c ->
       pendingTasks_ p !! i = Some t ->
       coros p' !! c = Some (mkCoroutine EXEC t.2 t.1)) /\
    (forall c, c ∉ shells (length (pendingTasks_ p)) p ->
       coros p' !! c = coros p !! c) /\
    wrap (load_ p') = wrap (load_ p + Z.of_nat (length (pendingTasks_ p))) /\
    pendingTasks_ p' = [] /\ stop_ p' = stop_ p /\
    addingPendingTasks_ p' = false.
Proof.
  intros Hp. unfold addPendingTasksIntoQueue.
  set (p0 := emit EvUnlock (emit EvPendingSwap (set_pending []
               (emit EvLock (set_adding true p))))).
  assert (Hp0 : idleInv p0) by (revert Hp; by apply idleInv_same).
  destruct (addTasks_shells (pendingTasks_ p) p0 Hp0)
    as (p1 & Hadds & Hp1 & Hq & Hidle & Hnext & Hnd & Hin & Hout & Hl
        & Hpe & Hs & Ha).
  change (pendingTasks_ (emit EvLock (set_adding true p)))
    with (pendingTasks_ p).
  fold p0. rewrite Hadds. simpl.
  exists (set_adding false p1). split; [done|].
  split; [revert Hp1; by apply idleInv_same|].
  change (shells (length (pendingTasks_ p)) p0)
    with (shells (length (pendingTasks_ p)) p) in *.
  simpl in *. done.
Qed.

Lemma heapOk_check p :
  map_Forall (fun c _ => c < nextCo p) (coros p) -> heapOk p.
Proof. intros H c [co Hco]. exact (H c co Hco). Qed.

Lemma idleInv_p_backlog : heapOk p_backlog /\ idleOk p_backlog.
Proof.
  split; [|split].
  - apply heapOk_check.
    assert (H : bool_decide (map_Forall (fun c (_ : Coroutine) =>
                  c < nextCo p_backlog) (coros p_backlog)) = true)
      by (vm_compute; reflexivity).
    by apply bool_decide_eq_true in H.
  - vm_compute. apply NoDup_singleton.
  - apply Forall_singleton. vm_compute. reflexivity.
Qed.

(** X1.  The drain gives the pending tasks the shells of the idle list
    first, from its head and in the order of the tasks, and makes new
    coroutines only for the tasks that are left when the list is used up:
    the runnable queue grows by exactly these coroutines, the idle list
    loses the shells taken, and with enough shells no coroutine object is
    created. *)
Theorem drain_reuses_idle_shells p :
  heapOk p -> idleOk p ->
  exists p', addPendingTasksIntoQueue p = Ok p' /\
    runnableCoQue_ p' =
      runnableCoQue_ p ++ take (length (pendingTasks_ p)) (idleCoQue_ p) ++
      seq (nextCo p) (length (pendingTasks_ p) - length (idleCoQue_ p)) /\
    idleCoQue_ p' = drop (length (pendingTasks_ p)) (idleCoQue_ p) /\
    nextCo p' =
      nextCo p + (length (pendingTasks_ p) - length (idleCoQue_ p)) /\
    (length (pendingTasks_ p) <= length (idleCoQue_ p) ->
     forall c, is_Some (coros p' !! c) <-> is_Some (coros p !! c)).
Proof.
  intros Hh Hi. assert (Hp : idleInv p) by done.
  destruct (drain_shells p Hp)
    as (p' & Hdr & _ & Hq & Hidle & Hnext & _ & Hin & Hout & _).
  exists p'. split; [done|]. split; [done|]. split; [done|].
  split; [done|]. intros Hle c.
  destruct (decide (c ∈ shells (length (pendingTasks_ p)) p)) as [Hc|Hc].
  - pose proof Hc as Hc'. apply list_elem_of_lookup_1 in Hc' as [i Hi'].
    destruct (lookup_lt_is_Some_2 (pendingTasks_ p) i) as [t Ht].
    { apply lookup_lt_Some in Hi'. by rewrite length_shells in Hi'. }
    rewrite (Hin i c t Hi' Ht). split; [|eauto]. intros _.
    apply shells_bound in Hc as [Hc|Hc].
    + destruct Hi as [_ Hall]. rewrite Forall_forall in Hall.
      eapply getState_is_Some. by apply Hall.
    + unfold shells in Hi'. apply list_elem_of_lookup_2 in Hi'.
      apply elem_of_app in Hi' as [Hi'|Hi'].
      * apply (subseteq_take _ _ c) in Hi'.
        destruct Hi as [_ Hall]. rewrite Forall_forall in Hall.
        eapply getState_is_Some. by apply Hall.
      * apply elem_of_seq in Hi'. lia.
  - by rewrite (Hout c Hc).
Qed.

(** X1, witness: one shell is idle and three tasks are pending; the first
    task gets the shell, the other two get new coroutines. *)
Lemma drain_reuses_idle_shells_witness :
  heapOk p_backlog /\ idleOk p_backlog /\
  idleCoQue_ p_backlog = [2] /\ nextCo p_backlog = 4 /\
  exists p', addPendingTasksIntoQueue p_backlog = Ok p' /\
    runnableCoQue_ p' = [2; 4; 5] /\ idleCoQue_ p' = [] /\ nextCo p' = 6.
Proof.
  destruct idleInv_p_backlog as [Hh Hi].
  split; [exact Hh|]. split; [exact Hi|].
  split; [vm_compute; reflexivity|]. split; [vm_compute; reflexivity|].
  destruct (drain_reuses_idle_shells p_backlog Hh Hi)
    as (p' & Hdr & Hq & Hidle & Hnext & _).
  exists p'. split; [exact Hdr|].
  rewrite Hq, Hidle, Hnext. by_eval.
Defined.

(** X2.  The drain turns every pending task into one coroutine of its
    own: the coroutines appended to the runnable queue are pairwise
    distinct, as many as there were tasks, and the one at position [i] is
    in state EXEC and carries the callback and the name of the task at
    position [i]; no other coroutine changes.  The load counter goes up by
    the number of tasks, the pending buffer is empty afterwards, and the
    stop flag is as before. *)
Theorem drain_installs_tasks p :
  heapOk p -> idleOk p ->
  exists p' cs, addPendingTasksIntoQueue p = Ok p' /\
    runnableCoQue_ p' = runnableCoQue_ p ++ cs /\
    NoDup cs /\ length cs = length (pendingTasks_ p) /\
    (forall i c t, cs !! i = Some c -> pendingTasks_ p !! i = Some t ->
       coros p' !! c = Some (mkCoroutine EXEC t.2 t.1)) /\
    (forall c, c ∉ cs -> coros p' !! c = coros p !! c) /\
    wrap (load_ p') = wrap (load_ p + Z.of_nat (length (pendingTasks_ p))) /\
    pendingTasks_ p' = [] /\ addingPendingTasks_ p' = false /\
    stop_ p' = stop_ p.
Proof.
  intros Hh Hi. assert (Hp : idleInv p) by done.
  destruct (drain_shells p Hp)
    as (p' & Hdr & _ & Hq & _ & _ & Hnd & Hin & Hout & Hl & Hpe & Hs & Ha).
  exists p', (shells (length (pendingTasks_ p)) p).
  split; [done|]. split; [done|]. split; [done|].
  split; [apply length_shells|]. done.
Qed.

(** X2, witness: the three pending tasks "x", "y" and "z". *)
Lemma drain_installs_tasks_witness :
  heapOk p_backlog /\ idleOk p_backlog /\
  pendingTasks_ p_backlog =
    [(CbUser 3, "x"); (CbUser 4, "y"); (CbUser 5, "z")] /\
  exists p', addPendingTasksIntoQueue p_backlog = Ok p' /\
    coros p' !! 2 = Some (mkCoroutine EXEC "x" (CbUser 3)) /\
    coros p' !! 4 = Some (mkCoroutine EXEC "y" (CbUser 4)) /\
    coros p' !! 5 = Some (mkCoroutine EXEC "z" (CbUser 5)) /\
    pendingTasks_ p' = [].
Proof.
  destruct idleInv_p_backlog as [Hh Hi].
  split; [exact Hh|]. split; [exact Hi|]. split; [vm_compute; reflexivity|].
  destruct (drain_installs_tasks p_backlog Hh Hi)
    as (p' & cs & Hdr & _ & _ & _ & _ & _ & _ & Hpe & _).
  exists p'. split; [exact Hdr|].
  assert (Hev : addPendingTasksIntoQueue p_backlog = Ok p') by exact Hdr.
  vm_compute in Hev. injection Hev as <-. by_eval.
Defined.

(** ** A stop request before [run] *)

(** X3.  [run] clears the stop flag when it is entered, so a [stop] that
    comes before [run] is forgotten: on a Processor that is not polling,
    [run] after [stop] behaves as [run] without it, and it does not return
    unless [stop] is called again during the run. *)
Theorem stop_before_run_is_lost caller script p :
  isEpolling (epoll_ p) = false ->
  stop_ (stop p) = true /\
  run caller script (stop p) = run caller script p /\
  (Forall (fun r => ActStop ∉ sr_actions r) script ->
   forall p', run caller script (stop p) <> Some (Ok p')).
Proof.
  intros Hep.
  assert (Hstop : stop p = set_stop true p).
  { unfold stop. cbv zeta.
    change (epoll_ (set_stop true p)) with (epoll_ p). by rewrite Hep. }
  split; [by rewrite Hstop|].
  assert (Hrun : run caller script (stop p) = run caller script p).
  { rewrite Hstop, !run_unfold. reflexivity. }
  split; [exact Hrun|].
  intros Hno p'. rewrite Hrun, run_unfold.
  destruct (isInProcThread caller p); [|discriminate].
  by apply runLoop_goes_on.
Qed.

(** X3, witness: [stop] right after construction; the run is still going
    after three swap-ins. *)
Lemma stop_before_run_is_lost_witness :
  isEpolling (epoll_ p_new) = false /\
  stop_ (stop p_new) = true /\
  run 7 [quiet HOLD; quiet HOLD; quiet HOLD] (stop p_new) = None.
Proof.
  assert (Hep : isEpolling (epoll_ p_new) = false) by (vm_compute; reflexivity).
  split; [exact Hep|].
  destruct (stop_before_run_is_lost 7 [quiet HOLD; quiet HOLD; quiet HOLD]
              p_new Hep) as (Hflag & Hrun & _).
  split; [exact Hflag|]. rewrite Hrun. vm_compute. reflexivity.
Defined.

(** ** How [run] ends *)

Lemma do_action_queues a p p' :
  do_action a p = Ok p' ->
  pendingTasks_ p' = pendingTasks_ p ++ option_list (appendedBy a) /\
  length (runnableCoQue_ p') =
    length (runnableCoQue_ p) + (if isSubmit a then 1 else 0).
Proof.
  destruct a; simpl; intros H; try (injection H as <-); simpl;
    rewrite ?app_nil_r, ?Nat.add_0_r; try done.
  - by rewrite pending_addTaskCo, runnable_addTaskCo, length_app.
  - apply addTask_queue in H as [Hp [c Hc]].
    by rewrite Hp, Hc, length_app.
  - unfold stop, wakeupEpollCo. by destruct (isEpolling _).
Qed.

Lemma do_actions_queues acts p p' :
  do_actions acts p = Ok p' ->
  pendingTasks_ p' = pendingTasks_ p ++ appended acts /\
  length (runnableCoQue_ p') = length (runnableCoQue_ p) + submits acts.
Proof.
  revert p. induction acts as [|a acts IH]; simpl; intros p H.
  - injection H as <-. unfold appended, submits. simpl.
    by rewrite app_nil_r, Nat.add_0_r.
  - bind_inv H. apply do_action_queues in Hstep as [Hp Hq].
    apply IH in H as [Hp' Hq']. rewrite Hp', Hq', Hp, Hq.
    unfold appended, submits. simpl. rewrite filter_cons.
    destruct a; simpl; rewrite <- ?app_assoc, ?app_nil_r; split;
      try done; simpl; lia.
Qed.

Lemma swapIn_queues c r p p' :
  swapIn c r p = Ok p' ->
  pendingTasks_ p' = pendingTasks_ p ++ appended (sr_actions r) /\
  length (runnableCoQue_ p') =
    length (runnableCoQue_ p) + submits (sr_actions r).
Proof.
  unfold swapIn. intros H.
  destruct (getState c p) as [[]|]; try discriminate;
    bind_inv H; injection H as <-;
    apply do_actions_queues in Hstep as [Hp Hq]; simpl in *; done.
Qed.

(** The state in which the loop of [run] ends, and the entry of the script
    that the last swap-in takes. *)
Lemma runLoop_exit script e p p' :
  runLoop script e p = Some (Ok p') ->
  exists pre r post p1,
    script = pre ++ r :: post /\ passes pre e p = Ok p1 /\
    loopCond p1 = false /\ (pre <> [] -> pendingTasks_ p1 = []) /\
    swapIn e r p1 = Ok p'.
Proof.
  revert p. induction script as [|r0 script IH]; simpl; intros p H;
    [done|].
  destruct (loopCond p) eqn:Hcond.
  - destruct (iteration e r0 p) as [p2|] eqn:Hit; [|done].
    apply IH in H as (pre & r & post & p1 & -> & Hpass & Hend & Hpend & Hsw).
    exists (r0 :: pre), r, post, p1. simpl. rewrite Hcond, Hit. simpl.
    split; [done|]. split; [done|]. split; [done|]. split; [|done].
    intros _. destruct pre as [|r1 pre]; [|by apply Hpend].
    simpl in Hpass. injection Hpass as <-.
    unfold iteration in Hit. bind_inv Hit.
    by apply drain_spec in Hit as [Hit _].
  - injection H as H. exists [], r0, script, p. simpl. done.
Qed.

(** X4.  [run] returns from a state in which the stop flag is set and the
    runnable queue is empty, and its last act is one more swap-in of the
    epoll coroutine, after which nothing is drained or run: the tasks
    that [addPendingTask] appends during that swap-in are still in the
    pending buffer when [run] returns, and the coroutines enqueued during
    it are still in the runnable queue. *)
Theorem run_returns_without_a_last_drain script e p p' :
  runLoop script e p = Some (Ok p') ->
  exists pre r post p1,
    script = pre ++ r :: post /\ passes pre e p = Ok p1 /\
    stop_ p1 = true /\ runnableCoQue_ p1 = [] /\
    (pre <> [] -> pendingTasks_ p1 = []) /\
    swapIn e r p1 = Ok p' /\
    pendingTasks_ p' = pendingTasks_ p1 ++ appended (sr_actions r) /\
    length (runnableCoQue_ p') = submits (sr_actions r).
Proof.
  intros H.
  apply runLoop_exit in H as (pre & r & post & p1 & Hs & Hpass & Hend & Hpe
                              & Hsw).
  apply loopCond_false in Hend as [Hstop Hq].
  exists pre, r, post, p1. split; [done|]. split; [done|]. split; [done|].
  split; [done|]. split; [done|]. split; [done|].
  apply swapIn_queues in Hsw as [Hp' Hq']. split; [done|].
  by rewrite Hq', Hq.
Qed.

(** X4, witness: after [stop] the two queued coroutines are run; during
    the last swap-in a task arrives and a coroutine is resumed, and both
    are left behind. *)
Lemma run_returns_without_a_last_drain_witness :
  exists p', runLoop script_late 2 p_stopping = Some (Ok p') /\
    pendingTasks_ p' = [(CbUser 9, "late")] /\
    length (runnableCoQue_ p') = 1.
Proof.
  assert (Hrun : exists p', runLoop script_late 2 p_stopping = Some (Ok p'))
    by (eexists; vm_compute; reflexivity).
  destruct Hrun as [p' Hrun]. exists p'. split; [exact Hrun|].
  destruct (run_returns_without_a_last_drain script_late 2 p_stopping p' Hrun)
    as (pre & r & post & p1 & _).
  vm_compute in Hrun. injection Hrun as <-. by_eval.
Defined.

(** ** When the helper coroutines return *)

(** X5.  The body of "Wake" returns exactly when one of its turns finds
    the stop flag set or gets a negative value from [consumeWakeUp]; the
    body of "timerQue" returns exactly when one of its turns finds the
    stop flag set.  A short read of the eventfd, which gives a value that
    is not negative, does not end "Wake". *)
Theorem helpers_return_iff (obs : list (bool * Z)) (obs' : list bool) :
  (wakeBody obs = Returned <->
   Exists (fun o : bool * Z => o.1 = true \/ (o.2 < 0)%Z) obs) /\
  (timerQueBody obs' = Returned <-> Exists (fun s => s = true) obs') /\
  (forall n rest, (0 <= n)%Z ->
     wakeBody ((false, n) :: rest) = wakeBody rest).
Proof.
  split; [|split].
  - induction obs as [|[s n] obs IH]; simpl.
    + split; [done|]. intros H. by apply Exists_nil in H.
    + rewrite Exists_cons. simpl. unfold consumeWakeUp.
      destruct s; [split; auto|].
      destruct (Z.ltb_spec n 0); [split; auto|].
      rewrite IH. split; [auto|]. intros [[H1|H1]|H1]; [done|lia|done].
  - induction obs' as [|s obs' IH]; simpl.
    + split; [done|]. intros H. by apply Exists_nil in H.
    + rewrite Exists_cons. destruct s; [split; auto|].
      rewrite IH. split; [auto|]. by intros [H1|H1].
  - intros n rest Hn. simpl. unfold consumeWakeUp.
    destruct (Z.ltb_spec n 0); [lia|done].
Qed.


(** ** Wake-ups *)






End ProcessorMore.

Section SchedulerMore.
Import Scheduler.

(** ** Making Processors *)

Lemma Processor_new_Ok caller this :
  exists p, Processor.new caller None this = Ok (p, Some this) /\
    Processor.threadId_ p = caller /\ Processor.stop_ p = false /\
    Processor.pendingTasks_ p = [] /\ Processor.timerQueue_ p = [].
Proof. eexists. split; [vm_compute; reflexivity|]. by_eval. Qed.

Lemma makeProcessor_inv tid s this s' :
  makeProcessor tid s = Ok (this, s') ->
  t_proc s !! tid = None /\ this = nextProc s /\
  exists p, Processor.new tid None this = Ok (p, Some this) /\
    Processor.threadId_ p = tid /\ Processor.stop_ p = false /\
    s' = set_t_proc (<[tid := this]> (t_proc s))
           (set_nextProc (S this) (set_procs (<[this := p]> (procs s)) s)).
Proof.
  unfold makeProcessor. destruct (t_proc s !! tid) as [q|] eqn:Htp.
  - discriminate.
  - destruct (Processor_new_Ok tid (nextProc s)) as (p & Hnew & Ht & Hs & _).
    rewrite Hnew. simpl. intros [= <- <-]. split; [done|]. split; [done|].
    exists p. done.
Qed.

Lemma makeProcessor_total tid s :
  t_proc s !! tid = None -> exists s', makeProcessor tid s = Ok (nextProc s, s').
Proof.
  intros Htp. unfold makeProcessor. rewrite Htp.
  destruct (Processor_new_Ok tid (nextProc s)) as (p & Hnew & _).
  rewrite Hnew. simpl. eauto.
Qed.

(** The [for] loop of [start]: [n] workers, each on a thread of its own,
    are appended to the two vectors. *)
Lemma spawnWorkers_spec n s s' :
  spawnWorkers n s = Ok s' ->
  workProcVec_ s' = workProcVec_ s ++ seq (nextProc s) n /\
  workThreadVec_ s' = workThreadVec_ s ++ seq (nextTid s) n /\
  nextProc s' = nextProc s + n /\ nextTid s' = nextTid s + n /\
  mainProc_ s' = mainProc_ s /\ running_ s' = running_ s /\
  index s' = index s /\ quit_ s' = quit_ s /\ thread_ s' = thread_ s /\
  threadNum_ s' = threadNum_ s /\ shistory s' = shistory s /\
  (forall w, w < nextProc s -> procs s' !! w = procs s !! w) /\
  (forall t, t < nextTid s -> t_proc s' !! t = t_proc s !! t) /\
  (forall i, i < n -> exists p,
     procs s' !! (nextProc s + i) = Some p /\
     Processor.threadId_ p = nextTid s + i /\ Processor.stop_ p = false /\
     t_proc s' !! (nextTid s + i) = Some (nextProc s + i)).
Proof.
  revert s. induction n as [|n IH]; simpl; intros s H.
  - injection H as <-. rewrite !app_nil_r, !Nat.add_0_r.
    conj_split; try done. intros i Hi. lia.
  - bind_inv H. unfold startProcess in Hstep. bind_inv Hstep.
    injection Hstep as <-. destruct r0 as [this s1]. simpl in *.
    apply makeProcessor_inv in Hstep0
      as (Htp & -> & p & Hnew & Htid & Hflag & ->). simpl in *.
    apply IH in H
      as (Hv & Ht & Hnp & Hnt & Hm & Hr & Hi & Hq & Hth & Hn & Hh & Hprocs
          & Htproc & Hworkers). simpl in *.
    rewrite Hv, Ht, Hnp, Hnt, <- !app_assoc. simpl.
    conj_split; try done; try lia.
    + intros w Hw. rewrite Hprocs by lia. by rewrite lookup_insert_ne by lia.
    + intros t Hlt. rewrite Htproc by lia. by rewrite lookup_insert_ne by lia.
    + intros [|i] Hlt.
      * rewrite !Nat.add_0_r. exists p.
        rewrite Hprocs, Htproc by lia. by rewrite !lookup_insert_eq.
      * destruct (Hworkers i) as (q & Hq1 & Hq2 & Hq3 & Hq4); [lia|].
        exists q. replace (nextProc s + S i) with (S (nextProc s) + i) by lia.
        replace (nextTid s + S i) with (S (nextTid s) + i) by lia. done.
Qed.

Lemma spawnWorkers_total n s :
  tidsFresh s -> exists s', spawnWorkers n s = Ok s'.
Proof.
  revert s. induction n as [|n IH]; simpl; intros s Hs; [eauto|].
  unfold startProcess.
  destruct (makeProcessor_total (nextTid s) (set_nextTid (S (nextTid s)) s))
    as (s1 & Hmk); [by apply Hs|].
  rewrite Hmk. simpl.
  apply makeProcessor_inv in Hmk as (_ & _ & p & _ & _ & _ & ->).
  apply IH. intros t Ht. simpl in *.
  rewrite lookup_insert_ne by lia. apply Hs. lia.
Qed.

(** ** What [start] builds *)

Lemma start_unfold caller s :
  running_ s = false ->
  start caller s =
    (r ← makeProcessor caller s;
     s' ← spawnWorkers (workerCount s) (set_mainProc (Some r.1) r.2);
     Ok (set_running true s')).
Proof.
  intros Hrun. unfold start. rewrite Hrun.
  destruct (makeProcessor caller s) as [[this s1]|msg] eqn:Hmk; [|done].
  simpl. apply makeProcessor_inv in Hmk as (_ & _ & p & _ & _ & _ & ->).
  reflexivity.
Qed.

Lemma start_spec caller s s' :
  running_ s = false -> start caller s = Ok s' ->
  t_proc s !! caller = None /\
  exists p,
    Processor.threadId_ p = caller /\ Processor.stop_ p = false /\
    procs s' !! nextProc s = Some p /\
    workProcVec_ s' =
      workProcVec_ s ++ seq (S (nextProc s)) (workerCount s) /\
    workThreadVec_ s' = workThreadVec_ s ++ seq (nextTid s) (workerCount s) /\
    nextProc s' = S (nextProc s) + workerCount s /\
    nextTid s' = nextTid s + workerCount s /\
    mainProc_ s' = Some (nextProc s) /\ running_ s' = true /\
    index s' = index s /\ quit_ s' = quit_ s /\ thread_ s' = thread_ s /\
    threadNum_ s' = threadNum_ s /\ shistory s' = shistory s /\
    (forall w, w < nextProc s -> procs s' !! w = procs s !! w) /\
    (caller < nextTid s -> t_proc s' !! caller = Some (nextProc s)) /\
    (forall t, t < nextTid s -> t <> caller ->
       t_proc s' !! t = t_proc s !! t).
Proof.
  intros Hrun H. rewrite start_unfold in H by done.
  bind_inv H. destruct r as [this s1]. bind_inv H. injection H as <-.
  apply makeProcessor_inv in Hstep as (Htp & -> & p & _ & Htid & Hflag & ->).
  apply spawnWorkers_spec in Hstep0
    as (Hv & Ht & Hnp & Hnt & Hm & Hr & Hi & Hq & Hth & Hn & Hh & Hprocs
        & Htproc & _). simpl in *.
  split; [done|]. exists p. conj_split; try done.
  - rewrite Hprocs by lia. by rewrite lookup_insert_eq.
  - intros w Hw. rewrite Hprocs by lia. by rewrite lookup_insert_ne by lia.
  - intros Hlt. rewrite Htproc by done. by rewrite lookup_insert_eq.
  - intros t Hlt Hne. rewrite Htproc by done. by rewrite lookup_insert_ne.
Qed.

Lemma start_total caller s :
  running_ s = false -> t_proc s !! caller = None -> tidsFresh s ->
  caller < nextTid s -> exists s', start caller s = Ok s'.
Proof.
  intros Hrun Htp Hfresh Hlt. rewrite start_unfold by done.
  destruct (makeProcessor_total caller s Htp) as (s1 & Hmk).
  rewrite Hmk. simpl.
  apply makeProcessor_inv in Hmk as (_ & _ & p & _ & _ & _ & ->).
  destruct (spawnWorkers_total (workerCount s)
    (set_mainProc (Some (nextProc s))
       (set_t_proc (<[caller:=nextProc s]> (t_proc s))
          (set_nextProc (S (nextProc s))
             (set_procs (<[nextProc s:=p]> (procs s)) s)))))
    as (s2 & Hsp).
  { intros t Ht. simpl in *. rewrite lookup_insert_ne by lia. by apply Hfresh. }
  rewrite Hsp. simpl. eauto.
Qed.

Lemma workerCount_spec s :
  (threadNum_ s = 0%Z -> Z.of_nat (workerCount s) = (2 ^ 64 - 1)%Z) /\
  ((1 <= threadNum_ s < 2 ^ 64)%Z ->
   Z.of_nat (workerCount s) = (threadNum_ s - 1)%Z).
Proof.
  unfold workerCount.
  assert (Hpos : (0 <= wrap (threadNum_ s - 1))%Z).
  { unfold wrap, size_max. apply Z.mod_pos_bound. lia. }
  rewrite Z2Nat.id by done. split.
  - intros ->. reflexivity.
  - intros Hn. unfold wrap, size_max. apply Z.mod_small. lia.
Qed.

(** X6.  On a thread that has no Processor, [start] on a Scheduler that is
    not running makes the main Processor and then [threadNum_ - 1] workers,
    the number taken in [size_t] arithmetic: [n - 1] for a thread number
    [n] of at least 1, and [2^64 - 1] for a thread number of 0.  The
    workers and their threads are appended to the two vectors, whose old
    entries stay in front; the round-robin index and [quit_] are left as
    they were.  (Making a thread is taken to succeed.) *)
Theorem start_appends_workers caller s :
  running_ s = false -> GetProcesserOfThisThread caller s = None ->
  tidsFresh s -> caller < nextTid s ->
  exists s', start caller s = Ok s' /\
    workProcVec_ s' =
      workProcVec_ s ++ seq (S (nextProc s)) (workerCount s) /\
    workThreadVec_ s' = workThreadVec_ s ++ seq (nextTid s) (workerCount s) /\
    mainProc_ s' = Some (nextProc s) /\ running_ s' = true /\
    index s' = index s /\ quit_ s' = quit_ s /\
    (threadNum_ s = 0%Z -> Z.of_nat (workerCount s) = (2 ^ 64 - 1)%Z) /\
    ((1 <= threadNum_ s < 2 ^ 64)%Z ->
     Z.of_nat (workerCount s) = (threadNum_ s - 1)%Z).
Proof.
  intros Hrun Htp Hfresh Hlt.
  destruct (start_total caller s Hrun Htp Hfresh Hlt) as (s' & Hstart).
  exists s'. split; [done|].
  apply start_spec in Hstart as (_ & p & _ & _ & _ & Hv & Ht & _ & _ & Hm & Hr
                                 & Hi & Hq & _); [|done].
  destruct (workerCount_spec s) as [H0 Hn]. done.
Qed.

(** X6, witness: a Scheduler for four threads gets three workers. *)
Lemma start_appends_workers_witness :
  running_ s_fresh = false /\ GetProcesserOfThisThread 0 s_fresh = None /\
  tidsFresh s_fresh /\ 0 < nextTid s_fresh /\
  exists s', start 0 s_fresh = Ok s' /\
    workProcVec_ s' = [1; 2; 3] /\ workThreadVec_ s' = [1; 2; 3] /\
    mainProc_ s' = Some 0.
Proof.
  assert (Hrun : running_ s_fresh = false) by (vm_compute; reflexivity).
  assert (Htp : GetProcesserOfThisThread 0 s_fresh = None)
    by (vm_compute; reflexivity).
  assert (Hfresh : tidsFresh s_fresh) by (intros t _; apply lookup_empty).
  assert (Hlt : 0 < nextTid s_fresh) by (vm_compute; lia).
  split; [exact Hrun|]. split; [exact Htp|]. split; [exact Hfresh|].
  split; [exact Hlt|].
  destruct (start_appends_workers 0 s_fresh Hrun Htp Hfresh Hlt)
    as (s' & Hstart & _).
  exists s'. split; [exact Hstart|].
  assert (Hev : start 0 s_fresh = Ok s') by exact Hstart.
  vm_compute in Hev. injection Hev as <-. by_eval.
Defined.

(** X7.  [start] builds the main Processor on the calling thread and the
    constructor registers it as that thread's Processor.  So the [run]
    that [start] then enters passes its check of the owning thread, and
    while the Processor is registered no Scheduler can be constructed on
    that thread: the [assert] of the constructor fails. *)
Theorem start_builds_main_on_caller caller s :
  running_ s = false -> GetProcesserOfThisThread caller s = None ->
  tidsFresh s -> caller < nextTid s ->
  exists s' m p, start caller s = Ok s' /\
    mainProc_ s' = Some m /\ procs s' !! m = Some p /\
    Processor.threadId_ p = caller /\ Processor.stop_ p = false /\
    GetProcesserOfThisThread caller s' = Some m /\
    (forall script,
       Processor.run caller script p =
         Processor.runLoop script (Processor.runEnter p).1
           (Processor.runEnter p).2) /\
    (forall n, exists msg, new caller (t_proc s') n = Fatal msg).
Proof.
  intros Hrun Htp Hfresh Hlt.
  destruct (start_total caller s Hrun Htp Hfresh Hlt) as (s' & Hstart).
  pose proof Hstart as Hspec.
  apply start_spec in Hspec
    as (_ & p & Htid & Hflag & Hp & _ & _ & _ & _ & Hm & _ & _ & _ & _ & _
        & _ & _ & Hreg & _); [|done].
  specialize (Hreg Hlt).
  exists s', (nextProc s), p. conj_split; try done.
  - intros script. rewrite run_unfold. unfold Processor.isInProcThread.
    by rewrite bool_decide_eq_true_2.
  - intros n. unfold new. rewrite Hreg. eauto.
Qed.

(** X7, witness: [start] on thread 0. *)
Lemma start_builds_main_on_caller_witness :
  running_ s_fresh = false /\ GetProcesserOfThisThread 0 s_fresh = None /\
  tidsFresh s_fresh /\ 0 < nextTid s_fresh /\
  GetProcesserOfThisThread 0 s_started = Some 0 /\
  exists s' m p, start 0 s_fresh = Ok s' /\ mainProc_ s' = Some m /\
    procs s' !! m = Some p /\ Processor.threadId_ p = 0.
Proof.
  assert (Hrun : running_ s_fresh = false) by (vm_compute; reflexivity).
  assert (Htp : GetProcesserOfThisThread 0 s_fresh = None)
    by (vm_compute; reflexivity).
  assert (Hfresh : tidsFresh s_fresh) by (intros t _; apply lookup_empty).
  assert (Hlt : 0 < nextTid s_fresh) by (vm_compute; lia).
  split; [exact Hrun|]. split; [exact Htp|]. split; [exact Hfresh|].
  split; [exact Hlt|]. split; [vm_compute; reflexivity|].
  destruct (start_builds_main_on_caller 0 s_fresh Hrun Htp Hfresh Hlt)
    as (s' & m & p & Hstart & Hm & Hp & Htid & _).
  exists s', m, p. split; [exact Hstart|]. split; [exact Hm|].
  split; [exact Hp | exact Htid].
Defined.

(** ** What [stop] leaves alone *)

Lemma stoppedFrom_stop p : stoppedFrom p (Processor.stop p).
Proof.
  unfold stoppedFrom, Processor.stop, Processor.wakeupEpollCo.
  by destruct (isEpolling _).
Qed.

Lemma stoppedFrom_trans p1 p2 p3 :
  stoppedFrom p1 p2 -> stoppedFrom p2 p3 -> stoppedFrom p1 p3.
Proof. unfold stoppedFrom. intuition congruence. Qed.

Lemma stopFrame_refl s : stopFrame s s.
Proof. unfold stopFrame. conj_split; auto. Qed.

Lemma stopFrame_trans s1 s2 s3 :
  stopFrame s1 s2 -> stopFrame s2 s3 -> stopFrame s1 s3.
Proof.
  intros (?&?&?&?&?&?&?&?&?&?&?&H12) (?&?&?&?&?&?&?&?&?&?&?&H23).
  unfold stopFrame. conj_split; try congruence.
  intros w. destruct (H12 w) as [E12|(p & p' & Hp & Hp' & Hst)];
    destruct (H23 w) as [E23|(q & q' & Hq & Hq' & Hst')].
  - left. congruence.
  - right. exists q, q'. rewrite <- E12. done.
  - right. exists p, p'. rewrite E23. done.
  - right. exists p, q'. split; [done|]. split; [done|].
    assert (q = p') by congruence. subst q.
    eauto using stoppedFrom_trans.
Qed.

Lemma procStop_frame w s s' :
  procStop w s = Ok s' ->
  stopFrame s s' /\ stopped w s' /\ shistory s' = shistory s ++ [SevStop w].
Proof.
  unfold procStop. intros H. bind_inv H. injection H as <-.
  apply onProc_Ok in Hstep as (p & Hp & ->).
  split; [|split; [|done]].
  - unfold stopFrame. simpl. conj_split; try done.
    intros w'. destruct (decide (w' = w)) as [->|Hne].
    + right. exists p, (Processor.stop p). rewrite lookup_insert_eq.
      split; [done|]. split; [done|]. apply stoppedFrom_stop.
    + left. by rewrite lookup_insert_ne.
  - exists (Processor.stop p). simpl. rewrite lookup_insert_eq.
    split; [done|]. apply stop_sets_flag.
Qed.

Lemma stopFrame_stopped s s' w :
  stopFrame s s' -> stopped w s -> stopped w s'.
Proof.
  intros (_&_&_&_&_&_&_&_&_&_&_&H) (p & Hp & Hflag).
  destruct (H w) as [E|(q & q' & Hq & Hq' & Hst & _)].
  - exists p. by rewrite E.
  - exists q'. done.
Qed.

Lemma stopProcs_frame ws s s' :
  stopProcs ws s = Ok s' ->
  stopFrame s s' /\ (forall w, w ∈ ws -> stopped w s').
Proof.
  revert s. induction ws as [|w ws IH]; simpl; intros s H.
  - injection H as <-. split; [apply stopFrame_refl|].
    intros w Hw. by apply elem_of_nil in Hw.
  - bind_inv H. apply procStop_frame in Hstep as (Hf1 & Hst1 & _).
    apply IH in H as (Hf2 & Hst2). split; [eauto using stopFrame_trans|].
    intros w' Hw'. apply elem_of_cons in Hw' as [->|Hw']; [|by apply Hst2].
    eauto using stopFrame_stopped.
Qed.

Lemma joinThread_frame who s :
  running_ (joinThread who s) = running_ s /\
  quit_ (joinThread who s) = true /\
  threadNum_ (joinThread who s) = threadNum_ s /\
  mainProc_ (joinThread who s) = mainProc_ s /\
  workProcVec_ (joinThread who s) = workProcVec_ s /\
  workThreadVec_ (joinThread who s) = workThreadVec_ s /\
  index (joinThread who s) = index s /\ t_proc (joinThread who s) = t_proc s /\
  nextProc (joinThread who s) = nextProc s /\
  nextTid (joinThread who s) = nextTid s /\
  procs (joinThread who s) = procs s.
Proof.
  unfold joinThread.
  assert (Hfold : forall ts s0,
    let s1 := foldl (fun s t => emit (SevJoin who t) s) s0 ts in
    running_ s1 = running_ s0 /\ threadNum_ s1 = threadNum_ s0 /\
    mainProc_ s1 = mainProc_ s0 /\ workProcVec_ s1 = workProcVec_ s0 /\
    workThreadVec_ s1 = workThreadVec_ s0 /\ index s1 = index s0 /\
    t_proc s1 = t_proc s0 /\ nextProc s1 = nextProc s0 /\
    nextTid s1 = nextTid s0 /\ procs s1 = procs s0).
  { induction ts as [|t ts IH]; intros s0; simpl; [done|].
    destruct (IH (emit (SevJoin who t) s0)) as (?&?&?&?&?&?&?&?&?&?).
    simpl in *. done. }
  destruct (thread_ s) as [t|]; simpl;
    match goal with
    | |- context [foldl ?f ?s0 ?ts] =>
        destruct (Hfold ts s0) as (?&?&?&?&?&?&?&?&?&?)
    end; simpl in *; done.
Qed.

(** The whole of [stop] on a running Scheduler. *)
Lemma stop_spec caller hook helper s s1 :
  running_ s = true -> stop caller hook helper s = Ok s1 ->
  exists m, mainProc_ s = Some m /\
    running_ s1 = false /\ mainProc_ s1 = None /\
    quit_ s1 = (if hook then quit_ s else true) /\
    threadNum_ s1 = threadNum_ s /\
    workProcVec_ s1 = workProcVec_ s /\ workThreadVec_ s1 = workThreadVec_ s /\
    index s1 = index s /\ t_proc s1 = t_proc s /\
    nextProc s1 = nextProc s /\ nextTid s1 = nextTid s /\
    (forall w, w ∈ m :: workProcVec_ s -> stopped w s1) /\
    (forall w, procs s1 !! w = procs s !! w \/
       exists p p', procs s !! w = Some p /\ procs s1 !! w = Some p' /\
         stoppedFrom p p').
Proof.
  unfold stop. intros Hrun H. rewrite Hrun in H. simpl in H.
  destruct (mainProc_ s) as [m|]; [|discriminate]. exists m. split; [done|].
  bind_inv H. bind_inv H.
  apply procStop_frame in Hstep as (Hf1 & Hst1 & _).
  apply stopProcs_frame in Hstep0 as (Hf2 & Hst2).
  assert (Hf0 : stopFrame (set_mainProc None r) r0) by done.
  destruct Hf1 as (Hr1&Hq1&Hn1&Hm1&Hv1&Ht1&Hth1&Hi1&Htp1&Hnp1&Hnt1&Hp1).
  destruct Hf2 as (Hr2&Hq2&Hn2&Hm2&Hv2&Ht2&Hth2&Hi2&Htp2&Hnp2&Hnt2&Hp2).
  simpl in *.
  assert (Hall : forall w, w ∈ m :: workProcVec_ s -> stopped w r0).
  { intros w Hw. apply elem_of_cons in Hw as [->|Hw].
    - apply (stopFrame_stopped (set_mainProc None r)); [done|].
      destruct Hst1 as (p & Hp & Hflag). by exists p.
    - apply Hst2. by rewrite Hv1. }
  assert (Hprocs : forall w, procs r0 !! w = procs s !! w \/
            exists p p', procs s !! w = Some p /\ procs r0 !! w = Some p' /\
              stoppedFrom p p').
  { intros w. destruct (Hp1 w) as [E1|(p & p' & Hp & Hp' & Hst)];
      destruct (Hp2 w) as [E2|(q & q' & Hq & Hq' & Hst')].
    - left. congruence.
    - right. exists q, q'. rewrite <- E1. done.
    - right. exists p, p'. rewrite E2. done.
    - right. exists p, q'. split; [done|]. split; [done|].
      assert (q = p') by congruence. subst q.
      eauto using stoppedFrom_trans. }
  destruct hook; injection H as <-.
  - simpl. conj_split; try congruence; done.
  - destruct (joinThread_frame caller r0)
      as (Hjr&Hjq&Hjn&Hjm&Hjv&Hjt&Hji&Hjtp&Hjnp&Hjnt&Hjp).
    conj_split; try congruence.
    + intros w Hw. destruct (Hall w Hw) as (p & Hp & Hflag).
      exists p. by rewrite Hjp.
    + intros w. rewrite Hjp. apply Hprocs.
Qed.

(** ** Stopping twice *)

(** X8.  After a [stop] that went through, the Scheduler is not running,
    so every later [stop], the one of the destructor included, returns at
    once and changes nothing: no Processor is stopped again and no thread
    is joined a second time. *)
Theorem stop_is_idempotent caller hook helper s s1 :
  stop caller hook helper s = Ok s1 ->
  running_ s1 = false /\
  forall c h t, stop c h t s1 = Ok s1 /\ destroy c h t s1 = Ok s1.
Proof.
  intros H.
  assert (Hoff : running_ s1 = false).
  { destruct (running_ s) eqn:Hrun.
    - apply stop_spec in H as (m & _ & Hr & _); done.
    - unfold stop in H. rewrite Hrun in H. simpl in H. congruence. }
  split; [done|]. intros c h t. unfold destroy, stop. by rewrite Hoff.
Qed.

Lemma s_stopped_eq : stop 8 false 9 s_started = Ok s_stopped.
Proof. vm_compute. reflexivity. Qed.

(** X8, witness: [stop] on the started Scheduler, and once more. *)
Lemma stop_is_idempotent_witness :
  stop 8 false 9 s_started = Ok s_stopped /\
  running_ s_started = true /\ running_ s_stopped = false /\
  stop 8 false 9 s_stopped = Ok s_stopped.
Proof.
  split; [exact s_stopped_eq|]. split; [vm_compute; reflexivity|].
  destruct (stop_is_idempotent 8 false 9 s_started s_stopped s_stopped_eq)
    as [Hoff Hagain].
  split; [exact Hoff|]. exact (proj1 (Hagain 8 false 9)).
Defined.

(** ** Submitting after [stop] *)




Lemma s_started_workers : workProcVec_ s_started <> [].
Proof. vm_compute. discriminate. Qed.


(** ** The return of [start] *)




(** ** Starting again *)




(** ** Timers *)

(** A timer registered on a Scheduler with workers. *)
Lemma timer_step t s :
  wf s -> workProcVec_ s <> [] ->
  exists w p s',
    workProcVec_ s !! index s = Some w /\ procs s !! w = Some p /\
    pickOneProcesser s =
      Ok (Some w, set_index (S (index s) mod length (workProcVec_ s)) s) /\
    addTimerOn (Some w) t
      (set_index (S (index s) mod length (workProcVec_ s)) s) = Ok s' /\
    index s' = S (index s) mod length (workProcVec_ s) /\
    workProcVec_ s' = workProcVec_ s /\
    procs s' = <[w := Processor.addTimer t p]> (procs s).
Proof.
  intros Hwf Hne. pose proof (wf_index s Hwf) as Hlt.
  apply length_nonempty in Hne.
  destruct (lookup_lt_is_Some_2 (workProcVec_ s) (index s)) as [w Hw]; [lia|].
  assert (Hlive : is_Some (procs s !! w)).
  { apply (wf_live s Hwf). by eapply list_elem_of_lookup_2. }
  destruct Hlive as [p Hp]. exists w, p. eexists.
  split; [done|]. split; [done|]. split; [by apply pick_workers|].
  unfold addTimerOn, onProc. simpl. rewrite Hp. done.
Qed.

(** X12.  The timer functions choose their Processor with
    [pickOneProcesser], like [addTask]: with workers, [runAt] and
    [runEvery] hand the timer to the worker at the round-robin index and
    move the index on by one, so a timer takes a turn of the round-robin
    and the next task goes to the next worker; the pending buffers are not
    touched.  [runAfter] is [runAt] at [now + delay], and the first
    deadline of [runEvery] is [now + interval]. *)
Theorem timers_take_round_robin_turns when now delay interval payload s :
  wf s -> workProcVec_ s <> [] ->
  exists w p,
    workProcVec_ s !! index s = Some w /\ procs s !! w = Some p /\
    (exists s', runAt when payload s = Ok s' /\
       index s' = S (index s) mod length (workProcVec_ s) /\
       procs s' =
         <[w := Processor.addTimer (mkTimer payload when 0) p]> (procs s) /\
       forall w', pendingOf w' s' = pendingOf w' s) /\
    runAfter now delay payload s = runAt (now + delay) payload s /\
    (exists s', runEvery now interval payload s = Ok s' /\
       index s' = S (index s) mod length (workProcVec_ s) /\
       procs s' =
         <[w := Processor.addTimer
                  (mkTimer payload (now + interval) interval) p]>
           (procs s)).
Proof.
  intros Hwf Hne.
  destruct (timer_step (mkTimer payload when 0) s Hwf Hne)
    as (w & p & s1 & Hw & Hp & Hpick & Hadd & Hi & _ & Hprocs).
  destruct (timer_step (mkTimer payload (now + interval) interval) s Hwf Hne)
    as (w' & p' & s2 & Hw' & Hp' & _ & Hadd' & Hi' & _ & Hprocs').
  assert (w' = w) by congruence. subst w'.
  assert (p' = p) by congruence. subst p'.
  exists w, p. split; [done|]. split; [done|]. split; [|split].
  - exists s1. unfold runAt. rewrite Hpick. simpl.
    split; [done|]. split; [done|]. split; [done|].
    intros w0. unfold pendingOf. rewrite Hprocs.
    destruct (decide (w0 = w)) as [->|Hne0].
    + by rewrite lookup_insert_eq, Hp.
    + by rewrite lookup_insert_ne.
  - reflexivity.
  - exists s2. unfold runEvery. rewrite Hpick. simpl. done.
Qed.

(** X12, witness: a timer on the started Scheduler goes to worker 1 and
    the task after it to worker 2. *)
Lemma timers_take_round_robin_turns_witness :
  wf s_started /\ workProcVec_ s_started <> [] /\
  exists s' s'', runAt 5 (TimerCb (CbUser 0) "t") s_started = Ok s' /\
    timersOf 1 s' = [mkTimer (TimerCb (CbUser 0) "t") 5 0] /\
    addTask (CbUser 1) "a" s' = Ok s'' /\
    pendingOf 1 s'' = [] /\ pendingOf 2 s'' = [(CbUser 1, "a")].
Proof.
  split; [exact wf_s_started|]. split; [exact s_started_workers|].
  destruct (timers_take_round_robin_turns 5 0 0 0 (TimerCb (CbUser 0) "t")
              s_started wf_s_started s_started_workers)
    as (w & p & _ & _ & (s' & Hrun & _) & _).
  exists s'.
  assert (Hev : runAt 5 (TimerCb (CbUser 0) "t") s_started = Ok s')
    by exact Hrun.
  vm_compute in Hev. injection Hev as <-.
  eexists. split; [exact Hrun|]. split; [vm_compute; reflexivity|].
  split; [vm_compute; reflexivity|]. by_eval.
Defined.

(** ** The asserts of [pickOneProcesser] and [addTask] *)







(** ** [startAsync] *)

(** X14.  [startAsync] on a Scheduler that is not running and has no
    thread of its own runs [start] on a new thread, which becomes
    [thread_]: the main Processor is built on that thread and registered
    there, the calling thread gets no Processor, and the new thread is
    among those that [joinThread] joins while the calling thread is among
    them only if it was before.  On a running Scheduler [startAsync] does
    nothing. *)
Theorem startAsync_runs_on_new_thread caller s :
  running_ s = false -> thread_ s = None -> tidsFresh s ->
  caller < nextTid s ->
  exists s' m p, startAsync s = Ok s' /\
    thread_ s' = Some (nextTid s) /\ running_ s' = true /\
    mainProc_ s' = Some m /\ procs s' !! m = Some p /\
    Processor.threadId_ p = nextTid s /\
    GetProcesserOfThisThread (nextTid s) s' = Some m /\
    GetProcesserOfThisThread caller s' = GetProcesserOfThisThread caller s /\
    (nextTid s ∈ procThreads s') /\
    (caller ∈ procThreads s' <-> caller ∈ procThreads s) /\
    startAsync s' = Ok s'.
Proof.
  intros Hrun Hth Hfresh Hlt. unfold startAsync at 1. rewrite Hrun.
  set (s0 := set_thread (Some (nextTid s)) (set_nextTid (S (nextTid s)) s)).
  assert (Hfresh0 : tidsFresh s0).
  { intros t Ht. simpl in *. apply Hfresh. lia. }
  destruct (start_total (nextTid s) s0) as (s' & Hstart);
    [done | by apply Hfresh | done | simpl; lia |].
  pose proof Hstart as Hspec.
  apply start_spec in Hspec
    as (_ & p & Htid & _ & Hp & _ & Htv & _ & _ & Hm & Hr & _ & _ & Hth' & _
        & _ & _ & Hreg & Hother); [|done].
  simpl in *.
  exists s', (nextProc s), p. conj_split; try done.
  - apply Hreg. lia.
  - unfold GetProcesserOfThisThread. rewrite Hother by lia. done.
  - unfold procThreads. rewrite Hth'. simpl. left.
  - unfold procThreads. rewrite Hth', Htv, Hth. simpl.
    rewrite elem_of_cons, elem_of_app, elem_of_seq. split.
    + intros [?|[?|?]]; [lia | done | lia].
    + intros ?. right. by left.
  - unfold startAsync. by rewrite Hr.
Qed.

(** X14, witness: [startAsync] called from thread 0. *)
Lemma startAsync_runs_on_new_thread_witness :
  running_ s_fresh = false /\ thread_ s_fresh = None /\ tidsFresh s_fresh /\
  exists s', startAsync s_fresh = Ok s' /\
    thread_ s' = Some 1 /\ procThreads s' = [1; 2; 3; 4] /\
    GetProcesserOfThisThread 0 s' = None.
Proof.
  assert (Hrun : running_ s_fresh = false) by (vm_compute; reflexivity).
  assert (Hth : thread_ s_fresh = None) by (vm_compute; reflexivity).
  assert (Hfresh : tidsFresh s_fresh) by (intros t _; apply lookup_empty).
  assert (Hlt : 0 < nextTid s_fresh) by (vm_compute; lia).
  split; [exact Hrun|]. split; [exact Hth|]. split; [exact Hfresh|].
  destruct (startAsync_runs_on_new_thread 0 s_fresh Hrun Hth Hfresh Hlt)
    as (s' & m & p & Hstart & _).
  exists s'. split; [exact Hstart|].
  vm_compute in Hstart. injection Hstart as <-. by_eval.
Defined.

(** ** From submission to coroutine *)

Lemma samePool_refl p : samePool p p.
Proof. by repeat split. Qed.

Lemma samePool_trans p1 p2 p3 :
  samePool p1 p2 -> samePool p2 p3 -> samePool p1 p3.
Proof.
  intros (H1 & H2 & H3 & H4) (H1' & H2' & H3' & H4').
  unfold samePool. rewrite H1', H2', H3', H4'. done.
Qed.

Lemma samePool_idleInv p p' : samePool p p' -> idleInv p -> idleInv p'.
Proof.
  intros (Hc & Hn & Hi & _) [Hh [Hnd Hall]]. split; [|split].
  - intros c. rewrite Hc, Hn. apply Hh.
  - by rewrite Hi.
  - rewrite Hi. eapply Forall_impl; [exact Hall|]. intros c.
    unfold Processor.getState. by rewrite Hc.
Qed.

Lemma addTask_pool task name s s' w p :
  addTask task name s = Ok s' -> procs s !! w = Some p ->
  exists p', procs s' !! w = Some p' /\ samePool p p'.
Proof.
  unfold addTask. intros H Hp. bind_inv H.
  assert (Hprocs : procs r.2 = procs s).
  { unfold pickOneProcesser in Hstep. bind_inv Hstep.
    destruct (negb (bool_decide (workProcVec_ s = []))).
    - destruct (workProcVec_ s !! index s); [|discriminate].
      by injection Hstep as <-.
    - by injection Hstep as <-. }
  destruct r.1 as [w'|]; [|discriminate].
  apply onProc_Ok in H as (p0 & Hp0 & ->). rewrite Hprocs in Hp0. simpl.
  rewrite Hprocs. destruct (decide (w = w')) as [->|Hne].
  - rewrite lookup_insert_eq. rewrite Hp in Hp0. injection Hp0 as <-.
    eexists. split; [done|]. by repeat split.
  - rewrite lookup_insert_ne by done. exists p. split; [done|].
    apply samePool_refl.
Qed.

Lemma submitAll_pool tasks s s' w p :
  submitAll tasks s = Ok s' -> procs s !! w = Some p ->
  exists p', procs s' !! w = Some p' /\ samePool p p'.
Proof.
  revert s p. induction tasks as [|t tasks IH]; intros s p; simpl.
  - intros [= <-] Hp. exists p. split; [done|]. apply samePool_refl.
  - intros H Hp. bind_inv H.
    destruct (addTask_pool _ _ _ _ _ _ Hstep Hp) as (p1 & Hp1 & Hsame1).
    destruct (IH _ _ H Hp1) as (p' & Hp' & Hsame').
    exists p'. split; [done|]. by apply (samePool_trans p p1 p').
Qed.

Lemma idleInv_p_worker : idleInv p_worker.
Proof.
  split; [|split].
  - apply heapOk_check.
    assert (H : bool_decide (map_Forall
                  (fun c _ =>
                     c < Processor.nextCo p_worker)
                  (Processor.coros p_worker)) = true)
      by (vm_compute; reflexivity).
    by apply bool_decide_eq_true in H.
  - vm_compute. apply NoDup_nil_2.
  - vm_compute. apply Forall_nil_2.
Qed.

(** X22.  From submission to coroutine: the tasks that [Scheduler::addTask]
    deals to a worker wait in its pending buffer behind the tasks already
    there, and the worker's next drain turns them, in the order of
    submission, into distinct coroutines at the back of its runnable
    queue, each in state EXEC with the callback and the name of its
    task. *)
Theorem dealt_tasks_become_coroutines tasks s j w p :
  wf s -> workProcVec_ s !! j = Some w -> procs s !! w = Some p ->
  idleInv p ->
  let mine := Processor.pendingTasks_ p ++
              share j (index s) (length (workProcVec_ s)) tasks in
  exists s' p' p'' cs,
    submitAll tasks s = Ok s' /\ procs s' !! w = Some p' /\
    Processor.pendingTasks_ p' = mine /\
    Processor.addPendingTasksIntoQueue p' = Ok p'' /\
    Processor.runnableCoQue_ p'' = Processor.runnableCoQue_ p ++ cs /\
    NoDup cs /\ length cs = length mine /\
    forall i c t, cs !! i = Some c -> mine !! i = Some t ->
      Processor.coros p'' !! c =
        Some (mkCoroutine EXEC t.2 t.1).
Proof.
  intros Hwf Hw Hp Hinv mine.
  assert (Hne : workProcVec_ s <> []) by (intros Hnil; by rewrite Hnil in Hw).
  destruct (submitAll_shares tasks s Hwf Hne) as (s' & Hsub & _ & _ & Hpend).
  destruct (submitAll_pool _ _ _ _ _ Hsub Hp) as (p' & Hp' & Hsame).
  assert (Hmine : Processor.pendingTasks_ p' = mine).
  { specialize (Hpend j w Hw). unfold pendingOf in Hpend.
    rewrite Hp, Hp' in Hpend. exact Hpend. }
  destruct (drain_shells p' (samePool_idleInv _ _ Hsame Hinv))
    as (p'' & Hdr & _ & Hq & _ & _ & Hnd & Hin & _).
  destruct Hsame as (_ & _ & _ & Hrun).
  exists s', p', p'', (shells (length (Processor.pendingTasks_ p')) p').
  split; [exact Hsub|]. split; [exact Hp'|]. split; [exact Hmine|].
  split; [exact Hdr|]. split; [by rewrite Hq, Hrun|]. split; [exact Hnd|].
  split; [by rewrite length_shells, Hmine|].
  intros i c t Hc Ht. apply (Hin i c t Hc). by rewrite Hmine.
Qed.

(** X22, witness: of six tasks for three workers, the first worker gets
    "a" and "d" and its drain makes the coroutines 3 and 4 for them. *)
Lemma dealt_tasks_become_coroutines_witness :
  wf s_started /\ workProcVec_ s_started !! 0 = Some 1 /\
  procs s_started !! 1 = Some p_worker /\ idleInv p_worker /\
  exists s' p' p'' cs,
    submitAll six_tasks s_started = Ok s' /\ procs s' !! 1 = Some p' /\
    Processor.pendingTasks_ p' = [(CbUser 0, "a"); (CbUser 3, "d")] /\
    Processor.addPendingTasksIntoQueue p' = Ok p'' /\
    Processor.runnableCoQue_ p'' = Processor.runnableCoQue_ p_worker ++ cs /\
    length cs = 2.
Proof.
  assert (Hw : workProcVec_ s_started !! 0 = Some 1)
    by (vm_compute; reflexivity).
  assert (Hp : procs s_started !! 1 = Some p_worker)
    by (vm_compute; reflexivity).
  split; [exact wf_s_started|]. split; [exact Hw|]. split; [exact Hp|].
  split; [exact idleInv_p_worker|].
  destruct (dealt_tasks_become_coroutines six_tasks s_started 0 1 p_worker
              wf_s_started Hw Hp idleInv_p_worker)
    as (s' & p' & p'' & cs & Hsub & Hp' & Hmine & Hdr & Hq & _ & Hlen & _).
  exists s', p', p'', cs.
  split; [exact Hsub|]. split; [exact Hp'|].
  split; [rewrite Hmine; vm_compute; reflexivity|].
  split; [exact Hdr|]. split; [exact Hq|].
  rewrite Hlen. vm_compute. reflexivity.
Defined.

End SchedulerMore.

Section TcpConnectionProofs.
Import TcpConnection.

(** ** The status *)

(** [sendInLoop] on a connection that is not disconnected, by its calls. *)
Lemma sendInLoop_effects data a c :
  status_ c <> kDisconnected ->
  sendInLoop data a c =
    if bool_decide (remainingOf data a <= Z.of_nat (length data))%Z
    then Ok (record (sendEffects data a c) c)
    else Fatal "assert(remaining <= len)".
Proof.
  intros Hst. unfold sendInLoop. cbv zeta.
  change (status_ (emit EffAssertInLoopThread c)) with (status_ c).
  rewrite (bool_decide_eq_false_2 _ Hst).
  unfold sendEffects, crossesMark, faulty, remainingOf, nwroteOf,
    wroteDirectly, firstWrite, direct, record.
  unfold emit. simpl.
  destruct (highWaterMarkCallback_ c) eqn:Ehw;
    destruct (writeCompleteCallback_ c) eqn:Ewc;
    destruct (isWriting a); simpl;
    repeat (case_bool_decide; simpl; try done; try lia);
    rewrite ?Ehw, ?Ewc, <- ?app_assoc; try reflexivity;
    unfold EWOULDBLOCK, EPIPE, ECONNRESET in *; lia.
Qed.

Lemma sendEffects_plain data a c : Forall plain (sendEffects data a c).
Proof.
  unfold sendEffects.
  repeat match goal with
         | |- context [if ?b then _ else _] => destruct b
         end; simpl; repeat constructor.
Qed.

Lemma downCalls_app tr1 tr2 :
  downCalls (tr1 ++ tr2) = downCalls tr1 + downCalls tr2.
Proof. unfold downCalls. by rewrite filter_app, length_app. Qed.

Lemma shutdownWrites_app tr1 tr2 :
  shutdownWrites (tr1 ++ tr2) = shutdownWrites tr1 + shutdownWrites tr2.
Proof. unfold shutdownWrites. by rewrite filter_app, length_app. Qed.

Lemma plain_counts effs :
  Forall plain effs -> downCalls effs = 0 /\ shutdownWrites effs = 0.
Proof.
  induction 1 as [|e effs [Hd Hs] _ [IH1 IH2]]; [done|].
  unfold downCalls, shutdownWrites in *. rewrite !filter_cons.
  rewrite Hd, Hs. simpl. done.
Qed.

(** What one call of [sendInLoop] does to the status and the counts. *)
Lemma sendInLoop_step data a c c' :
  sendInLoop data a c = Ok c' ->
  status_ c' = status_ c /\
  downCalls (trace c') = downCalls (trace c) /\
  shutdownWrites (trace c') = shutdownWrites (trace c).
Proof.
  destruct (decide (status_ c = kDisconnected)) as [Hd|Hd].
  - unfold sendInLoop. cbv zeta.
    change (status_ (emit EffAssertInLoopThread c)) with (status_ c).
    rewrite (bool_decide_eq_true_2 _ Hd). intros [= <-]. simpl.
    rewrite downCalls_app, shutdownWrites_app. simpl. split; [done|].
    unfold downCalls, shutdownWrites. simpl. lia.
  - rewrite sendInLoop_effects by done. case_bool_decide; [|discriminate].
    intros [= <-]. simpl. rewrite downCalls_app, shutdownWrites_app.
    destruct (plain_counts _ (sendEffects_plain data a c)) as [-> ->].
    split; [done|]. lia.
Qed.

Ltac count_trace :=
  rewrite ?downCalls_app, ?shutdownWrites_app;
  unfold downCalls, shutdownWrites; simpl;
  repeat match goal with
         | |- context [if ?b then _ else _] => destruct b; simpl
         end;
  try lia.

Ltac status_cases c :=
  let E := fresh "Est" in
  destruct (status_ c) eqn:E; simpl; rewrite ?E; simpl.

Lemma stepCounts_same k c c' :
  status_ c' = status_ c -> downCalls (trace c') = downCalls (trace c) ->
  shutdownWrites (trace c') = shutdownWrites (trace c) ->
  stepCounts k c c'.
Proof.
  intros Hs Hd Hw. unfold stepCounts, statusMove. rewrite Hs, Hd, Hw.
  split; [auto|]. split; [|lia].
  rewrite bool_decide_eq_false_2; [lia|]. intros [H1 H2]. done.
Qed.

Lemma handleClose_step k c c' :
  handleClose c = Ok c' -> stepCounts k c c'.
Proof.
  unfold handleClose, stepCounts, statusMove, emit, setStatus. cbv zeta.
  simpl. status_cases c; intros Hres; try discriminate;
    injection Hres as <-; simpl;
    (split; [auto 10|]); split; count_trace.
Qed.

Lemma stepCounts_emit k e c c' :
  plain e -> stepCounts k c c' -> stepCounts k c (emit e c').
Proof.
  intros [Hd Hs] (Hm & Hdown & Hsw). unfold stepCounts. simpl.
  split; [done|]. rewrite downCalls_app, shutdownWrites_app.
  unfold downCalls at 2. unfold shutdownWrites at 2.
  rewrite !filter_cons, Hd, Hs. simpl. lia.
Qed.

Lemma stepCounts_refl k c : stepCounts k c c.
Proof. by apply stepCounts_same. Qed.

Lemma handleWrite_step a c :
  stepCounts (CallHandleWrite, a) c (handleWrite a c).
Proof.
  unfold handleWrite. cbv zeta.
  destruct (isWriting a); [|by apply stepCounts_emit, stepCounts_refl].
  case_bool_decide; [|by repeat (apply stepCounts_emit; [done|]);
                        apply stepCounts_refl].
  case_bool_decide; [|by repeat (apply stepCounts_emit; [done|]);
                        apply stepCounts_refl].
  unfold stepCounts, statusMove, shutdownInLoop, emit. simpl.
  destruct (writeCompleteCallback_ c); simpl;
    status_cases c; destruct (isWritingAfter a); simpl;
    (split; [auto|]); split; count_trace.
Qed.

(** What one call does to the status and to the two counts. *)
Lemma call_step k a c c' :
  call k a c = Ok c' -> stepCounts (k, a) c c'.
Proof.
  destruct k; simpl.
  - unfold send. case_bool_decide; [|intros [= <-]; apply stepCounts_refl].
    destruct (isInLoopThread a).
    + intros Hres. apply sendInLoop_step in Hres as (Hs & Hd & Hw).
      by apply stepCounts_same.
    + intros [= <-]. by apply stepCounts_emit, stepCounts_refl.
  - unfold sendBuffer.
    case_bool_decide; [|intros [= <-]; apply stepCounts_refl].
    destruct (isInLoopThread a).
    + intros Hres. bind_inv Hres. injection Hres as <-.
      apply sendInLoop_step in Hstep as (Hs & Hd & Hw).
      apply stepCounts_emit; [done|]. by apply stepCounts_same.
    + intros [= <-]. by repeat (apply stepCounts_emit; [done|]);
        apply stepCounts_refl.
  - intros [= <-]. unfold shutdown, stepCounts, statusMove, emit, setStatus.
    status_cases c; (split; [auto 10|]); split; count_trace.
  - unfold connectEstablished, stepCounts, statusMove, emit, setStatus.
    cbv zeta. simpl. status_cases c; intros Hres; try discriminate;
      injection Hres as <-; simpl; (split; [auto 10|]); split; count_trace.
  - intros [= <-].
    unfold connectDestroyed, stepCounts, statusMove, emit, setStatus.
    cbv zeta. simpl. status_cases c; (split; [auto 10|]); split; count_trace.
  - unfold handleRead. cbv zeta. case_bool_decide.
    + intros [= <-]. by repeat (apply stepCounts_emit; [done|]);
        apply stepCounts_refl.
    + case_bool_decide.
      * intros Hres. apply (handleClose_step (CallHandleRead, a)) in Hres.
        destruct Hres as (Hm & Hd & Hw). unfold stepCounts. simpl in *.
        split; [done|]. rewrite Hd, !downCalls_app.
        split; [unfold downCalls; simpl; lia|].
        rewrite !shutdownWrites_app in Hw.
        unfold shutdownWrites in *. simpl in *. lia.
      * intros [= <-]. unfold handleError.
        by repeat (apply stepCounts_emit; [done|]); apply stepCounts_refl.
  - intros [= <-]. apply handleWrite_step.
  - apply handleClose_step.
  - intros [= <-]. by apply stepCounts_emit, stepCounts_refl.
  - intros Hres. apply sendInLoop_step in Hres as (Hs & Hd & Hw).
    by apply stepCounts_same.
  - intros [= <-]. unfold shutdownInLoop, stepCounts, statusMove, emit.
    simpl. destruct (isWriting a); simpl; (split; [auto|]);
      (rewrite bool_decide_eq_false_2 by (intros [? ?]; done));
      split; count_trace.
Qed.

Lemma statusMove_not_disconnecting s s' :
  statusMove s s' -> s <> kDisconnecting -> s' <> kDisconnecting.
Proof.
  intros [->|[[_ ->]|[[_ ->]|[_ ->]]]] Hs; done.
Qed.

(** X15.  No member function of [TcpConnection.cc] sets the status
    [kDisconnecting] ([shutdown] sets [kConnecting]): from a status other
    than it, no sequence of calls reaches it.  So the branch of
    [handleWrite] that shuts the write side down once the output buffer
    has drained is never taken, and every [shutdownWrite] comes from a run
    of the closure that [shutdown] queues. *)
Theorem status_never_disconnecting ks c c' :
  status_ c <> kDisconnecting -> calls ks c = Ok c' ->
  status_ c' <> kDisconnecting /\
  shutdownWrites (trace c') <= shutdownWrites (trace c) + shutdownInLoops ks.
Proof.
  revert c. induction ks as [|[k a] ks IH]; simpl; intros c Hs H.
  - injection H as <-. split; [done|]. unfold shutdownInLoops. simpl. lia.
  - bind_inv H. apply call_step in Hstep as (Hm & _ & Hw).
    pose proof (statusMove_not_disconnecting _ _ Hm Hs) as Hs'.
    destruct (IH r Hs' H) as [Hfin Hws]. split; [done|].
    rewrite (bool_decide_eq_false_2 (status_ c = kDisconnecting)) in Hw
      by done.
    unfold shutdownInLoops in *. rewrite filter_cons.
    rewrite orb_false_r in Hw.
    destruct (isShutdownInLoop (k, a)); simpl in *; lia.
Qed.

(** X15, witness: [shutdown] while two bytes of output are pending; the
    closure finds the channel writing, the buffer then drains, and the
    write side is never shut down. *)
Lemma status_never_disconnecting_witness :
  status_ c_up = kConnected /\
  exists c', calls k_half_close c_up = Ok c' /\
    status_ c' = kConnecting /\ shutdownWrites (trace c') = 0 /\
    outputOf (trace c') = [] /\ wireOf (trace c') = hello.
Proof.
  split; [vm_compute; reflexivity|].
  assert (Hrun : exists c', calls k_half_close c_up = Ok c')
    by (eexists; vm_compute; reflexivity).
  destruct Hrun as [c' Hrun]. exists c'. split; [exact Hrun|].
  assert (Hs : status_ c_up <> kDisconnecting) by (vm_compute; discriminate).
  pose proof (status_never_disconnecting k_half_close c_up c' Hs Hrun)
    as [_ Hw].
  vm_compute in Hrun. injection Hrun as <-. by_eval.
Defined.

(** X16.  [shutdown] on a connected connection puts the status back to
    [kConnecting].  From then on [send] drops its message without a call,
    the [assert] of [handleClose] fails, also when [handleRead] reads the
    end of the stream, [connectDestroyed] removes the channel without
    telling the user's callback, and the [assert] of [connectEstablished]
    holds again. *)
Theorem shutdown_resets_to_connecting a c :
  status_ c = kConnected ->
  status_ (shutdown c) = kConnecting /\
  trace (shutdown c) = trace c ++ [EffRunInLoopShutdown] /\
  (forall message,
     send message a (shutdown c) = Ok (shutdown c) /\
     sendBuffer message a (shutdown c) = Ok (shutdown c)) /\
  handleClose (shutdown c) =
    Fatal "assert(status_ == kConnected || status_ == kDisconnecting)" /\
  (ioResult a = 0%Z ->
   handleRead a (shutdown c) =
     Fatal "assert(status_ == kConnected || status_ == kDisconnecting)") /\
  trace (connectDestroyed (shutdown c)) =
    trace (shutdown c) ++ [EffAssertInLoopThread; EffRemove] /\
  status_ (connectDestroyed (shutdown c)) = kConnecting /\
  exists c', connectEstablished (shutdown c) = Ok c' /\
    status_ c' = kConnected.
Proof.
  intros Hc.
  assert (Hsh : shutdown c = emit EffRunInLoopShutdown (setStatus kConnecting c)).
  { unfold shutdown. by rewrite Hc. }
  rewrite Hsh. split; [done|]. split; [done|].
  split; [intros message; split; reflexivity|].
  split; [reflexivity|]. split.
  { intros Hn. unfold handleRead. cbv zeta. rewrite Hn. reflexivity. }
  split; [simpl; by rewrite <- !app_assoc|]. split; [done|].
  eexists. split; reflexivity.
Qed.

(** X16, witness: the connection that is up. *)
Lemma shutdown_resets_to_connecting_witness :
  status_ c_up = kConnected /\
  handleClose (shutdown c_up) =
    Fatal "assert(status_ == kConnected || status_ == kDisconnecting)" /\
  is_Ok (handleClose c_up) = true.
Proof.
  assert (Hc : status_ c_up = kConnected) by (vm_compute; reflexivity).
  split; [exact Hc|].
  destruct (shutdown_resets_to_connecting a_idle c_up Hc)
    as (_ & _ & _ & Hclose & _).
  split; [exact Hclose|]. vm_compute. reflexivity.
Defined.

(** Once the status is [kDisconnected] it stays, and the user's callback
    is not told again. *)
Lemma disconnected_is_final ks c c' :
  status_ c = kDisconnected -> calls ks c = Ok c' ->
  status_ c' = kDisconnected /\ downCalls (trace c') = downCalls (trace c).
Proof.
  revert c. induction ks as [|[k a] ks IH]; simpl; intros c Hs H.
  - by injection H as <-.
  - bind_inv H. apply call_step in Hstep as (Hm & Hd & _).
    rewrite Hs in Hm, Hd.
    assert (Hs' : status_ r = kDisconnected).
    { destruct Hm as [->|[[? _]|[[? _]|[[?|?] _]]]]; done. }
    rewrite bool_decide_eq_false_2 in Hd by (intros [? ?]; done).
    destruct (IH r Hs' H) as [Hfin Hcount]. split; [done|]. lia.
Qed.

(** X17.  The user's connection callback is told that the connection is
    down exactly once, in the call that sets the status to
    [kDisconnected]: whichever of [handleClose] and [connectDestroyed]
    comes first tells it and the other does not repeat it.  The status
    [kDisconnected] is final: no call leaves it. *)
Theorem down_callback_once ks c c' :
  status_ c <> kDisconnected -> calls ks c = Ok c' ->
  downCalls (trace c') =
    downCalls (trace c) +
    (if bool_decide (status_ c' = kDisconnected) then 1 else 0) /\
  (forall ks' c'', status_ c' = kDisconnected -> calls ks' c' = Ok c'' ->
     status_ c'' = kDisconnected /\
     downCalls (trace c'') = downCalls (trace c')).
Proof.
  intros Hs H. split; [|intros ks' c''; apply disconnected_is_final].
  revert c Hs H. induction ks as [|[k a] ks IH]; simpl; intros c Hs H.
  - injection H as <-. rewrite bool_decide_eq_false_2 by done. lia.
  - bind_inv H. apply call_step in Hstep as (_ & Hd & _).
    destruct (decide (status_ r = kDisconnected)) as [Hr|Hr].
    + rewrite bool_decide_eq_true_2 in Hd by done.
      destruct (disconnected_is_final ks r c' Hr H) as [Hfin Hcount].
      rewrite bool_decide_eq_true_2 by done. lia.
    + rewrite bool_decide_eq_false_2 in Hd by (intros [? ?]; done).
      rewrite (IH r Hr H). lia.
Qed.

(** X17, witness: the peer closes, then the server destroys the
    connection. *)
Lemma down_callback_once_witness :
  status_ c_up <> kDisconnected /\
  exists c', calls [(CallHandleClose, a_idle); (CallConnectDestroyed, a_idle)]
               c_up = Ok c' /\
    status_ c' = kDisconnected /\ downCalls (trace c') = 1.
Proof.
  assert (Hs : status_ c_up <> kDisconnected) by (vm_compute; discriminate).
  split; [exact Hs|].
  assert (Hrun : exists c',
    calls [(CallHandleClose, a_idle); (CallConnectDestroyed, a_idle)] c_up
      = Ok c') by (eexists; vm_compute; reflexivity).
  destruct Hrun as [c' Hrun]. exists c'. split; [exact Hrun|].
  destruct (down_callback_once _ c_up c' Hs Hrun) as [Hcount _].
  assert (Hfin : status_ c' = kDisconnected).
  { vm_compute in Hrun. injection Hrun as <-. reflexivity. }
  split; [exact Hfin|].
  rewrite Hcount, (bool_decide_eq_true_2 _ Hfin). vm_compute. reflexivity.
Defined.

(** ** The bytes of a message *)

Lemma wireOf_sendEffects data a c :
  wireOf (sendEffects data a c) =
    if direct a then take (Z.to_nat (ioResult a)) data else [].
Proof.
  unfold sendEffects, wireOf.
  repeat match goal with
         | |- context [if ?b then _ else _] => destruct b
         end; reflexivity.
Qed.

Lemma outputOf_sendEffects data a c :
  outputOf (sendEffects data a c) =
    if negb (faulty a) && bool_decide (0 < remainingOf data a)%Z
    then take (Z.to_nat (remainingOf data a))
           (drop (Z.to_nat (nwroteOf a)) data)
    else [].
Proof.
  unfold sendEffects, outputOf.
  repeat match goal with
         | |- context [if ?b then _ else _] => destruct b
         end; reflexivity.
Qed.

Lemma writingOf_sendEffects data a c w :
  foldl writingAfter w (sendEffects data a c) =
    if negb (faulty a) && bool_decide (0 < remainingOf data a)%Z
    then (if isWriting a then w else true) else w.
Proof.
  unfold sendEffects. destruct (isWriting a); simpl.
  all: repeat match goal with
         | |- context [if ?b then _ else _] => destruct b
         end; reflexivity.
Qed.

(** The bytes left after the direct write, for a socket that takes no
    more than it is given. *)
Lemma remainingOf_spec data a :
  (ioResult a <= Z.of_nat (length data))%Z ->
  (Z.of_nat (length data) < size_max)%Z ->
  remainingOf data a = (Z.of_nat (length data) - nwroteOf a)%Z /\
  (0 <= nwroteOf a <= Z.of_nat (length data))%Z.
Proof.
  intros Hn Hlen. unfold remainingOf, nwroteOf, wroteDirectly.
  destruct (direct a); simpl; [|lia]. case_bool_decide; [|lia].
  split; [|lia]. unfold wrap. apply Z.mod_small. lia.
Qed.

Lemma take_drop_all (data : Bytes) (k : Z) :
  (0 <= k <= Z.of_nat (length data))%Z ->
  take (Z.to_nat (Z.of_nat (length data) - k)) (drop (Z.to_nat k) data)
    = drop (Z.to_nat k) data.
Proof.
  intros Hk. apply take_ge. rewrite length_drop. lia.
Qed.

(** The bytes of one message that the socket takes and that are buffered. *)
Lemma sendEffects_bytes data a c :
  (ioResult a <= Z.of_nat (length data))%Z ->
  (Z.of_nat (length data) < size_max)%Z ->
  wireOf (sendEffects data a c) = take (Z.to_nat (nwroteOf a)) data /\
  outputOf (sendEffects data a c) =
    (if faulty a then [] else drop (Z.to_nat (nwroteOf a)) data) /\
  (faulty a = true -> nwroteOf a = 0%Z).
Proof.
  intros Hn Hlen. destruct (remainingOf_spec data a Hn Hlen) as [Hrem Hnw].
  rewrite wireOf_sendEffects, outputOf_sendEffects, Hrem.
  split; [|split].
  - unfold nwroteOf, wroteDirectly. destruct (direct a); simpl; [|done].
    case_bool_decide; [done|].
    replace (Z.to_nat (ioResult a)) with 0 by lia. done.
  - destruct (faulty a); simpl; [done|]. case_bool_decide.
    + by apply take_drop_all.
    + symmetry. apply drop_ge. lia.
  - unfold faulty, nwroteOf, wroteDirectly. destruct (direct a); simpl; [|done].
    intros H. apply andb_true_iff in H as [H _].
    apply bool_decide_eq_true in H.
    rewrite bool_decide_eq_false_2 by lia. done.
Qed.

(** X18.  One call of [sendInLoop], for a socket that takes no more than
    it is given: unless the connection is disconnected or the direct write
    fails with EPIPE or ECONNRESET, in which cases the message is dropped
    and nothing is buffered, the bytes the socket takes followed by the
    bytes appended to the output buffer are the message.  The socket is
    only tried when the channel is not writing and the output buffer is
    empty, so a message never overtakes buffered bytes; and whenever bytes
    are buffered the channel is writing afterwards.  The status is not
    changed, not even after a failed write. *)
Theorem sendInLoop_sends_or_buffers data a c :
  (ioResult a <= Z.of_nat (length data))%Z ->
  (Z.of_nat (length data) < size_max)%Z ->
  exists c' effs,
    sendInLoop data a c = Ok c' /\ trace c' = trace c ++ effs /\
    status_ c' = status_ c /\
    wireOf effs ++ outputOf effs =
      (if bool_decide (status_ c = kDisconnected) || faulty a
       then [] else data) /\
    (wireOf effs <> [] -> isWriting a = false /\ readable a = []) /\
    (outputOf effs <> [] ->
     isWriting a = true \/ EffEnableWriting ∈ effs).
Proof.
  intros Hn Hlen.
  destruct (decide (status_ c = kDisconnected)) as [Hd|Hd].
  - exists (emit EffAssertInLoopThread c), [EffAssertInLoopThread].
    unfold sendInLoop. cbv zeta.
    change (status_ (emit EffAssertInLoopThread c)) with (status_ c).
    rewrite (bool_decide_eq_true_2 _ Hd). simpl. done.
  - destruct (remainingOf_spec data a Hn Hlen) as [Hrem Hnw].
    destruct (sendEffects_bytes data a c Hn Hlen) as (Hwire & Hout & Hfault).
    exists (record (sendEffects data a c) c), (sendEffects data a c).
    rewrite sendInLoop_effects by done.
    rewrite bool_decide_eq_true_2 by lia.
    split; [done|]. split; [done|]. split; [done|].
    rewrite (bool_decide_eq_false_2 _ Hd). simpl.
    split; [|split].
    + rewrite Hwire, Hout. destruct (faulty a).
      * rewrite Hfault by done. reflexivity.
      * apply take_drop.
    + rewrite wireOf_sendEffects. unfold direct.
      destruct (isWriting a); simpl; [done|]. case_bool_decide; [|done].
      intros _. split; [done|]. by destruct (readable a).
    + rewrite outputOf_sendEffects. unfold sendEffects.
      destruct (negb (faulty a) && _); [|done]. intros _.
      destruct (isWriting a); [by left|]. right. simpl.
      repeat match goal with
             | |- context [if ?b then _ else _] => destruct b
             end; apply list_elem_of_In; simpl; auto 10.
Qed.

(** X18, witness: the socket takes two of the five bytes. *)
Lemma sendInLoop_sends_or_buffers_witness :
  exists c',
    sendInLoop hello (mkAnswers true false [] 2 0 0 false) c_up = Ok c' /\
    wireOf (trace c') = [Byte.x68; Byte.x65] /\
    outputOf (trace c') = [Byte.x6c; Byte.x6c; Byte.x6f] /\
    writingOf (trace c') = true.
Proof.
  destruct (sendInLoop_sends_or_buffers hello
              (mkAnswers true false [] 2 0 0 false) c_up)
    as (c' & effs & Hsend & _); [vm_compute; discriminate | done |].
  exists c'. split; [exact Hsend|].
  vm_compute in Hsend. injection Hsend as <-. by_eval.
Defined.

(** ** The two optional callbacks *)

Lemma sendEffects_mark data a c n :
  EffQueueHighWaterMark n ∈ sendEffects data a c <->
  negb (faulty a) && bool_decide (0 < remainingOf data a)%Z = true /\
  crossesMark data a c = true /\
  n = wrap (Z.of_nat (length (readable a)) + remainingOf data a).
Proof.
  unfold sendEffects.
  destruct (negb (faulty a) && bool_decide (0 < remainingOf data a)%Z);
    destruct (crossesMark data a c);
    repeat match goal with
           | |- context [if ?b then _ else _] => destruct b
           end; rewrite list_elem_of_In; simpl; intuition congruence.
Qed.

Lemma sendEffects_complete data a c :
  EffQueueWriteComplete ∈ sendEffects data a c <->
  wroteDirectly a && bool_decide (remainingOf data a = 0%Z)
    && writeCompleteCallback_ c = true.
Proof.
  unfold sendEffects.
  destruct (wroteDirectly a && bool_decide (remainingOf data a = 0%Z)
            && writeCompleteCallback_ c);
    repeat match goal with
           | |- context [if ?b then _ else _] => destruct b
           end; rewrite list_elem_of_In; simpl; intuition congruence.
Qed.

(** X19.  [sendInLoop] queues the high-water-mark callback exactly when
    the callback is set and the bytes it is about to buffer take the
    output buffer from below the mark to the mark or beyond; the callback
    is given the new size.  While the buffer stays at or above the mark it
    is not queued again.  The write-complete callback is queued exactly
    when it is set and the direct write took the whole message. *)
Theorem high_water_mark_on_upward_crossing data a c n :
  status_ c <> kDisconnected ->
  (ioResult a <= Z.of_nat (length data))%Z ->
  (Z.of_nat (length (readable a)) + Z.of_nat (length data) < size_max)%Z ->
  exists c' effs,
    sendInLoop data a c = Ok c' /\ trace c' = trace c ++ effs /\
    (EffQueueHighWaterMark n ∈ effs <->
       highWaterMarkCallback_ c = true /\ faulty a = false /\
       (0 < Z.of_nat (length data) - nwroteOf a)%Z /\
       (Z.of_nat (length (readable a)) < highWaterMark_ c)%Z /\
       (highWaterMark_ c <=
        Z.of_nat (length (readable a)) + Z.of_nat (length data) - nwroteOf a)%Z
       /\
       n = (Z.of_nat (length (readable a)) + Z.of_nat (length data)
            - nwroteOf a)%Z) /\
    (EffQueueWriteComplete ∈ effs <->
       writeCompleteCallback_ c = true /\ isWriting a = false /\
       readable a = [] /\ ioResult a = Z.of_nat (length data)).
Proof.
  intros Hd Hn Hlen.
  destruct (remainingOf_spec data a) as [Hrem Hnw]; [done|lia|].
  exists (record (sendEffects data a c) c), (sendEffects data a c).
  rewrite sendInLoop_effects by done. rewrite bool_decide_eq_true_2 by lia.
  split; [done|]. split; [done|]. split.
  - rewrite sendEffects_mark. unfold crossesMark. rewrite Hrem.
    assert (Hw : wrap (Z.of_nat (length (readable a)) +
                       (Z.of_nat (length data) - nwroteOf a)) =
                 (Z.of_nat (length (readable a)) + Z.of_nat (length data)
                  - nwroteOf a)%Z).
    { unfold wrap. rewrite Z.mod_small; lia. }
    rewrite Hw, !andb_true_iff, negb_true_iff, !bool_decide_eq_true.
    intuition lia.
  - rewrite sendEffects_complete, Hrem.
    unfold nwroteOf, wroteDirectly, direct in *.
    rewrite !andb_true_iff, negb_true_iff, !bool_decide_eq_true.
    destruct (isWriting a); simpl in *; [intuition discriminate|].
    destruct (readable a) as [|b rest] eqn:Hr; simpl in *.
    + case_bool_decide; simpl in *; intuition (try done; lia).
    + intuition (try done; lia).
Qed.

(** X19, witness: three bytes are buffered and the mark is 8; five more
    bytes reach the mark and the callback is queued with the new size. *)
Lemma high_water_mark_on_upward_crossing_witness :
  status_ c_marked <> kDisconnected /\ highWaterMark_ c_marked = 8%Z /\
  exists c' effs,
    sendInLoop hello a_busy c_marked = Ok c' /\
    trace c' = trace c_marked ++ effs /\
    effs = [EffAssertInLoopThread; EffQueueHighWaterMark 8;
            EffOutputAppend hello].
Proof.
  assert (Hs : status_ c_marked <> kDisconnected)
    by (vm_compute; discriminate).
  split; [exact Hs|]. split; [vm_compute; reflexivity|].
  destruct (high_water_mark_on_upward_crossing hello a_busy c_marked 8%Z Hs)
    as (c' & effs & Hsend & Htr & _);
    [vm_compute; discriminate | vm_compute; reflexivity |].
  exists c', effs. split; [exact Hsend|]. split; [exact Htr|].
  vm_compute in Hsend. injection Hsend as <-.
  vm_compute in Htr. by injection Htr as <-.
Defined.

(** ** The output stream *)

Lemma wireOf_app tr effs : wireOf (tr ++ effs) = wireOf tr ++ wireOf effs.
Proof.
  unfold wireOf. rewrite foldl_app. generalize (foldl wireAfter [] tr).
  induction effs as [|e effs IH] using rev_ind; intros w; simpl.
  - by rewrite app_nil_r.
  - rewrite !foldl_app. simpl. rewrite IH.
    destruct e; simpl; rewrite ?app_assoc; done.
Qed.

Lemma outputOf_app tr effs :
  outputOf (tr ++ effs) = foldl outputAfter (outputOf tr) effs.
Proof. unfold outputOf. by rewrite foldl_app. Qed.

Lemma writingOf_app tr effs :
  writingOf (tr ++ effs) = foldl writingAfter (writingOf tr) effs.
Proof. unfold writingOf. by rewrite foldl_app. Qed.

Lemma output_sendEffects buf data a c :
  foldl outputAfter buf (sendEffects data a c) =
    buf ++ outputOf (sendEffects data a c).
Proof.
  unfold sendEffects, outputOf.
  repeat match goal with
         | |- context [if ?b then _ else _] => destruct b
         end; simpl; by rewrite ?app_nil_r.
Qed.

(** One [sendInLoop] with honest answers. *)
Lemma send_step message a c :
  status_ c <> kDisconnected -> honest (CallSendInLoop message) a c ->
  (outputOf (trace c) <> [] -> writingOf (trace c) = true) ->
  exists c', sendInLoop message a c = Ok c' /\ status_ c' = status_ c /\
    wireOf (trace c') ++ outputOf (trace c') =
      wireOf (trace c) ++ outputOf (trace c) ++ message /\
    (outputOf (trace c') <> [] -> writingOf (trace c') = true).
Proof.
  intros Hd (Hbuf & Hwr & Hn & Hlen & Hfault & _) Hinv. simpl in *.
  destruct (remainingOf_spec message a Hn Hlen) as [Hrem Hnw].
  destruct (sendEffects_bytes message a c Hn Hlen) as (Hwire & Hout & _).
  rewrite Hfault in Hout.
  exists (record (sendEffects message a c) c).
  rewrite sendInLoop_effects by done. rewrite bool_decide_eq_true_2 by lia.
  split; [done|]. split; [done|]. simpl.
  rewrite wireOf_app, outputOf_app, writingOf_app, output_sendEffects,
    writingOf_sendEffects, Hwire, Hout, Hfault, Hrem.
  split.
  - unfold nwroteOf, wroteDirectly, direct in *.
    destruct (isWriting a); simpl in *.
    + by rewrite take_0, drop_0, app_nil_r.
    + case_bool_decide as Hemp; simpl in *.
      * assert (Hnil : outputOf (trace c) = []).
        { rewrite <- Hbuf. by destruct (readable a). }
        rewrite Hnil. simpl. rewrite <- app_assoc. by rewrite take_drop.
      * by rewrite take_0, drop_0, app_nil_r.
  - simpl. case_bool_decide as Hleft; simpl.
    + intros _. destruct (isWriting a) eqn:Hw; [|done]. by rewrite <- Hwr.
    + rewrite drop_ge by lia. rewrite app_nil_r. exact Hinv.
Qed.

(** One [handleWrite] with honest answers. *)
Lemma write_step a c :
  honest CallHandleWrite a c ->
  (outputOf (trace c) <> [] -> writingOf (trace c) = true) ->
  status_ (handleWrite a c) = status_ c /\
  wireOf (trace (handleWrite a c)) ++ outputOf (trace (handleWrite a c)) =
    wireOf (trace c) ++ outputOf (trace c) /\
  (outputOf (trace (handleWrite a c)) <> [] ->
   writingOf (trace (handleWrite a c)) = true).
Proof.
  intros (Hbuf & Hwr & Hn & _ & _ & Hafter) Hinv. simpl in *.
  unfold handleWrite. cbv zeta.
  destruct (isWriting a) eqn:Hw.
  - case_bool_decide as Hpos.
    + assert (Hsplit : wireOf (trace c) ++
                (take (Z.to_nat (ioResult a)) (readable a)) ++
                drop (Z.to_nat (ioResult a)) (outputOf (trace c)) =
              wireOf (trace c) ++ outputOf (trace c)).
      { rewrite Hbuf. by rewrite take_drop. }
      case_bool_decide as Hempty.
      * assert (Hnil : drop (Z.to_nat (ioResult a)) (outputOf (trace c)) = []).
        { rewrite Hafter in Hempty. apply nil_length_inv. lia. }
        unfold shutdownInLoop, emit. simpl.
        destruct (writeCompleteCallback_ c); simpl;
          destruct (bool_decide (status_ c = kDisconnecting)); simpl;
          destruct (isWritingAfter a); simpl;
          rewrite ?wireOf_app, ?outputOf_app, ?writingOf_app; simpl;
          unfold wireOf at 2; simpl; rewrite ?app_nil_r, Hnil;
          rewrite Hnil in Hsplit; rewrite <- Hsplit, ?app_nil_r;
          (split; [done|]); (split; [by rewrite ?app_assoc|]); done.
      * simpl. rewrite !wireOf_app, !outputOf_app, !writingOf_app. simpl.
        unfold wireOf at 2 3. simpl. rewrite <- Hsplit, ?app_nil_r.
        split; [done|]. split; [by rewrite <- !app_assoc|].
        intros _. by rewrite <- Hwr.
    + simpl. rewrite !wireOf_app, !outputOf_app, !writingOf_app. simpl.
      unfold wireOf at 2 3. simpl.
      replace (Z.to_nat (ioResult a)) with 0 by lia.
      rewrite take_0, !app_nil_r. done.
  - simpl. rewrite wireOf_app, outputOf_app, writingOf_app. simpl.
    unfold wireOf at 2. simpl. by rewrite app_nil_r.
Qed.

(** X20.  The output path keeps the byte stream in order.  Let the
    answers be those of a first-in first-out output buffer, of a channel
    that remembers its write interest and of a socket that takes a prefix
    of what it is given and reports no broken connection.  Then after any
    sequence of [sendInLoop] and [handleWrite] calls on a connection that
    is not disconnected, the bytes taken by the socket followed by the
    bytes still in the output buffer are exactly the messages sent, in the
    order of the calls, with nothing lost, repeated or reordered; and
    whenever the buffer is not empty the channel is writing, so that
    [handleWrite] will be asked to go on. *)
Theorem output_stream_in_order ks c :
  status_ c <> kDisconnected ->
  (outputOf (trace c) <> [] -> writingOf (trace c) = true) ->
  honestRun ks c ->
  exists c', calls ks c = Ok c' /\ status_ c' = status_ c /\
    wireOf (trace c') ++ outputOf (trace c') =
      wireOf (trace c) ++ outputOf (trace c) ++ sentAll ks /\
    (outputOf (trace c') <> [] -> writingOf (trace c') = true).
Proof.
  revert c. induction ks as [|[k a] ks IH]; intros c Hd Hinv Hrun.
  - exists c. unfold sentAll. simpl. by rewrite !app_nil_r.
  - destruct Hrun as (Hcall & Hhon & Hrest).
    cbn [fst snd] in Hcall, Hhon, Hrest.
    change (calls ((k, a) :: ks) c) with (call k a c ≫= calls ks).
    change (sentAll ((k, a) :: ks)) with (sentBy k ++ sentAll ks).
    destruct k; try discriminate Hcall.
    + change (call CallHandleWrite a c) with (Ok (handleWrite a c)) in *.
      destruct (write_step a c Hhon Hinv) as (Hs1 & Hb1 & Hi1).
      destruct (IH (handleWrite a c)) as (c' & Hcalls & Hs' & Hb' & Hi');
        [by rewrite Hs1 | done | done |].
      exists c'. split; [done|]. split; [congruence|]. split; [|done].
      rewrite Hb', app_assoc, Hb1, <- app_assoc. reflexivity.
    + change (call (CallSendInLoop message) a c)
        with (sendInLoop message a c) in *.
      destruct (send_step message a c Hd Hhon Hinv)
        as (c1 & Hsend & Hs1 & Hb1 & Hi1).
      rewrite Hsend in Hrest |- *.
      destruct (IH c1) as (c' & Hcalls & Hs' & Hb' & Hi');
        [by rewrite Hs1 | done | done |].
      exists c'. split; [done|]. split; [congruence|]. split; [|done].
      rewrite Hb', app_assoc, Hb1, <- !app_assoc. reflexivity.
Qed.

(** X20, witness: "hello" and "abc" leave in this order. *)
Lemma output_stream_in_order_witness :
  honestRun k_stream c_up /\
  exists c', calls k_stream c_up = Ok c' /\
    wireOf (trace c') = hello ++ abc /\ outputOf (trace c') = [] /\
    writingOf (trace c') = false.
Proof.
  assert (Hs : status_ c_up <> kDisconnected) by (vm_compute; discriminate).
  assert (Hinv : outputOf (trace c_up) <> [] -> writingOf (trace c_up) = true).
  { intros Hne. exfalso. apply Hne. vm_compute. reflexivity. }
  assert (Hrun : honestRun k_stream c_up).
  { vm_compute. repeat split; discriminate. }
  split; [exact Hrun|].
  destruct (output_stream_in_order k_stream c_up Hs Hinv Hrun)
    as (c' & Hcalls & _).
  exists c'. split; [exact Hcalls|].
  vm_compute in Hcalls. injection Hcalls as <-. by_eval.
Defined.

(** ** Write interest *)

(** One [sendInLoop] with honest answers leaves no write interest without
    buffered bytes. *)
Lemma send_quiet message a c :
  status_ c <> kDisconnected -> honest (CallSendInLoop message) a c ->
  (writingOf (trace c) = true -> outputOf (trace c) <> []) ->
  writingOf (trace (record (sendEffects message a c) c)) = true ->
  outputOf (trace (record (sendEffects message a c) c)) <> [].
Proof.
  intros Hd (Hbuf & Hwr & Hn & Hlen & Hfault & _) Hinv. simpl in *.
  destruct (remainingOf_spec message a Hn Hlen) as [Hrem Hnw].
  destruct (sendEffects_bytes message a c Hn Hlen) as (_ & Hout & _).
  rewrite Hfault in Hout.
  rewrite outputOf_app, writingOf_app, output_sendEffects,
    writingOf_sendEffects, Hout, Hfault, Hrem. simpl.
  case_bool_decide as Hleft.
  - intros _ Hnil. apply app_eq_nil in Hnil as [_ Hnil].
    apply (f_equal length) in Hnil. rewrite length_drop in Hnil.
    simpl in Hnil. lia.
  - intros Hw Hnil. apply app_eq_nil in Hnil as [Hnil _]. by apply Hinv.
Qed.

(** The same for one [handleWrite]. *)
Lemma write_quiet a c :
  honest CallHandleWrite a c ->
  (writingOf (trace c) = true -> outputOf (trace c) <> []) ->
  writingOf (trace (handleWrite a c)) = true ->
  outputOf (trace (handleWrite a c)) <> [].
Proof.
  intros (Hbuf & Hwr & Hn & _ & _ & Hafter) Hinv. simpl in *.
  unfold handleWrite. cbv zeta.
  destruct (isWriting a) eqn:Hw.
  - case_bool_decide as Hpos.
    + case_bool_decide as Hempty.
      * unfold shutdownInLoop, emit. simpl.
        destruct (writeCompleteCallback_ c); simpl;
          destruct (bool_decide (status_ c = kDisconnecting)); simpl;
          destruct (isWritingAfter a); simpl;
          rewrite ?writingOf_app; simpl; discriminate.
      * simpl. rewrite !outputOf_app, !writingOf_app. simpl.
        intros _ Hnil. rewrite Hnil in Hafter. simpl in Hafter. lia.
    + simpl. rewrite !outputOf_app, !writingOf_app. simpl. exact Hinv.
  - simpl. rewrite outputOf_app, writingOf_app. simpl. exact Hinv.
Qed.

(** X23.  The channel is interested in writing exactly while bytes are
    buffered.  With the answers of a first-in first-out output buffer, a
    channel that remembers its write interest and a socket that takes a
    prefix of what it is given without a broken-connection error, any
    sequence of [sendInLoop] and [handleWrite] calls on a connection that
    is not disconnected keeps this equivalence: [enableWriting] is called
    only when bytes have just been buffered, and [disableWriting] as soon
    as the buffer has drained, so the connection neither stalls with
    unsent bytes nor is woken for an empty buffer. *)
Theorem write_interest_iff_buffered ks c :
  status_ c <> kDisconnected ->
  (writingOf (trace c) = true <-> outputOf (trace c) <> []) ->
  honestRun ks c ->
  exists c', calls ks c = Ok c' /\
    (writingOf (trace c') = true <-> outputOf (trace c') <> []).
Proof.
  revert c. induction ks as [|[k a] ks IH]; intros c Hd Hinv Hrun.
  - by exists c.
  - destruct Hrun as (Hcall & Hhon & Hrest).
    cbn [fst snd] in Hcall, Hhon, Hrest.
    change (calls ((k, a) :: ks) c) with (call k a c ≫= calls ks).
    destruct Hinv as [Hquiet Hlive].
    destruct k; try discriminate Hcall.
    + change (call CallHandleWrite a c) with (Ok (handleWrite a c)) in *.
      destruct (write_step a c Hhon Hlive) as (Hs1 & _ & Hl1).
      pose proof (write_quiet a c Hhon Hquiet) as Hq1.
      apply (IH (handleWrite a c)); [by rewrite Hs1 | by split | done].
    + change (call (CallSendInLoop message) a c)
        with (sendInLoop message a c) in *.
      destruct (send_step message a c Hd Hhon Hlive)
        as (c1 & Hsend & Hs1 & _ & Hl1).
      pose proof (send_quiet message a c Hd Hhon Hquiet) as Hq1.
      assert (Hc1 : c1 = record (sendEffects message a c) c).
      { destruct Hhon as (_ & _ & Hn & Hlen & _).
        destruct (remainingOf_spec message a Hn Hlen) as [Hrem Hnw].
        rewrite sendInLoop_effects in Hsend by done.
        rewrite bool_decide_eq_true_2 in Hsend by lia. congruence. }
      rewrite Hsend in Hrest |- *. subst c1.
      apply IH; [by rewrite Hs1 | by split | done].
Qed.

(** X23, witness: after "hello", "abc" and one [handleWrite], "bc" is
    buffered and the channel is writing. *)
Lemma write_interest_iff_buffered_witness :
  honestRun k_partial c_up /\
  exists c', calls k_partial c_up = Ok c' /\
    outputOf (trace c') = [Byte.x62; Byte.x63] /\
    writingOf (trace c') = true.
Proof.
  assert (Hs : status_ c_up <> kDisconnected) by (vm_compute; discriminate).
  assert (Hinv : writingOf (trace c_up) = true <->
                 outputOf (trace c_up) <> []).
  { split.
    - intros Hw. vm_compute in Hw. discriminate.
    - intros Hne. exfalso. apply Hne. vm_compute. reflexivity. }
  assert (Hrun : honestRun k_partial c_up).
  { vm_compute. repeat split; discriminate. }
  split; [exact Hrun|].
  destruct (write_interest_iff_buffered k_partial c_up Hs Hinv Hrun)
    as (c' & Hcalls & Hiff).
  exists c'. split; [exact Hcalls|].
  assert (Hout : outputOf (trace c') = [Byte.x62; Byte.x63]).
  { vm_compute in Hcalls. injection Hcalls as <-. vm_compute. reflexivity. }
  split; [exact Hout|]. apply Hiff. rewrite Hout. discriminate.
Defined.

End TcpConnectionProofs.
